(** * Response model and decoders of prometheus-http-query

    A shallow embedding of [src/src/response.rs] (the serde-derived
    decoders and the hand-written value parsers of [mod de]) and of
    [parse_response] in [src/src/client.rs].

    Conventions of the embedding:
    - a JSON document is the tree [json]; objects keep their entries in
      document order, duplicates included, as serde_json hands them to a
      derived [Deserialize] implementation;
    - a Rust [Result<T, E>] evaluated by code that may also panic (an
      [unwrap] on [None], indexing a missing [HashMap] key, a debug-build
      arithmetic overflow) is an [outcome]: [Ok], [Err] or [Panic];
    - Rust [char]s of the parsed strings are [ascii] characters. *)

From Stdlib Require Import ZArith NArith QArith String Ascii List Bool Lia Wf_nat.
Import ListNotations.

Close Scope Q_scope.
Open Scope string_scope.
#[local] Set Warnings "-register-all".

(** ** Outcomes of Rust code *)

Inductive outcome (A E : Type) : Type :=
| Ok (a : A)
| Err (e : E)
| Panic.
Arguments Ok {A E} a.
Arguments Err {A E} e.
Arguments Panic {A E}.

Definition bind {A B E} (m : outcome A E) (k : A -> outcome B E) : outcome B E :=
  match m with
  | Ok a => k a
  | Err e => Err e
  | Panic => Panic
  end.

Notation "x <- m ;; k" := (bind m (fun x => k))
  (at level 61, m at next level, right associativity).

(** ** Errors reported through [serde::de::Error] *)

(** [std::num::IntErrorKind], restricted to what a string of decimal
    digits can produce. *)
Inductive int_error_kind := IntEmpty | IntPosOverflow.

(** [serde::de::Unexpected], as far as these decoders use it. *)
Inductive unexpected :=
| UStr (s : string)
| UOther (what : string).

Inductive de_error :=
| Custom (msg : string)                       (* SerdeError::custom(&str) *)
| CustomInt (k : int_error_kind)              (* SerdeError::custom(ParseIntError) *)
| InvalidType (found : unexpected) (expected : string)
| InvalidValue (found : unexpected) (expected : string)
| InvalidLength (len : nat) (expected : string)
| MissingField (field : string)
| DuplicateField (field : string)
| UnknownVariant (variant : string)
| UnknownField (field : string).

(** ** JSON documents *)

(** [serde_json::Number]: integer literals and float literals.  A float
    literal is kept as the exact decimal value it denotes. *)
Inductive number :=
| NInt (z : Z)
| NFloat (q : Q).

Inductive json :=
| JNull
| JBool (b : bool)
| JNum (n : number)
| JStr (s : string)
| JArr (l : list json)
| JObj (kvs : list (string * json)).

(** What serde names in an [invalid type] error. *)
Definition unexpected_of (j : json) : unexpected :=
  match j with
  | JNull => UOther "null"
  | JBool _ => UOther "boolean"
  | JNum _ => UOther "number"
  | JStr s => UStr s
  | JArr _ => UOther "sequence"
  | JObj _ => UOther "map"
  end.

(** [String::deserialize]. *)
Definition de_string (j : json) : outcome string de_error :=
  match j with
  | JStr s => Ok s
  | _ => Err (InvalidType (unexpected_of j) "a string")
  end.

(** ** Signed 64-bit arithmetic *)

Module I64.
Definition max : Z := (2 ^ 63 - 1)%Z.
Definition min : Z := (- 2 ^ 63)%Z.
Definition in_range (z : Z) : bool := (min <=? z)%Z && (z <=? max)%Z.

(** A debug-build [i64] operation: the exact result, or a panic on
    overflow. *)
Definition checked {E} (z : Z) : outcome Z E :=
  if in_range z then Ok z else Panic.
End I64.

(** ** [de::deserialize_prometheus_duration] *)

Module PromDuration.

Definition is_digit (c : ascii) : bool :=
  (("0" <=? c)%char && (c <=? "9")%char)%bool.

Definition digit_value (c : ascii) : Z :=
  (Z.of_nat (nat_of_ascii c) - Z.of_nat (nat_of_ascii "0"))%Z.

(** The value of a string of decimal digits, most significant first. *)
Definition digits_value (ds : list ascii) : Z :=
  fold_left (fun acc c => (acc * 10 + digit_value c)%Z) ds 0%Z.

(** [raw_num.parse::<i64>()] on a string made of ASCII digits only. *)
Definition parse_i64 (ds : list ascii) : outcome Z int_error_kind :=
  match ds with
  | [] => Err IntEmpty
  | _ => if (digits_value ds <=? I64.max)%Z then Ok (digits_value ds)
         else Err IntPosOverflow
  end.

(** [num * f1 * f2 * ...], evaluated left to right in [i64]. *)
Fixpoint mul_chain (acc : Z) (fs : list Z) : outcome Z de_error :=
  match fs with
  | [] => Ok acc
  | f :: fs' => a <- I64.checked (acc * f)%Z ;; mul_chain a fs'
  end.

(** [total_milliseconds += num * f1 * f2 * ...]. *)
Definition add_unit (total num : Z) (fs : list Z) : outcome Z de_error :=
  p <- mul_chain num fs ;; I64.checked (total + p)%Z.

(** The body of the [while let Some(item) = duration_iter.next()] loop;
    [raw_num] is kept most significant digit first. *)
Fixpoint go (it : list ascii) (total : Z) (raw_num : list ascii)
  : outcome Z de_error :=
  match it with
  | [] => Ok total
  | item :: rest =>
      if is_digit item then go rest total (raw_num ++ [item])%list
      else
        match parse_i64 raw_num with
        | Err k => Err (CustomInt k)
        | Panic => Panic
        | Ok num =>
            if (item =? "y")%char then
              t <- add_unit total num [1000; 60; 60; 24; 365]%Z ;; go rest t []
            else if (item =? "w")%char then
              t <- add_unit total num [1000; 60; 60; 24; 7]%Z ;; go rest t []
            else if (item =? "d")%char then
              t <- add_unit total num [1000; 60; 60; 24]%Z ;; go rest t []
            else if (item =? "h")%char then
              t <- add_unit total num [1000; 60; 60]%Z ;; go rest t []
            else if (item =? "m")%char then
              match rest with
              | c :: rest' =>
                  if (c =? "s")%char then
                    (* duration_iter.next_if_eq(&'s').is_some() *)
                    t <- add_unit total num [1000; 60; 60]%Z ;; go rest' t []
                  else t <- add_unit total num [1000; 60]%Z ;; go rest t []
              | [] => t <- add_unit total num [1000; 60]%Z ;; go rest t []
              end
            else if (item =? "s")%char then
              t <- add_unit total num [1000]%Z ;; go rest t []
            else Err (Custom "invalid time duration")
        end
  end.

(** The parser on the raw string; [Ok ms] stands for
    [Duration::milliseconds(ms)]. *)
Definition parse (s : string) : outcome Z de_error :=
  go (list_ascii_of_string s) 0%Z [].

Definition deserialize_prometheus_duration (j : json) : outcome Z de_error :=
  raw_str <- de_string j ;; parse raw_str.

End PromDuration.

(** ** Floating-point values and [de::deserialize_f64] *)

Module F64.

(** An [f64]: a finite value, represented by the exact decimal it was
    written as (rounding to the nearest binary64 value is left
    implicit), an infinity, or not-a-number. *)
Inductive f64 :=
| FFinite (q : Q)
| FInf (negative : bool)
| FNaN.

Definition is_digit := PromDuration.is_digit.

Definition to_lower (c : ascii) : ascii :=
  if (("A" <=? c)%char && (c <=? "Z")%char)%bool
  then ascii_of_nat (nat_of_ascii c + 32) else c.

Definition lower_is (l : list ascii) (word : string) : bool :=
  String.eqb (string_of_list_ascii (map to_lower l)) word.

Fixpoint take_digits (l : list ascii) : list ascii * list ascii :=
  match l with
  | c :: r => if is_digit c then let (d, r') := take_digits r in (c :: d, r')
              else ([], l)
  | [] => ([], [])
  end.

(** An optional [+] or [-]; [true] for [-]. *)
Definition split_sign (l : list ascii) : bool * list ascii :=
  match l with
  | c :: r => if (c =? "-")%char then (true, r)
              else if (c =? "+")%char then (false, r) else (false, l)
  | [] => (false, [])
  end.

Definition pow10 (e : Z) : Q :=
  if (0 <=? e)%Z then inject_Z (10 ^ e) else 1 # Z.to_pos (10 ^ (- e)).

(** [Exp ::= ('e' | 'E') Sign? Digit+], then the end of the input. *)
Definition parse_exp (l : list ascii) : option Z :=
  match l with
  | [] => Some 0%Z
  | c :: r =>
      if (to_lower c =? "e")%char then
        let (neg, r') := split_sign r in
        let (d, r'') := take_digits r' in
        match d, r'' with
        | _ :: _, [] =>
            let e := PromDuration.digits_value d in
            Some (if neg then (- e)%Z else e)
        | _, _ => None
        end
      else None
  end.

(** [Number ::= (Digit+ | Digit+ '.' Digit* | Digit* '.' Digit+) Exp?] *)
Definition parse_number (l : list ascii) : option Q :=
  let (d1, r1) := take_digits l in
  let '(d2, r2) :=
    match r1 with
    | c :: r => if (c =? ".")%char then take_digits r else ([], r1)
    | [] => ([], [])
    end in
  match (d1 ++ d2)%list with
  | [] => None
  | ds =>
      match parse_exp r2 with
      | Some e =>
          Some (inject_Z (PromDuration.digits_value ds)
                * pow10 (e - Z.of_nat (length d2)))%Q
      | None => None
      end
  end.

(** [<f64 as FromStr>::from_str]:
    [Float ::= Sign? ('inf' | 'infinity' | 'nan' | Number)], letters in
    any case. *)
Definition from_str (s : string) : option f64 :=
  let (neg, body) := split_sign (list_ascii_of_string s) in
  if lower_is body "inf" || lower_is body "infinity" then Some (FInf neg)
  else if lower_is body "nan" then Some FNaN
  else match parse_number body with
       | Some q => Some (FFinite (if neg then - q else q)%Q)
       | None => None
       end.

(** [f64::deserialize] on a JSON value: any JSON number. *)
Definition de_f64_number (j : json) : outcome f64 de_error :=
  match j with
  | JNum (NInt z) => Ok (FFinite (inject_Z z))
  | JNum (NFloat q) => Ok (FFinite q)
  | _ => Err (InvalidType (unexpected_of j) "f64")
  end.

Definition float_expected := "a float value inside a quoted JSON string".

(** [de::deserialize_f64]. *)
Definition deserialize_f64 (j : json) : outcome f64 de_error :=
  s <- de_string j ;;
  match from_str s with
  | Some x => Ok x
  | None => Err (InvalidValue (UStr s) float_expected)
  end.

End F64.

(** ** [de::deserialize_build_info_date] *)

Module BuildDate.

Record primitive_date_time := {
  year : Z; month : Z; day : Z; hour : Z; minute : Z; second : Z }.

Definition is_leap (y : Z) : bool :=
  ((Z.modulo y 4 =? 0)%Z && negb (Z.modulo y 100 =? 0)%Z)
  || (Z.modulo y 400 =? 0)%Z.

Definition days_in_month (y m : Z) : Z :=
  if (m =? 2)%Z then (if is_leap y then 29 else 28)%Z
  else if ((m =? 4) || (m =? 6) || (m =? 9) || (m =? 11))%Z then 30%Z
  else 31%Z.

(** Exactly [n] ASCII digits ([padding:zero], the default). *)
Fixpoint n_digits (n : nat) (l : list ascii) (acc : Z) : option (Z * list ascii) :=
  match n with
  | O => Some (acc, l)
  | S n' =>
      match l with
      | c :: r => if PromDuration.is_digit c
                  then n_digits n' r (acc * 10 + PromDuration.digit_value c)%Z
                  else None
      | [] => None
      end
  end.

Definition literal (c : ascii) (l : list ascii) : option (list ascii) :=
  match l with
  | c' :: r => if (c =? c')%char then Some r else None
  | [] => None
  end.

Definition obind {A B} (o : option A) (k : A -> option B) : option B :=
  match o with Some a => k a | None => None end.

(** [PrimitiveDateTime::parse] with the format description
    [[year repr:full][month repr:numerical][day]-[hour repr:24]:[minute]:[second]]
    of [BUILD_INFO_DATE_FORMAT], as the time crate evaluates it:
    [[year repr:full]] is an optional sign followed by exactly four
    digits, every other component exactly two digits; the whole input
    must be consumed and the components must form a valid date and
    time. *)
Definition parse (s : string) : option primitive_date_time :=
  let (neg, l) := F64.split_sign (list_ascii_of_string s) in
  obind (n_digits 4 l 0) (fun '(y, l) =>
  obind (n_digits 2 l 0) (fun '(mo, l) =>
  obind (n_digits 2 l 0) (fun '(d, l) =>
  obind (literal "-" l) (fun l =>
  obind (n_digits 2 l 0) (fun '(h, l) =>
  obind (literal ":" l) (fun l =>
  obind (n_digits 2 l 0) (fun '(mi, l) =>
  obind (literal ":" l) (fun l =>
  obind (n_digits 2 l 0) (fun '(sec, l) =>
  match l with
  | [] =>
      let y := if neg then (- y)%Z else y in
      if ((1 <=? mo) && (mo <=? 12) && (1 <=? d) && (d <=? days_in_month y mo)
          && (h <=? 23) && (mi <=? 59) && (sec <=? 59))%Z
      then Some {| year := y; month := mo; day := d;
                   hour := h; minute := mi; second := sec |}
      else None
  | _ => None
  end))))))))).

Definition date_expected := "a datetime string in format <yyyymmdd-hh:mm:ss>".

Definition deserialize_build_info_date (j : json)
  : outcome primitive_date_time de_error :=
  s <- de_string j ;;
  match parse s with
  | Some d => Ok d
  | None => Err (InvalidValue (UStr s) date_expected)
  end.

End BuildDate.

(** ** What [#[derive(Deserialize)]] generates for a struct *)

Module Serde.

(** [Option<T>] fields: JSON [null] is [None]. *)
Definition de_option {A} (d : json -> outcome A de_error) (j : json)
  : outcome (option A) de_error :=
  match j with
  | JNull => Ok None
  | _ => a <- d j ;; Ok (Some a)
  end.

Fixpoint map_outcome {A B E} (f : A -> outcome B E) (l : list A)
  : outcome (list B) E :=
  match l with
  | [] => Ok []
  | x :: l' => y <- f x ;; ys <- map_outcome f l' ;; Ok (y :: ys)
  end.

(** [Vec<T>]. *)
Definition de_vec {A} (d : json -> outcome A de_error) (j : json)
  : outcome (list A) de_error :=
  match j with
  | JArr l => map_outcome d l
  | _ => Err (InvalidType (unexpected_of j) "a sequence")
  end.

(** [String]-keyed [HashMap<String, String>]: a later key replaces an
    earlier one. *)
Definition labels := list (string * string).

Definition label_insert (k v : string) (m : labels) : labels :=
  (k, v) :: filter (fun kv => negb (String.eqb (fst kv) k)) m.

Fixpoint de_labels_entries (kvs : list (string * json)) (m : labels)
  : outcome labels de_error :=
  match kvs with
  | [] => Ok m
  | (k, v) :: kvs' => s <- de_string v ;; de_labels_entries kvs' (label_insert k s m)
  end.

Definition de_labels (j : json) : outcome labels de_error :=
  match j with
  | JObj kvs => de_labels_entries kvs []
  | _ => Err (InvalidType (unexpected_of j) "a map")
  end.

(** Integers: [i64] and [usize] (64-bit). *)
Definition de_int (lo hi : Z) (what : string) (j : json) : outcome Z de_error :=
  match j with
  | JNum (NInt z) =>
      if ((lo <=? z) && (z <=? hi))%Z then Ok z
      else Err (InvalidValue (UOther "integer") what)
  | _ => Err (InvalidType (unexpected_of j) what)
  end.

Definition de_i64 := de_int I64.min I64.max "i64".
Definition de_usize := de_int 0 (2 ^ 64 - 1)%Z "usize".

Definition de_bool (j : json) : outcome bool de_error :=
  match j with
  | JBool b => Ok b
  | _ => Err (InvalidType (unexpected_of j) "a boolean")
  end.

(** [if __fieldN.is_some() { return Err(duplicate_field(..)) }
     __fieldN = Some(map.next_value()?)]. *)
Definition set_slot {A} (name : string) (d : json -> outcome A de_error)
    (v : json) (slot : option A) : outcome (option A) de_error :=
  match slot with
  | Some _ => Err (DuplicateField name)
  | None => a <- d v ;; Ok (Some a)
  end.

(** [None => missing_field(..)?]: an error, except for [Option] fields. *)
Definition required {A} (name : string) (slot : option A) : outcome A de_error :=
  match slot with
  | Some a => Ok a
  | None => Err (MissingField name)
  end.

Definition optional {A} (slot : option (option A)) : option A :=
  match slot with
  | Some a => a
  | None => None
  end.

Definition is_key (names : list string) (k : string) : bool :=
  existsb (String.eqb k) names.

Section Visitor.
Context {St R : Type}.
(** The body of the [while let Some(key) = map.next_key()?] loop:
    [None] for a key that is no field ([__ignore]: the value is
    skipped as [IgnoredAny]). *)
Variable step : string -> json -> St -> option (outcome St de_error).
(** [seq.next_element()?] for each field in declaration order. *)
Variable seq_steps : list (json -> St -> outcome St de_error).
Variable init : St.
(** The missing-field checks after the loop. *)
Variable finish : St -> outcome R de_error.
Variable expecting : string.

Fixpoint visit_map (kvs : list (string * json)) (s : St) : outcome St de_error :=
  match kvs with
  | [] => Ok s
  | (k, v) :: kvs' =>
      match step k v s with
      | None => visit_map kvs' s
      | Some r => s' <- r ;; visit_map kvs' s'
      end
  end.

Fixpoint visit_seq (i : nat) (steps : list (json -> St -> outcome St de_error))
    (l : list json) (s : St) : outcome St de_error :=
  match steps, l with
  | [], [] => Ok s
  | [], _ :: _ => Err (InvalidLength (i + length l) expecting)
  | st :: steps', x :: l' => s' <- st x s ;; visit_seq (S i) steps' l' s'
  | _ :: _, [] => Err (InvalidLength i expecting)
  end.

(** [deserialize_struct]: a JSON object goes to [visit_map], a JSON
    array to [visit_seq]. *)
Definition de_struct (j : json) : outcome R de_error :=
  match j with
  | JObj kvs => s <- visit_map kvs init ;; finish s
  | JArr l => s <- visit_seq 0 seq_steps l init ;; finish s
  | _ => Err (InvalidType (unexpected_of j) expecting)
  end.
End Visitor.

(** The variant identifier of an enum: its name or one of its aliases. *)
Fixpoint find_variant {V} (table : list (list string * V)) (s : string) : option V :=
  match table with
  | [] => None
  | (names, v) :: t => if is_key names s then Some v else find_variant t s
  end.

Definition de_variant {V} (table : list (list string * V)) (j : json)
  : outcome V de_error :=
  match j with
  | JStr s => match find_variant table s with
              | Some v => Ok v
              | None => Err (UnknownVariant s)
              end
  | _ => Err (InvalidType (unexpected_of j) "variant identifier")
  end.

(** [TaggedContentVisitor] of an internally tagged enum
    ([#[serde(tag = ..)]]): the tag, decoded as a variant identifier as
    soon as it is met, and the remaining entries. *)
Fixpoint take_tag {V} (tag : string) (dec : json -> outcome V de_error)
    (kvs : list (string * json)) (found : option V)
    (rest : list (string * json))
  : outcome (V * list (string * json)) de_error :=
  match kvs with
  | [] => match found with
          | Some t => Ok (t, rev rest)
          | None => Err (MissingField tag)
          end
  | (k, v) :: kvs' =>
      if String.eqb k tag then
        match found with
        | Some _ => Err (DuplicateField tag)
        | None => t <- dec v ;; take_tag tag dec kvs' (Some t) rest
        end
      else take_tag tag dec kvs' found ((k, v) :: rest)
  end.

Definition tagged_content {V} (tag : string) (dec : json -> outcome V de_error)
    (j : json) : outcome (V * json) de_error :=
  match j with
  | JObj kvs => p <- take_tag tag dec kvs None [] ;; Ok (fst p, JObj (snd p))
  | JArr (t :: rest) => v <- dec t ;; Ok (v, JArr rest)
  | JArr [] => Err (InvalidLength 0 "internally tagged enum")
  | _ => Err (InvalidType (unexpected_of j) "internally tagged enum")
  end.

End Serde.

(** ** The query-result model of [response.rs] *)

Module Response.
Import Serde F64.

(** A field table for structs whose fields share one value type: the
    Rust name, the aliases and the value decoder of each field. *)
Record field (A : Type) := {
  fname : string;
  faliases : list string;
  fdec : json -> outcome A de_error;
  (** the value of an absent [Option] field; [None] for a required one *)
  fmissing : option A }.
Arguments fname {A}. Arguments faliases {A}. Arguments fdec {A}.
Arguments fmissing {A}.

Definition field_names {A} (f : field A) : list string := fname f :: faliases f.

Fixpoint field_index {A} (tbl : list (field A)) (k : string) : option nat :=
  match tbl with
  | [] => None
  | f :: tbl' =>
      if is_key (field_names f) k then Some 0
      else option_map S (field_index tbl' k)
  end.

Fixpoint replace_nth {A} (i : nat) (x : A) (l : list A) : list A :=
  match i, l with
  | O, _ :: l' => x :: l'
  | S i', y :: l' => y :: replace_nth i' x l'
  | _, [] => []
  end.

Definition table_step {A} (tbl : list (field A)) (k : string) (v : json)
    (st : list (option A)) : option (outcome (list (option A)) de_error) :=
  match field_index tbl k with
  | None => None
  | Some i =>
      match nth_error tbl i with
      | Some f => Some (slot <- set_slot (fname f) (fdec f) v (nth i st None) ;;
                        Ok (replace_nth i slot st))
      | None => None
      end
  end.

Fixpoint table_seq {A} (tbl : list (field A)) (i : nat)
  : list (json -> list (option A) -> outcome (list (option A)) de_error) :=
  match tbl with
  | [] => []
  | f :: tbl' =>
      (fun v st => a <- fdec f v ;; Ok (replace_nth i (Some a) st))
      :: table_seq tbl' (S i)
  end.

Fixpoint table_finish {A} (tbl : list (field A)) (st : list (option A))
  : outcome (list A) de_error :=
  match tbl, st with
  | f :: tbl', slot :: st' =>
      a <- match slot, fmissing f with
           | Some a, _ => Ok a
           | None, Some d => Ok d
           | None, None => Err (MissingField (fname f))
           end ;;
      rest <- table_finish tbl' st' ;; Ok (a :: rest)
  | _, _ => Ok []
  end.

Definition de_table {A} (tbl : list (field A)) (expecting : string)
  : json -> outcome (list A) de_error :=
  de_struct (table_step tbl) (table_seq tbl 0) (map (fun _ => None) tbl)
            (table_finish tbl) expecting.

(** [pub struct Sample { timestamp: f64,
      #[serde(deserialize_with = "de::deserialize_f64")] value: f64 }] *)
Record Sample := { timestamp : f64; value : f64 }.

Definition Sample_step (k : string) (v : json) (st : option f64 * option f64)
  : option (outcome (option f64 * option f64) de_error) :=
  if String.eqb k "timestamp" then
    Some (t <- set_slot "timestamp" de_f64_number v (fst st) ;; Ok (t, snd st))
  else if String.eqb k "value" then
    Some (x <- set_slot "value" deserialize_f64 v (snd st) ;; Ok (fst st, x))
  else None.

Definition Sample_seq : list (json -> option f64 * option f64
                              -> outcome (option f64 * option f64) de_error) :=
  [ (fun v st => t <- de_f64_number v ;; Ok (Some t, snd st));
    (fun v st => x <- deserialize_f64 v ;; Ok (fst st, Some x)) ].

Definition Sample_finish (st : option f64 * option f64) : outcome Sample de_error :=
  t <- required "timestamp" (fst st) ;;
  x <- required "value" (snd st) ;;
  Ok {| timestamp := t; value := x |}.

Definition de_Sample : json -> outcome Sample de_error :=
  de_struct Sample_step Sample_seq (None, None) Sample_finish
            "struct Sample with 2 elements".

(** [pub struct InstantVector { metric: HashMap<String, String>,
      #[serde(alias = "value")] sample: Sample }] *)
Record InstantVector := { iv_metric : labels; iv_sample : Sample }.

Definition InstantVector_step (k : string) (v : json)
    (st : option labels * option Sample) :=
  if String.eqb k "metric" then
    Some (m <- set_slot "metric" de_labels v (fst st) ;; Ok (m, snd st))
  else if is_key ["sample"; "value"] k then
    Some (x <- set_slot "sample" de_Sample v (snd st) ;; Ok (fst st, x))
  else None.

Definition InstantVector_seq : list (json -> option labels * option Sample
                 -> outcome (option labels * option Sample) de_error) :=
  [ (fun v st => m <- de_labels v ;; Ok (Some m, snd st));
    (fun v st => x <- de_Sample v ;; Ok (fst st, Some x)) ].

Definition InstantVector_finish (st : option labels * option Sample) :=
  m <- required "metric" (fst st) ;;
  x <- required "sample" (snd st) ;;
  Ok {| iv_metric := m; iv_sample := x |}.

Definition de_InstantVector : json -> outcome InstantVector de_error :=
  de_struct InstantVector_step InstantVector_seq (None, None)
            InstantVector_finish "struct InstantVector with 2 elements".

(** [pub struct RangeVector { metric: HashMap<String, String>,
      #[serde(alias = "values")] samples: Vec<Sample> }] *)
Record RangeVector := { rv_metric : labels; rv_samples : list Sample }.

Definition RangeVector_step (k : string) (v : json)
    (st : option labels * option (list Sample)) :=
  if String.eqb k "metric" then
    Some (m <- set_slot "metric" de_labels v (fst st) ;; Ok (m, snd st))
  else if is_key ["samples"; "values"] k then
    Some (x <- set_slot "samples" (de_vec de_Sample) v (snd st) ;; Ok (fst st, x))
  else None.

Definition RangeVector_seq : list (json -> option labels * option (list Sample)
                 -> outcome (option labels * option (list Sample)) de_error) :=
  [ (fun v st => m <- de_labels v ;; Ok (Some m, snd st));
    (fun v st => x <- de_vec de_Sample v ;; Ok (fst st, Some x)) ].

Definition RangeVector_finish (st : option labels * option (list Sample)) :=
  m <- required "metric" (fst st) ;;
  x <- required "samples" (snd st) ;;
  Ok {| rv_metric := m; rv_samples := x |}.

Definition de_RangeVector : json -> outcome RangeVector de_error :=
  de_struct RangeVector_step RangeVector_seq (None, None)
            RangeVector_finish "struct RangeVector with 2 elements".

(** [#[serde(tag = "resultType", content = "result")] pub enum Data
      { Vector(Vec<InstantVector>), Matrix(Vec<RangeVector>), Scalar(Sample) }] *)
Inductive Data :=
| Vector (v : list InstantVector)
| Matrix (m : list RangeVector)
| Scalar (s : Sample).

(** [Data::is_empty]. *)
Definition is_empty (d : Data) : bool :=
  match d with
  | Vector v => match v with [] => true | _ => false end
  | Matrix m => match m with [] => true | _ => false end
  | Scalar _ => false
  end.

Inductive data_variant := VVector | VMatrix | VScalar.

Definition data_variants : list (list string * data_variant) :=
  [ (["Vector"; "vector"], VVector);
    (["Matrix"; "matrix"], VMatrix);
    (["Scalar"; "scalar"], VScalar) ].

(** The variant identifier read back from buffered content: a name or
    alias, or a variant index. *)
Definition de_data_variant (j : json) : outcome data_variant de_error :=
  match j with
  | JNum (NInt 0) => Ok VVector
  | JNum (NInt 1) => Ok VMatrix
  | JNum (NInt 2) => Ok VScalar
  | JNum (NInt z) =>
      if (0 <? z)%Z then Err (InvalidValue (UOther "integer") "variant index 0 <= i < 3")
      else Err (InvalidType (UOther "integer") "variant identifier")
  | _ => de_variant data_variants j
  end.

Definition de_Data_content (v : data_variant) (c : json) : outcome Data de_error :=
  match v with
  | VVector => x <- de_vec de_InstantVector c ;; Ok (Vector x)
  | VMatrix => x <- de_vec de_RangeVector c ;; Ok (Matrix x)
  | VScalar => x <- de_Sample c ;; Ok (Scalar x)
  end.

(** [next_relevant_key] of the adjacently tagged visitor: [true] for the
    tag, [false] for the content; other keys are skipped. *)
Fixpoint next_relevant (kvs : list (string * json))
  : option (bool * json * list (string * json)) :=
  match kvs with
  | [] => None
  | (k, v) :: kvs' =>
      if String.eqb k "resultType" then Some (true, v, kvs')
      else if String.eqb k "result" then Some (false, v, kvs')
      else next_relevant kvs'
  end.

Definition remaining_keys (ret : Data) (kvs : list (string * json))
  : outcome Data de_error :=
  match next_relevant kvs with
  | Some (true, _, _) => Err (DuplicateField "resultType")
  | Some (false, _, _) => Err (DuplicateField "result")
  | None => Ok ret
  end.

(** The [visit_map] of the adjacently tagged [Data]. *)
Definition de_Data_map (kvs : list (string * json)) : outcome Data de_error :=
  match next_relevant kvs with
  | None => Err (MissingField "resultType")
  | Some (true, t, r) =>
      v <- de_data_variant t ;;
      match next_relevant r with
      | Some (true, _, _) => Err (DuplicateField "resultType")
      | Some (false, c, r') => d <- de_Data_content v c ;; remaining_keys d r'
      | None => Err (MissingField "result")
      end
  | Some (false, c, r) =>
      match next_relevant r with
      | Some (true, t, r') =>
          v <- de_data_variant t ;; d <- de_Data_content v c ;; remaining_keys d r'
      | Some (false, _, _) => Err (DuplicateField "result")
      | None => Err (MissingField "resultType")
      end
  end.

(** [pub struct Timings]: six [f64] fields, each with its camelCase alias. *)
Definition Timings_fields : list (field f64) :=
  map (fun '(n, a) => {| fname := n; faliases := [a]; fdec := de_f64_number;
                         fmissing := None |})
    [ ("eval_total_time", "evalTotalTime");
      ("result_sort_time", "resultSortTime");
      ("query_preparation_time", "queryPreparationTime");
      ("inner_eval_time", "innerEvalTime");
      ("exec_queue_time", "execQueueTime");
      ("exec_total_time", "execTotalTime") ].

Definition Timings := list f64.

Definition de_Timings : json -> outcome Timings de_error :=
  de_table Timings_fields "struct Timings with 6 elements".

(** [pub struct SamplesPerStep { timestamp: f64, value: usize }] *)
Record SamplesPerStep := { sps_timestamp : f64; sps_value : Z }.

Definition SamplesPerStep_step (k : string) (v : json) (st : option f64 * option Z) :=
  if String.eqb k "timestamp" then
    Some (t <- set_slot "timestamp" de_f64_number v (fst st) ;; Ok (t, snd st))
  else if String.eqb k "value" then
    Some (x <- set_slot "value" de_usize v (snd st) ;; Ok (fst st, x))
  else None.

Definition SamplesPerStep_seq : list (json -> option f64 * option Z
                               -> outcome (option f64 * option Z) de_error) :=
  [ (fun v st => t <- de_f64_number v ;; Ok (Some t, snd st));
    (fun v st => x <- de_usize v ;; Ok (fst st, Some x)) ].

Definition SamplesPerStep_finish (st : option f64 * option Z) :=
  t <- required "timestamp" (fst st) ;;
  x <- required "value" (snd st) ;;
  Ok {| sps_timestamp := t; sps_value := x |}.

Definition de_SamplesPerStep : json -> outcome SamplesPerStep de_error :=
  de_struct SamplesPerStep_step SamplesPerStep_seq (None, None)
            SamplesPerStep_finish "struct SamplesPerStep with 2 elements".

(** [pub struct Samples { total_queryable_samples_per_step:
      Option<Vec<SamplesPerStep>>, total_queryable_samples: i64,
      peak_samples: i64 }], with camelCase aliases. *)
Record Samples := {
  total_queryable_samples_per_step : option (list SamplesPerStep);
  total_queryable_samples : Z;
  peak_samples : Z }.

Definition Samples_acc : Type :=
  option (option (list SamplesPerStep)) * option Z * option Z.

Definition Samples_step (k : string) (v : json) (st : Samples_acc)
  : option (outcome Samples_acc de_error) :=
  let '(a, b, c) := st in
  if is_key ["total_queryable_samples_per_step"; "totalQueryableSamplesPerStep"] k then
    Some (a' <- set_slot "total_queryable_samples_per_step"
                 (de_option (de_vec de_SamplesPerStep)) v a ;; Ok (a', b, c))
  else if is_key ["total_queryable_samples"; "totalQueryableSamples"] k then
    Some (b' <- set_slot "total_queryable_samples" de_i64 v b ;; Ok (a, b', c))
  else if is_key ["peak_samples"; "peakSamples"] k then
    Some (c' <- set_slot "peak_samples" de_i64 v c ;; Ok (a, b, c'))
  else None.

Definition Samples_seq : list (json -> Samples_acc -> outcome Samples_acc de_error) :=
  [ (fun v '(_, b, c) => a <- de_option (de_vec de_SamplesPerStep) v ;;
                         Ok (Some a, b, c));
    (fun v '(a, _, c) => b <- de_i64 v ;; Ok (a, Some b, c));
    (fun v '(a, b, _) => c <- de_i64 v ;; Ok (a, b, Some c)) ].

Definition Samples_finish (st : Samples_acc) : outcome Samples de_error :=
  let '(a, b, c) := st in
  b' <- required "total_queryable_samples" b ;;
  c' <- required "peak_samples" c ;;
  Ok {| total_queryable_samples_per_step := optional a;
        total_queryable_samples := b'; peak_samples := c' |}.

Definition de_Samples : json -> outcome Samples de_error :=
  de_struct Samples_step Samples_seq (None, None, None) Samples_finish
            "struct Samples with 3 elements".

(** [pub struct Stats { timings: Timings, samples: Samples }] *)
Record Stats := { timings : Timings; samples : Samples }.

Definition Stats_step (k : string) (v : json) (st : option Timings * option Samples) :=
  if String.eqb k "timings" then
    Some (t <- set_slot "timings" de_Timings v (fst st) ;; Ok (t, snd st))
  else if String.eqb k "samples" then
    Some (x <- set_slot "samples" de_Samples v (snd st) ;; Ok (fst st, x))
  else None.

Definition Stats_seq : list (json -> option Timings * option Samples
                            -> outcome (option Timings * option Samples) de_error) :=
  [ (fun v st => t <- de_Timings v ;; Ok (Some t, snd st));
    (fun v st => x <- de_Samples v ;; Ok (fst st, Some x)) ].

Definition Stats_finish (st : option Timings * option Samples) :=
  t <- required "timings" (fst st) ;;
  x <- required "samples" (snd st) ;;
  Ok {| timings := t; samples := x |}.

Definition de_Stats : json -> outcome Stats de_error :=
  de_struct Stats_step Stats_seq (None, None) Stats_finish
            "struct Stats with 2 elements".

(** [pub struct PromqlResult { #[serde(flatten)] data: Data,
      stats: Option<Stats> }]: the entries that are no field of its own
    are collected and handed to [Data] through a [FlatMapDeserializer],
    which shows it only the keys [resultType] and [result]. *)
Record PromqlResult := { data : Data; stats : option Stats }.

Definition PromqlResult_acc : Type :=
  option (option Stats) * list (string * json).

Definition PromqlResult_step (k : string) (v : json) (st : PromqlResult_acc)
  : option (outcome PromqlResult_acc de_error) :=
  if String.eqb k "stats" then
    Some (x <- set_slot "stats" (de_option de_Stats) v (fst st) ;; Ok (x, snd st))
  else Some (Ok (fst st, (snd st ++ [(k, v)])%list)).

Definition PromqlResult_finish (st : PromqlResult_acc)
  : outcome PromqlResult de_error :=
  d <- de_Data_map (filter (fun kv => is_key ["resultType"; "result"] (fst kv))
                           (snd st)) ;;
  Ok {| data := d; stats := optional (fst st) |}.

Definition de_PromqlResult (j : json) : outcome PromqlResult de_error :=
  match j with
  | JObj kvs => st <- visit_map PromqlResult_step kvs (None, []) ;;
                PromqlResult_finish st
  | _ => Err (InvalidType (unexpected_of j) "a map")
  end.

End Response.

(** ** The response envelope *)

Module Envelope.
Import Serde.

(** Modelled from the spec: [crate::error::PrometheusError] and its kind
    enumeration are not under [src/].  The spec (sections 3, 4.4 and 7):
    an error envelope must carry the string fields [errorType] and
    [error]; the kind is one of bad_data, timeout, canceled, exec,
    bad_response, internal, unavailable, not_found, not_acceptable, and
    an unrecognised kind string is kept rather than rejected. *)
Inductive PrometheusErrorType :=
| BadData | Timeout | Canceled | Execution | BadResponse | Internal
| Unavailable | NotFound | NotAcceptable
| OtherKind (kind : string).

Definition error_type_of (s : string) : PrometheusErrorType :=
  if String.eqb s "bad_data" then BadData
  else if String.eqb s "timeout" then Timeout
  else if String.eqb s "canceled" then Canceled
  else if String.eqb s "exec" then Execution
  else if String.eqb s "bad_response" then BadResponse
  else if String.eqb s "internal" then Internal
  else if String.eqb s "unavailable" then Unavailable
  else if String.eqb s "not_found" then NotFound
  else if String.eqb s "not_acceptable" then NotAcceptable
  else OtherKind s.

(** Modelled from the spec: see [PrometheusErrorType]. *)
Record PrometheusError := { error_type : PrometheusErrorType; message : string }.

Definition de_error_type (j : json) : outcome PrometheusErrorType de_error :=
  s <- de_string j ;; Ok (error_type_of s).

(** Modelled from the spec: a derived decoder of the two fields
    [errorType] and [error]. *)
Definition PrometheusError_step (k : string) (v : json)
    (st : option PrometheusErrorType * option string) :=
  if String.eqb k "errorType" then
    Some (t <- set_slot "errorType" de_error_type v (fst st) ;; Ok (t, snd st))
  else if String.eqb k "error" then
    Some (m <- set_slot "error" de_string v (snd st) ;; Ok (fst st, m))
  else None.

Definition PrometheusError_seq
  : list (json -> option PrometheusErrorType * option string
          -> outcome (option PrometheusErrorType * option string) de_error) :=
  [ (fun v st => t <- de_error_type v ;; Ok (Some t, snd st));
    (fun v st => m <- de_string v ;; Ok (fst st, Some m)) ].

Definition PrometheusError_finish (st : option PrometheusErrorType * option string) :=
  t <- required "errorType" (fst st) ;;
  m <- required "error" (snd st) ;;
  Ok {| error_type := t; message := m |}.

Definition de_PrometheusError : json -> outcome PrometheusError de_error :=
  de_struct PrometheusError_step PrometheusError_seq (None, None)
            PrometheusError_finish "struct PrometheusError with 2 elements".

(** [#[serde(tag = "status")] pub(crate) enum ApiResponse<D> {
      #[serde(alias = "success")] Success { data: D },
      #[serde(alias = "error")] Error(crate::error::PrometheusError) }] *)
Inductive ApiResponse (D : Type) :=
| Success (data : D)
| Error (e : PrometheusError).
Arguments Success {D} data.
Arguments Error {D} e.

Inductive api_variant := VSuccess | VError.

(** A variant is matched by its Rust name or by its alias. *)
Definition api_variants : list (list string * api_variant) :=
  [ (["Success"; "success"], VSuccess); (["Error"; "error"], VError) ].

Section Envelope.
Context {D : Type}.
(** [D::deserialize] on the value of [data]. *)
Variable de_data : json -> outcome D de_error.
(** [missing_field("data")]: what [D::deserialize] makes of an absent
    field ([Err] for every type but [Option]). *)
Variable data_missing : outcome D de_error.

Definition Success_step (k : string) (v : json) (st : option D) :=
  if String.eqb k "data" then Some (set_slot "data" de_data v st) else None.

Definition Success_seq : list (json -> option D -> outcome (option D) de_error) :=
  [ fun v _ => d <- de_data v ;; Ok (Some d) ].

Definition Success_finish (st : option D) : outcome D de_error :=
  match st with
  | Some d => Ok d
  | None => data_missing
  end.

Definition de_ApiResponse (j : json) : outcome (ApiResponse D) de_error :=
  p <- tagged_content "status" (de_variant api_variants) j ;;
  match fst p with
  | VSuccess =>
      d <- de_struct Success_step Success_seq None Success_finish
             "struct variant ApiResponse::Success with 1 element" (snd p) ;;
      Ok (Success d)
  | VError => e <- de_PrometheusError (snd p) ;; Ok (Error e)
  end.
End Envelope.

(** [serde_json::from_str::<ApiResponse<PromqlResult>>]. *)
Definition de_query_response : json -> outcome (ApiResponse Response.PromqlResult) de_error :=
  de_ApiResponse Response.de_PromqlResult (Err (MissingField "data")).

End Envelope.

(** ** [parse_response] of [client.rs] *)

Module Client.
Import F64.

(** The result types [parse_response] builds (declared outside [src/]);
    their fields are those [parse_response] fills in. *)
Record Value := { v_timestamp : f64; v_value : string }.
Record VectorSample := { vs_labels : Serde.labels; vs_value : Value }.
Record MatrixSample := { ms_labels : Serde.labels; ms_values : list Value }.

Inductive Response :=
| RVector (v : list VectorSample)
| RMatrix (m : list MatrixSample).

(** The variants of [crate::error::Error] that [parse_response] returns. *)
Inductive Error :=
| ResponseError (kind message : string)
| UnknownResponseStatus (status : string)
| UnsupportedResponseDataType (data_type : string).

(** [serde_json] maps and [HashMap]s built from a JSON object keep the
    last value of a repeated key. *)
Definition lookup (kvs : list (string * json)) (k : string) : option json :=
  fold_left (fun acc kv => if String.eqb (fst kv) k then Some (snd kv) else acc)
            kvs None.

Fixpoint dedup (kvs : list (string * json)) : list (string * json) :=
  match kvs with
  | [] => []
  | (k, v) :: kvs' =>
      if existsb (fun kv => String.eqb (fst kv) k) kvs' then dedup kvs'
      else (k, v) :: dedup kvs'
  end.

(** [map[key]] on a [HashMap] or a [serde_json::Map]: panics on a
    missing key. *)
Definition index_map {E} (kvs : list (string * json)) (k : string) : outcome json E :=
  match lookup kvs k with
  | Some v => Ok v
  | None => Panic
  end.

(** [value[key]] and [value[i]] on a [serde_json::Value]: [Null] when
    there is nothing there. *)
Definition index_key (j : json) (k : string) : json :=
  match j with
  | JObj kvs => match lookup kvs k with Some v => v | None => JNull end
  | _ => JNull
  end.

Definition index_nat (j : json) (i : nat) : json :=
  match j with
  | JArr l => nth i l JNull
  | _ => JNull
  end.

Definition as_str (j : json) : option string :=
  match j with JStr s => Some s | _ => None end.
Definition as_object (j : json) : option (list (string * json)) :=
  match j with JObj kvs => Some (dedup kvs) | _ => None end.
Definition as_array (j : json) : option (list json) :=
  match j with JArr l => Some l | _ => None end.
Definition as_f64 (j : json) : option f64 :=
  match j with
  | JNum (NInt z) => Some (FFinite (inject_Z z))
  | JNum (NFloat q) => Some (FFinite q)
  | _ => None
  end.

Definition unwrap {A E} (o : option A) : outcome A E :=
  match o with
  | Some a => Ok a
  | None => Panic
  end.

(** [for metric in datum["metric"].as_object().unwrap() {
      labels.insert(metric.0.to_string(), metric.1.as_str().unwrap().to_string()) }] *)
Fixpoint collect_labels (kvs : list (string * json)) (m : Serde.labels)
  : outcome Serde.labels Error :=
  match kvs with
  | [] => Ok m
  | (k, v) :: kvs' =>
      s <- unwrap (as_str v) ;; collect_labels kvs' (Serde.label_insert k s m)
  end.

Definition labels_of (datum : json) : outcome Serde.labels Error :=
  metric <- unwrap (as_object (index_key datum "metric")) ;;
  collect_labels metric [].

(** [Value { timestamp: v[0].as_f64().unwrap(),
             value: v[1].as_str().unwrap().to_string() }] *)
Definition value_of (v : json) : outcome Value Error :=
  t <- unwrap (as_f64 (index_nat v 0)) ;;
  x <- unwrap (as_str (index_nat v 1)) ;;
  Ok {| v_timestamp := t; v_value := x |}.

(** The same on a [Vec<Value>], whose indexing panics out of bounds. *)
Definition value_of_vec (raw_value : list json) : outcome Value Error :=
  v0 <- unwrap (nth_error raw_value 0) ;;
  t <- unwrap (as_f64 v0) ;;
  v1 <- unwrap (nth_error raw_value 1) ;;
  x <- unwrap (as_str v1) ;;
  Ok {| v_timestamp := t; v_value := x |}.

Definition vector_sample (datum : json) : outcome VectorSample Error :=
  labels <- labels_of datum ;;
  raw_value <- unwrap (as_array (index_key datum "value")) ;;
  value <- value_of_vec raw_value ;;
  Ok {| vs_labels := labels; vs_value := value |}.

Definition matrix_sample (datum : json) : outcome MatrixSample Error :=
  labels <- labels_of datum ;;
  raw_values <- unwrap (as_array (index_key datum "values")) ;;
  values <- Serde.map_outcome value_of raw_values ;;
  Ok {| ms_labels := labels; ms_values := values |}.

(** [fn parse_response(response: HashMap<String, serde_json::Value>)
      -> Result<Response, Error>] *)
Definition parse_response (response : list (string * json)) : outcome Response Error :=
  st <- index_map response "status" ;;
  status <- unwrap (as_str st) ;;
  if String.eqb status "success" then
    d <- index_map response "data" ;;
    data_obj <- unwrap (as_object d) ;;
    rt <- index_map data_obj "resultType" ;;
    data_type <- unwrap (as_str rt) ;;
    r <- index_map data_obj "result" ;;
    data <- unwrap (as_array r) ;;
    if String.eqb data_type "vector" then
      result <- Serde.map_outcome vector_sample data ;; Ok (RVector result)
    else if String.eqb data_type "matrix" then
      result <- Serde.map_outcome matrix_sample data ;; Ok (RMatrix result)
    else Err (UnsupportedResponseDataType data_type)
  else if String.eqb status "error" then
    et <- index_map response "errorType" ;;
    kind <- unwrap (as_str et) ;;
    e <- index_map response "error" ;;
    msg <- unwrap (as_str e) ;;
    Err (ResponseError kind msg)
  else Err (UnknownResponseStatus status).

End Client.

(** ** The domain entity decoders of [response.rs] *)

Module Domain.
Import Serde Response.

(** Decoded values of the domain entities, one constructor per kind of
    field. *)
Inductive dyn :=
| DF64 (x : F64.f64)
| DStr (s : string)
| DInt (z : Z)
| DBool (b : bool)
| DLabels (m : labels)
| DDuration (ms : Z)
| DDate (d : BuildDate.primitive_date_time)
| DList (l : list dyn)
| DNone
| DSome (x : dyn)
| DRecord (fields : list dyn)
| DVariant (index : nat) (payload : dyn)
| DExternal (j : json).

Definition lift {A} (f : A -> dyn) (d : json -> outcome A de_error) (j : json)
  : outcome dyn de_error :=
  a <- d j ;; Ok (f a).

Definition d_string := lift DStr de_string.
Definition d_f64 := lift DF64 F64.de_f64_number.
Definition d_f64_str := lift DF64 F64.deserialize_f64.
Definition d_i64 := lift DInt de_i64.
Definition d_usize := lift DInt de_usize.
Definition d_bool := lift DBool de_bool.
Definition d_labels := lift DLabels de_labels.
Definition d_duration := lift DDuration PromDuration.deserialize_prometheus_duration.
Definition d_build_date := lift DDate BuildDate.deserialize_build_info_date.
Definition d_vec (d : json -> outcome dyn de_error) := lift DList (de_vec d).

(** A required field, with its aliases. *)
Definition fld (n : string) (aliases : list string) (d : json -> outcome dyn de_error)
  : field dyn :=
  {| fname := n; faliases := aliases; fdec := d; fmissing := None |}.

(** An [Option<T>] field. *)
Definition opt_fld (n : string) (aliases : list string)
    (d : json -> outcome dyn de_error) : field dyn :=
  {| fname := n; faliases := aliases;
     fdec := lift (fun o => match o with Some x => DSome x | None => DNone end)
                  (de_option d);
     fmissing := Some DNone |}.

Definition de_record (tbl : list (field dyn)) (name : string)
  : json -> outcome dyn de_error :=
  lift DRecord (de_table tbl name).

(** A fieldless enum with aliases: a string, or a map with the variant
    as its single key and [null] as its value. *)
Definition de_unit_enum (table : list (list string * nat)) (j : json)
  : outcome dyn de_error :=
  match j with
  | JStr _ => n <- de_variant table j ;; Ok (DVariant n (DRecord []))
  | JObj [(k, v)] =>
      n <- de_variant table (JStr k) ;;
      match v with
      | JNull => Ok (DVariant n (DRecord []))
      | _ => Err (InvalidType (unexpected_of v) "unit variant")
      end
  | JObj _ => Err (InvalidValue (UOther "map") "map with a single key")
  | _ => Err (InvalidType (unexpected_of j) "enum")
  end.

Definition MetricType_variants : list (list string * nat) :=
  [ (["Counter"; "counter"], 0); (["Gauge"; "gauge"], 1);
    (["Histogram"; "histogram"], 2); (["GaugeHistogram"; "gaugehistogram"], 3);
    (["Summary"; "summary"], 4); (["Info"; "info"], 5);
    (["Stateset"; "stateset"], 6); (["Unknown"; "unknown"], 7) ]%nat.

Definition WalReplayState_variants : list (list string * nat) :=
  [ (["Waiting"; "waiting"], 0); (["InProgress"; "in progress"], 1);
    (["Done"; "done"], 2) ]%nat.

Definition Rule_variants : list (list string * nat) :=
  [ (["Recording"; "recording"], 0); (["Alerting"; "alerting"], 1) ]%nat.

Section Entities.
(** Decoders of types defined outside [response.rs]: [url::Url],
    [time::serde::rfc3339], and the enums [TargetHealth], [RuleHealth]
    and [AlertState] of [crate::util]. *)
Variables de_url de_rfc3339 de_target_health de_rule_health de_alert_state
  : json -> outcome dyn de_error.

Definition ActiveTarget_fields : list (field dyn) :=
  [ fld "discovered_labels" ["discoveredLabels"] d_labels;
    fld "labels" [] d_labels;
    fld "scrape_pool" ["scrapePool"] d_string;
    fld "scrape_url" ["scrapeUrl"] de_url;
    fld "global_url" ["globalUrl"] de_url;
    fld "last_error" ["lastError"] d_string;
    fld "last_scrape" ["lastScrape"] de_rfc3339;
    fld "last_scrape_duration" ["lastScrapeDuration"] d_f64;
    fld "health" [] de_target_health;
    fld "scrape_interval" ["scrapeInterval"] d_duration;
    fld "scrape_timeout" ["scrapeTimeout"] d_duration ].
Definition de_ActiveTarget :=
  de_record ActiveTarget_fields "struct ActiveTarget with 11 elements".

Definition DroppedTarget_fields : list (field dyn) :=
  [ fld "discovered_labels" ["discoveredLabels"] d_labels ].
Definition de_DroppedTarget :=
  de_record DroppedTarget_fields "struct DroppedTarget with 1 element".

Definition Targets_fields : list (field dyn) :=
  [ fld "active" ["activeTargets"] (d_vec de_ActiveTarget);
    fld "dropped" ["droppedTargets"] (d_vec de_DroppedTarget) ].
Definition de_Targets := de_record Targets_fields "struct Targets with 2 elements".

Definition Alert_fields : list (field dyn) :=
  [ fld "active_at" ["activeAt"] de_rfc3339;
    fld "annotations" [] d_labels;
    fld "labels" [] d_labels;
    fld "state" [] de_alert_state;
    fld "value" [] d_f64_str ].
Definition de_Alert := de_record Alert_fields "struct Alert with 5 elements".

Definition Alerts_fields : list (field dyn) := [ fld "alerts" [] (d_vec de_Alert) ].
Definition de_Alerts := de_record Alerts_fields "struct Alerts with 1 element".

Definition AlertingRule_fields : list (field dyn) :=
  [ fld "alerts" [] (d_vec de_Alert);
    fld "annotations" [] d_labels;
    fld "duration" [] d_f64;
    fld "health" [] de_rule_health;
    fld "labels" [] d_labels;
    fld "name" [] d_string;
    fld "query" [] d_string;
    fld "evaluation_time" ["evaluationTime"] d_f64;
    fld "last_evaluation" ["lastEvaluation"] de_rfc3339;
    fld "keep_firing_for" ["keepFiringFor"] d_f64 ].
Definition de_AlertingRule :=
  de_record AlertingRule_fields "struct AlertingRule with 10 elements".

Definition RecordingRule_fields : list (field dyn) :=
  [ fld "health" [] de_rule_health;
    fld "name" [] d_string;
    fld "query" [] d_string;
    opt_fld "labels" [] d_labels;
    fld "evaluation_time" ["evaluationTime"] d_f64;
    fld "last_evaluation" ["lastEvaluation"] de_rfc3339 ].
Definition de_RecordingRule :=
  de_record RecordingRule_fields "struct RecordingRule with 6 elements".

(** [#[serde(tag = "type")] pub enum Rule { Recording(RecordingRule),
      Alerting(AlertingRule) }] *)
Definition de_Rule (j : json) : outcome dyn de_error :=
  p <- tagged_content "type" (de_variant Rule_variants) j ;;
  match fst p with
  | O => x <- de_RecordingRule (snd p) ;; Ok (DVariant 0 x)
  | _ => x <- de_AlertingRule (snd p) ;; Ok (DVariant 1 x)
  end.

Definition RuleGroup_fields : list (field dyn) :=
  [ fld "rules" [] (d_vec de_Rule);
    fld "file" [] d_string;
    fld "interval" [] d_f64;
    fld "name" [] d_string;
    fld "evaluation_time" ["evaluationTime"] d_f64;
    fld "last_evaluation" ["lastEvaluation"] de_rfc3339;
    fld "limit" [] d_usize ].
Definition de_RuleGroup :=
  de_record RuleGroup_fields "struct RuleGroup with 7 elements".

Definition RuleGroups_fields : list (field dyn) :=
  [ fld "groups" [] (d_vec de_RuleGroup) ].
Definition de_RuleGroups :=
  de_record RuleGroups_fields "struct RuleGroups with 1 element".

Definition Alertmanager_fields : list (field dyn) := [ fld "url" [] de_url ].
Definition de_Alertmanager :=
  de_record Alertmanager_fields "struct Alertmanager with 1 element".

Definition Alertmanagers_fields : list (field dyn) :=
  [ fld "active" ["activeAlertmanagers"] (d_vec de_Alertmanager);
    fld "dropped" ["droppedAlertmanagers"] (d_vec de_Alertmanager) ].
Definition de_Alertmanagers :=
  de_record Alertmanagers_fields "struct Alertmanagers with 2 elements".

Definition TargetMetadata_fields : list (field dyn) :=
  [ fld "target" [] d_labels;
    fld "metric_type" ["type"] (de_unit_enum MetricType_variants);
    opt_fld "metric" [] d_string;
    fld "help" [] d_string;
    fld "unit" [] d_string ].
Definition de_TargetMetadata :=
  de_record TargetMetadata_fields "struct TargetMetadata with 5 elements".

Definition MetricMetadata_fields : list (field dyn) :=
  [ fld "metric_type" ["type"] (de_unit_enum MetricType_variants);
    fld "help" [] d_string;
    fld "unit" [] d_string ].
Definition de_MetricMetadata :=
  de_record MetricMetadata_fields "struct MetricMetadata with 3 elements".

Definition BuildInformation_fields : list (field dyn) :=
  [ fld "version" [] d_string;
    fld "revision" [] d_string;
    fld "branch" [] d_string;
    fld "build_user" ["buildUser"] d_string;
    fld "build_date" ["buildDate"] d_build_date;
    fld "go_version" ["goVersion"] d_string ].
Definition de_BuildInformation :=
  de_record BuildInformation_fields "struct BuildInformation with 6 elements".

Definition RuntimeInformation_fields : list (field dyn) :=
  [ fld "start_time" ["startTime"] de_rfc3339;
    fld "cwd" ["CWD"] d_string;
    fld "reload_config_success" ["reloadConfigSuccess"] d_bool;
    fld "last_config_time" ["lastConfigTime"] de_rfc3339;
    fld "corruption_count" ["corruptionCount"] d_i64;
    fld "goroutine_count" ["goroutineCount"] d_usize;
    fld "go_max_procs" ["GOMAXPROCS"] d_usize;
    fld "go_gc" ["GOGC"] d_string;
    fld "go_debug" ["GODEBUG"] d_string;
    fld "storage_retention" ["storageRetention"] d_duration ].
Definition de_RuntimeInformation :=
  de_record RuntimeInformation_fields "struct RuntimeInformation with 10 elements".

Definition HeadStatistics_fields : list (field dyn) :=
  [ fld "num_series" ["numSeries"] d_usize;
    fld "chunk_count" ["chunkCount"] d_usize;
    fld "min_time" ["minTime"] d_i64;
    fld "max_time" ["maxTime"] d_i64 ].
Definition de_HeadStatistics :=
  de_record HeadStatistics_fields "struct HeadStatistics with 4 elements".

Definition TsdbItemCount_fields : list (field dyn) :=
  [ fld "name" [] d_string; fld "value" [] d_usize ].
Definition de_TsdbItemCount :=
  de_record TsdbItemCount_fields "struct TsdbItemCount with 2 elements".

Definition TsdbStatistics_fields : list (field dyn) :=
  [ fld "head_stats" ["headStats"] de_HeadStatistics;
    fld "series_count_by_metric_name" ["seriesCountByMetricName"]
      (d_vec de_TsdbItemCount);
    fld "label_value_count_by_label_name" ["labelValueCountByLabelName"]
      (d_vec de_TsdbItemCount);
    fld "memory_in_bytes_by_label_name" ["memoryInBytesByLabelName"]
      (d_vec de_TsdbItemCount);
    fld "series_count_by_label_value_pair" ["seriesCountByLabelValuePair"]
      (d_vec de_TsdbItemCount) ].
Definition de_TsdbStatistics :=
  de_record TsdbStatistics_fields "struct TsdbStatistics with 5 elements".

Definition WalReplayStatistics_fields : list (field dyn) :=
  [ fld "min" [] d_usize;
    fld "max" [] d_usize;
    fld "current" [] d_usize;
    opt_fld "state" [] (de_unit_enum WalReplayState_variants) ].
Definition de_WalReplayStatistics :=
  de_record WalReplayStatistics_fields "struct WalReplayStatistics with 4 elements".
End Entities.

End Domain.

(** ** The duration grammar of the spec *)

Module DurationSpec.
Import PromDuration.

(** The units of the grammar of the spec, with its fixed multipliers
    (y=365d, w=7d, d=24h, h=60m, m=60s, s=1000ms). *)
Inductive dunit := UY | UW | UD | UH | UM | US.

Definition unit_char (u : dunit) : ascii :=
  match u with
  | UY => "y" | UW => "w" | UD => "d" | UH => "h" | UM => "m" | US => "s"
  end%char.

Definition multiplier (u : dunit) : Z :=
  match u with
  | UY => 365 * 86400000
  | UW => 7 * 86400000
  | UD => 86400000
  | UH => 3600000
  | UM => 60000
  | US => 1000
  end%Z.

(** A string made of [<integer><unit>] pairs. *)
Definition render (ps : list (list ascii * dunit)) : list ascii :=
  flat_map (fun p => (fst p ++ [unit_char (snd p)])%list) ps.

Definition well_formed_pairs (ps : list (list ascii * dunit)) : Prop :=
  Forall (fun p => fst p <> [] /\ forallb is_digit (fst p) = true) ps.

Definition expected_ms (ps : list (list ascii * dunit)) : Z :=
  fold_right (fun p acc => (digits_value (fst p) * multiplier (snd p) + acc)%Z) 0%Z ps.

Definition is_unit_char (c : ascii) : bool :=
  ((c =? "y") || (c =? "w") || (c =? "d") || (c =? "h") || (c =? "m")
   || (c =? "s"))%char.

Definition is_foreign (c : ascii) : bool := negb (is_digit c || is_unit_char c).

(** The loop of [deserialize_prometheus_duration] evaluated in unbounded
    integers: the running totals its [i64] arithmetic would have to hold. *)
Fixpoint go_unbounded (it : list ascii) (total : Z) (raw_num : list ascii)
  : outcome Z de_error :=
  match it with
  | [] => Ok total
  | item :: rest =>
      if is_digit item then go_unbounded rest total (raw_num ++ [item])%list
      else
        match parse_i64 raw_num with
        | Err k => Err (CustomInt k)
        | Panic => Panic
        | Ok num =>
            if (item =? "y")%char then
              go_unbounded rest (total + num * 1000 * 60 * 60 * 24 * 365)%Z []
            else if (item =? "w")%char then
              go_unbounded rest (total + num * 1000 * 60 * 60 * 24 * 7)%Z []
            else if (item =? "d")%char then
              go_unbounded rest (total + num * 1000 * 60 * 60 * 24)%Z []
            else if (item =? "h")%char then
              go_unbounded rest (total + num * 1000 * 60 * 60)%Z []
            else if (item =? "m")%char then
              match rest with
              | c :: rest' =>
                  if (c =? "s")%char then
                    go_unbounded rest' (total + num * 1000 * 60 * 60)%Z []
                  else go_unbounded rest (total + num * 1000 * 60)%Z []
              | [] => go_unbounded rest (total + num * 1000 * 60)%Z []
              end
            else if (item =? "s")%char then
              go_unbounded rest (total + num * 1000)%Z []
            else Err (Custom "invalid time duration")
        end
  end.

(** A string overflows when some prefix of it, run in unbounded
    integers, reaches a total above [i64::MAX]. *)
Definition overflows (s : string) : Prop :=
  exists p rest t, list_ascii_of_string s = (p ++ rest)%list /\
    go_unbounded p 0 [] = Ok t /\ (I64.max < t)%Z.

(** The unit a non-digit [item] stands for: the factors of its
    multiplier and the input left after it ([m] followed by [s] takes
    both characters). *)
Definition unit_of (item : ascii) (rest : list ascii) : option (list Z * list ascii) :=
  if (item =? "y")%char then Some ([1000; 60; 60; 24; 365]%Z, rest)
  else if (item =? "w")%char then Some ([1000; 60; 60; 24; 7]%Z, rest)
  else if (item =? "d")%char then Some ([1000; 60; 60; 24]%Z, rest)
  else if (item =? "h")%char then Some ([1000; 60; 60]%Z, rest)
  else if (item =? "m")%char then
    match rest with
    | c :: rest' => if (c =? "s")%char then Some ([1000; 60; 60]%Z, rest')
                    else Some ([1000; 60]%Z, rest)
    | [] => Some ([1000; 60]%Z, rest)
    end
  else if (item =? "s")%char then Some ([1000]%Z, rest)
  else None.

(** The strings of a JSON document, at every depth (object keys
    excluded). *)
Fixpoint json_strings (j : json) : list string :=
  match j with
  | JStr s => [s]
  | JArr l =>
      (fix strings_of_list (l : list json) : list string :=
         match l with
         | [] => []
         | x :: l' => json_strings x ++ strings_of_list l'
         end) l
  | JObj kvs =>
      (fix strings_of_entries (kvs : list (string * json)) : list string :=
         match kvs with
         | [] => []
         | (_, v) :: kvs' => json_strings v ++ strings_of_entries kvs'
         end) kvs
  | _ => []
  end%list.

(** A document none of whose strings overflows as a duration. *)
Definition duration_safe (j : json) : Prop :=
  forall s, In s (json_strings j) -> ~ overflows s.

End DurationSpec.

(** ** The float literal grammar of [f64::from_str] *)

Module FloatSpec.
Import F64.

Definition digit_list (d : list ascii) : Prop :=
  Forall (fun c => PromDuration.is_digit c = true) d.

Definition sign_part (sg : list ascii) : Prop :=
  sg = [] \/ sg = ["+"%char] \/ sg = ["-"%char].

(** [Exp ::= ('e' | 'E') Sign? Digit+] *)
Inductive exp_part : list ascii -> Prop :=
| ExpNone : exp_part []
| ExpSome (c : ascii) (sg d : list ascii) :
    to_lower c = "e"%char -> sign_part sg -> d <> [] -> digit_list d ->
    exp_part (c :: sg ++ d).

(** [Number ::= (Digit+ | Digit* '.' Digit* with a digit) Exp?] *)
Inductive number_literal : list ascii -> Prop :=
| NumInt (d e : list ascii) :
    d <> [] -> digit_list d -> exp_part e -> number_literal (d ++ e)
| NumFrac (d1 d2 e : list ascii) :
    digit_list d1 -> digit_list d2 -> (d1 ++ d2)%list <> [] -> exp_part e ->
    number_literal (d1 ++ "."%char :: d2 ++ e).

(** A valid floating-point literal: an optional sign, then [inf],
    [infinity] or [nan] in any case, or a decimal number. *)
Definition float_literal (s : string) : Prop :=
  exists sg body,
    sign_part sg /\ list_ascii_of_string s = (sg ++ body)%list /\
    (In (string_of_list_ascii (map to_lower body)) ["inf"; "infinity"; "nan"]
     \/ number_literal body).

End FloatSpec.

(** ** The shape of a build date *)

Module BuildDateSpec.

Definition digits_of_length (n : nat) (d : list ascii) : Prop :=
  length d = n /\ FloatSpec.digit_list d.

(** [YYYYMMDD-HH:MM:SS], with an optional sign before the year. *)
Definition build_date_shape (l : list ascii) : Prop :=
  exists sg y mo d h mi se,
    FloatSpec.sign_part sg /\ digits_of_length 4 y /\ digits_of_length 2 mo /\
    digits_of_length 2 d /\ digits_of_length 2 h /\ digits_of_length 2 mi /\
    digits_of_length 2 se /\
    l = (sg ++ y ++ mo ++ d ++ "-"%char :: h ++ ":"%char :: mi ++ ":"%char :: se)%list.

End BuildDateSpec.

(** ** Documents, scans and predicates used to state the properties *)

Module Documents.

(** [{"resultType": "scalar", "result": [ts, sv]}] *)
Definition scalar_data (ts : number) (sv : string) : json :=
  JObj [("resultType", JStr "scalar"); ("result", JArr [JNum ts; JStr sv])].

(** The top-level entries of [{"status": "success", "data": ..}]. *)
Definition scalar_fields (ts : number) (sv : string) : list (string * json) :=
  [("status", JStr "success"); ("data", scalar_data ts sv)].

Definition scalar_doc (ts : number) (sv : string) : json :=
  JObj (scalar_fields ts sv).

(** The [f64] a JSON number denotes. *)
Definition number_f64 (n : number) : F64.f64 :=
  match n with
  | NInt z => F64.FFinite (inject_Z z)
  | NFloat q => F64.FFinite q
  end.

End Documents.

Module Scan.
Import Serde.

(** The part of [take_tag] that reads the tag: the value of the only
    entry keyed [tag], decoded. *)
Fixpoint tag_scan {V} (tag : string) (dec : json -> outcome V de_error)
    (kvs : list (string * json)) (found : option V) : outcome V de_error :=
  match kvs with
  | [] => match found with
          | Some t => Ok t
          | None => Err (MissingField tag)
          end
  | (k, v) :: kvs' =>
      if String.eqb k tag then
        match found with
        | Some _ => Err (DuplicateField tag)
        | None => t <- dec v ;; tag_scan tag dec kvs' (Some t)
        end
      else tag_scan tag dec kvs' found
  end.

Definition not_key (k : string) (kv : string * json) : bool :=
  negb (String.eqb (fst kv) k).

(** The [stats] field of [PromqlResult] on its own. *)
Definition stats_step (k : string) (v : json) (st : option (option Response.Stats))
  : option (outcome (option (option Response.Stats)) de_error) :=
  if String.eqb k "stats"
  then Some (set_slot "stats" (de_option Response.de_Stats) v st)
  else None.

(** A decoder of JSON objects leaves out the entries whose key is not
    one of [recognised]: inserting one anywhere in an object does not
    change the outcome. *)
Definition ignores_key {A} (recognised : list string)
    (dec : json -> outcome A de_error) : Prop :=
  forall pre post k v, is_key recognised k = false ->
    dec (JObj (pre ++ (k, v) :: post)) = dec (JObj (pre ++ post)).

(** The keys a field table recognises: every field's name and aliases. *)
Definition record_keys {A} (tbl : list (Response.field A)) : list string :=
  flat_map Response.field_names tbl.

End Scan.

Module ShellSpec.
Import Client.

Definition str_ok (j : json) : bool :=
  match as_str j with Some _ => true | None => false end.

Definition f64_ok (j : json) : bool :=
  match as_f64 j with Some _ => true | None => false end.

(** The [metric] entry of a series is an object of strings. *)
Definition labels_ok (datum : json) : bool :=
  match as_object (index_key datum "metric") with
  | Some kvs => forallb (fun kv => str_ok (snd kv)) kvs
  | None => false
  end.

(** An instant series: labels, and a [value] array whose first two
    elements are a number and a string. *)
Definition vector_datum_ok (datum : json) : bool :=
  labels_ok datum &&
  match as_array (index_key datum "value") with
  | Some (v0 :: v1 :: _) => f64_ok v0 && str_ok v1
  | _ => false
  end.

(** A range series: labels, and a [values] array of [[number, string]]
    pairs. *)
Definition matrix_datum_ok (datum : json) : bool :=
  labels_ok datum &&
  match as_array (index_key datum "values") with
  | Some vs => forallb (fun v => f64_ok (index_nat v 0) && str_ok (index_nat v 1)) vs
  | None => false
  end.

(** The documents [parse_response] handles without panicking: a string
    [status]; for ["success"], an object [data] with a string
    [resultType] and an array [result] whose series have the shape of
    their type; for ["error"], string [errorType] and [error]. *)
Definition shell_ok (response : list (string * json)) : bool :=
  match lookup response "status" with
  | Some (JStr status) =>
      if String.eqb status "success" then
        match lookup response "data" with
        | Some (JObj kvs) =>
            match lookup (dedup kvs) "resultType", lookup (dedup kvs) "result" with
            | Some (JStr t), Some (JArr data) =>
                if String.eqb t "vector" then forallb vector_datum_ok data
                else if String.eqb t "matrix" then forallb matrix_datum_ok data
                else true
            | _, _ => false
            end
        | _ => false
        end
      else if String.eqb status "error" then
        match lookup response "errorType", lookup response "error" with
        | Some (JStr _), Some (JStr _) => true
        | _, _ => false
        end
      else true
  | _ => false
  end.

End ShellSpec.

(** ** [Client::new], [Client::query] and [Client::query_range] of [client.rs] *)

Module Requests.
Import Client.

(** [Display] of an unsigned integer: its decimal digits, most
    significant first, with no leading zero. *)
Fixpoint digits_N (fuel : nat) (n : N) (acc : list ascii) : list ascii :=
  match fuel with
  | O => acc
  | S f =>
      let acc' := ascii_of_N (48 + n mod 10) :: acc in
      if (n <? 10)%N then acc' else digits_N f (n / 10) acc'
  end.

Definition string_of_N (n : N) : string :=
  string_of_list_ascii (digits_N (S (N.to_nat (N.size n))) n []).

(** [i64::to_string] and [u16] in [format!]: a minus sign before the
    digits of a negative value. *)
Definition string_of_Z (z : Z) : string :=
  if (z <? 0)%Z then String "-" (string_of_N (Z.abs_N z))
  else string_of_N (Z.to_N z).

(** [pub enum Scheme { Http, Https }] and [Scheme::as_str]. *)
Inductive Scheme := Http | Https.

Definition scheme_as_str (s : Scheme) : string :=
  match s with
  | Http => "http"
  | Https => "https"
  end.

(** [pub struct Client { client: reqwest::Client, base_url: String }]; the
    connection pool of [reqwest] is left out. *)
Record ClientT := { base_url : string }.

(** [impl Default for Client]. *)
Definition default : ClientT := {| base_url := "http://127.0.0.1:9090/api/v1" |}.

(** [Client::new(scheme, host, port)]: [format!("{}://{}:{}/api/v1", ..)]. *)
Definition new (scheme : Scheme) (host : string) (port : Z) : ClientT :=
  {| base_url := scheme_as_str scheme ++ "://" ++ host ++ ":" ++ string_of_Z port
                 ++ "/api/v1" |}.

Definition map_err {A E E'} (f : E -> E') (m : outcome A E) : outcome A E' :=
  match m with
  | Ok a => Ok a
  | Err e => Err (f e)
  | Panic => Panic
  end.

Section Queries.
(** The crate's error type. *)
Context {E : Type}.
(** [crate::util::validate_duration] (declared outside [src/]). *)
Variable validate_duration : string -> outcome unit E.
(** [self.client.get(&url).query(params).send().await], then
    [error_for_status()] and [json::<HashMap<String, Value>>()], each
    failure mapped to [Error::Reqwest]. *)
Variable send : string -> list (string * string) -> outcome (list (string * json)) E.
(** The variants [parse_response] returns, as values of [Error]. *)
Variable of_error : Client.Error -> E.

Definition add_timeout (params : list (string * string)) (timeout : option string)
  : outcome (list (string * string)) E :=
  match timeout with
  | Some t => _ <- validate_duration t ;; Ok (params ++ [("timeout", t)])%list
  | None => Ok params
  end.

(** [Client::query]. *)
Definition query (c : ClientT) (q : string) (time : option Z) (timeout : option string)
  : outcome Client.Response E :=
  let url := base_url c ++ "/query" in
  let params := ([("query", q)] ++
                 match time with Some t => [("time", string_of_Z t)] | None => [] end)%list in
  params <- add_timeout params timeout ;;
  mapped_response <- send url params ;;
  map_err of_error (parse_response mapped_response).

(** [Client::query_range]. *)
Definition query_range (c : ClientT) (q : string) (start end_ : Z) (step : string)
    (timeout : option string) : outcome Client.Response E :=
  let url := base_url c ++ "/query" in
  _ <- validate_duration step ;;
  let params := [("query", q); ("start", string_of_Z start); ("end", string_of_Z end_);
                 ("step", step)] in
  params <- add_timeout params timeout ;;
  mapped_response <- send url params ;;
  map_err of_error (parse_response mapped_response).
End Queries.

End Requests.

(** ** [MetricType] and its [Display] *)

Module MetricTypes.

Inductive MetricType :=
| Counter | Gauge | Histogram | GaugeHistogram | Summary | Info | Stateset | Unknown.

(** The variant index serde gives each variant: its declaration order. *)
Definition index (m : MetricType) : nat :=
  match m with
  | Counter => 0 | Gauge => 1 | Histogram => 2 | GaugeHistogram => 3
  | Summary => 4 | Info => 5 | Stateset => 6 | Unknown => 7
  end.

(** [impl fmt::Display for MetricType]. *)
Definition display (m : MetricType) : string :=
  match m with
  | Counter => "counter"
  | Gauge => "gauge"
  | Histogram => "histogram"
  | GaugeHistogram => "gaugehistogram"
  | Summary => "summary"
  | Info => "info"
  | Stateset => "stateset"
  | Unknown => "unknown"
  end.

End MetricTypes.

(** ** Reading a label map *)

Module LabelMaps.
Import Serde.

(** [HashMap::get] on a label map. *)
Definition get (m : labels) (k : string) : option string :=
  match find (fun kv => String.eqb (fst kv) k) m with
  | Some kv => Some (snd kv)
  | None => None
  end.

(** The step of the fold in [Client.lookup]: the last entry with the key
    wins. *)
Definition lookup_step (k : string) (acc : option json) (kv : string * json)
  : option json :=
  if String.eqb (fst kv) k then Some (snd kv) else acc.

End LabelMaps.

(** ** Properties of the duration parser *)

Module DurationFacts.
Import PromDuration DurationSpec.

Lemma digit_value_range (c : ascii) :
  is_digit c = true -> (0 <= digit_value c <= 9)%Z.
Proof.
  destruct c as [[] [] [] [] [] [] [] []]; vm_compute; intro H;
    try discriminate H; split; discriminate.
Qed.

Lemma digits_value_snoc (l : list ascii) (c : ascii) :
  digits_value (l ++ [c]) = (digits_value l * 10 + digit_value c)%Z.
Proof. unfold digits_value. now rewrite fold_left_app. Qed.

Lemma digits_value_nonneg (l : list ascii) :
  forallb is_digit l = true -> (0 <= digits_value l)%Z.
Proof.
  induction l as [|c l IH] using rev_ind; [reflexivity|].
  rewrite forallb_app, digits_value_snoc; simpl.
  intro H; apply andb_prop in H as [Hl Hc].
  rewrite andb_true_r in Hc.
  pose proof (IH Hl); pose proof (digit_value_range c Hc); lia.
Qed.

Lemma go_digits (ds r : list ascii) (total : Z) (raw : list ascii) :
  forallb is_digit ds = true ->
  go (ds ++ r) total raw = go r total (raw ++ ds).
Proof.
  revert raw; induction ds as [|c ds IH]; intros raw H.
  - now rewrite app_nil_r.
  - simpl in H; apply andb_prop in H as [Hc Hds].
    simpl; rewrite Hc, IH by exact Hds.
    now rewrite <- app_assoc.
Qed.

Lemma mul_chain_ok (acc : Z) (fs : list Z) :
  (0 <= acc)%Z -> Forall (fun f => 1 <= f)%Z fs ->
  (acc * fold_right Z.mul 1 fs <= I64.max)%Z ->
  mul_chain acc fs = Ok (acc * fold_right Z.mul 1 fs)%Z.
Proof.
  revert acc; induction fs as [|f fs IH]; intros acc Hacc Hfs Hmax.
  - simpl; now rewrite Z.mul_1_r.
  - inversion Hfs as [|? ? Hf Hrest]; subst.
    assert (Hp : (1 <= fold_right Z.mul 1 fs)%Z).
    { clear -Hrest; induction Hrest; simpl; [lia|nia]. }
    simpl in Hmax |- *.
    unfold I64.checked, I64.in_range, I64.min.
    replace ((- 2 ^ 63 <=? acc * f)%Z && (acc * f <=? I64.max)%Z) with true.
    2:{ symmetry; apply andb_true_intro; split; apply Z.leb_le;
        unfold I64.max in *; nia. }
    simpl; rewrite IH; [f_equal; ring| nia | exact Hrest | nia].
Qed.

Ltac factors_pos :=
  repeat (apply Forall_cons; [lia|]); apply Forall_nil.

Lemma checked_ok {E} (z : Z) :
  (0 <= z <= I64.max)%Z -> @I64.checked E z = Ok z.
Proof.
  intro H; unfold I64.checked, I64.in_range, I64.min.
  replace ((- 2 ^ 63 <=? z)%Z && (z <=? I64.max)%Z) with true; [reflexivity|].
  symmetry; apply andb_true_intro; split; apply Z.leb_le; unfold I64.max in *; lia.
Qed.

Lemma add_unit_ok (total num : Z) (fs : list Z) :
  (0 <= total)%Z -> (0 <= num)%Z -> Forall (fun f => 1 <= f)%Z fs ->
  (total + num * fold_right Z.mul 1 fs <= I64.max)%Z ->
  add_unit total num fs = Ok (total + num * fold_right Z.mul 1 fs)%Z.
Proof.
  intros Ht Hn Hfs Hmax.
  assert (Hp : (1 <= fold_right Z.mul 1 fs)%Z).
  { clear -Hfs; induction Hfs; simpl; [lia|nia]. }
  unfold add_unit; rewrite mul_chain_ok by (auto; nia); simpl.
  apply checked_ok; nia.
Qed.

Lemma parse_i64_ok (ds : list ascii) :
  ds <> [] -> (digits_value ds <= I64.max)%Z ->
  parse_i64 ds = Ok (digits_value ds).
Proof.
  intros Hne Hle; unfold parse_i64.
  destruct ds as [|c ds]; [congruence|].
  now rewrite (proj2 (Z.leb_le _ _) Hle).
Qed.

(** One [<integer><unit>] pair, followed by the end of the string or by
    the digits of the next pair. *)
Lemma go_pair (ds : list ascii) (u : dunit) (r : list ascii) (total : Z) :
  ds <> [] -> forallb is_digit ds = true ->
  match r with [] => True | c :: _ => is_digit c = true end ->
  (0 <= total)%Z ->
  (total + digits_value ds * multiplier u <= I64.max)%Z ->
  go (ds ++ unit_char u :: r) total []
  = go r (total + digits_value ds * multiplier u)%Z [].
Proof.
  intros Hne Hd Hr Ht Hmax.
  pose proof (digits_value_nonneg ds Hd) as Hv.
  rewrite go_digits by exact Hd; simpl.
  replace (is_digit (unit_char u)) with false by (destruct u; reflexivity).
  rewrite parse_i64_ok by (auto; destruct u; simpl in Hmax; lia).
  destruct u; simpl;
    [ rewrite add_unit_ok by (auto; factors_pos || (simpl; lia)) .. | |];
    try reflexivity.
  - destruct r as [|c r]; simpl;
      [ rewrite add_unit_ok by (auto; factors_pos || (simpl; lia)); reflexivity |].
    replace (c =? "s")%char with false
      by (destruct c as [[] [] [] [] [] [] [] []]; vm_compute in Hr |- *;
          congruence).
    rewrite add_unit_ok by (auto; factors_pos || (simpl; lia)); reflexivity.
  - rewrite add_unit_ok by (auto; factors_pos || (simpl; lia)); reflexivity.
Qed.

Lemma go_render (ps : list (list ascii * dunit)) (total : Z) :
  well_formed_pairs ps -> (0 <= total)%Z ->
  (total + expected_ms ps <= I64.max)%Z ->
  go (render ps) total [] = Ok (total + expected_ms ps)%Z.
Proof.
  revert total; induction ps as [|[ds u] ps IH]; intros total Hwf Ht Hmax.
  - simpl; now rewrite Z.add_0_r.
  - inversion Hwf as [|? ? [Hne Hd] Hwf']; subst; simpl in *.
    pose proof (digits_value_nonneg ds Hd) as Hv.
    assert (He : (0 <= expected_ms ps)%Z).
    { clear -Hwf'; induction Hwf' as [|[ds' u'] ps' [_ Hd'] _ IH']; simpl;
        [lia|]. pose proof (digits_value_nonneg ds' Hd').
      destruct u'; simpl; lia. }
    assert (Hm : (0 < multiplier u)%Z) by (destruct u; simpl; lia).
    rewrite <- app_assoc; simpl.
    rewrite go_pair; auto; try nia.
    + rewrite IH by (auto; nia); f_equal; ring.
    + destruct ps as [|[ds' u'] ps']; simpl; [exact I|].
      inversion Hwf' as [|? ? [Hne' Hd'] _]; subst; simpl in *.
      destruct ds' as [|c ds']; [congruence|].
      simpl in *; now apply andb_prop in Hd' as [Hc _].
Qed.

Lemma go_foreign_aux (v : Z) (n : nat) :
  forall it total raw, (length it <= n)%nat ->
  existsb is_foreign it = true -> go it total raw <> Ok v.
Proof.
  induction n as [|n IH]; intros it total raw Hlen Hf.
  { destruct it; [discriminate|simpl in Hlen; lia]. }
  destruct it as [|item rest]; [discriminate|].
  simpl in Hf, Hlen; simpl.
  assert (Hrest : is_foreign item = false -> existsb is_foreign rest = true)
    by (intro E; now rewrite E in Hf).
  assert (Hbind : forall m : outcome Z de_error, forall l,
             (length l <= n)%nat -> existsb is_foreign l = true ->
             bind m (fun t => go l t []) <> Ok v).
  { intros [t| |] l Hl Hl'; simpl; try discriminate.
    apply IH; auto. }
  destruct (is_digit item) eqn:Hd.
  - apply IH; [lia|].
    apply Hrest; unfold is_foreign; now rewrite Hd.
  - destruct (parse_i64 raw) as [num|k|]; try discriminate.
    unfold is_foreign, is_unit_char in Hrest; rewrite Hd in Hrest.
    destruct (item =? "y")%char; [apply Hbind; auto; lia|].
    destruct (item =? "w")%char; [apply Hbind; auto; lia|].
    destruct (item =? "d")%char; [apply Hbind; auto; lia|].
    destruct (item =? "h")%char; [apply Hbind; auto; lia|].
    destruct (item =? "m")%char eqn:Hm.
    + destruct rest as [|c rest']; [apply Hbind; auto; lia|].
      destruct (c =? "s")%char eqn:Hs; [|apply Hbind; auto; lia].
      apply Hbind; [simpl in Hlen; lia|].
      specialize (Hrest eq_refl); simpl in Hrest.
      apply Ascii.eqb_eq in Hs; subst c; exact Hrest.
    + destruct (item =? "s")%char; [apply Hbind; auto; lia|discriminate].
Qed.

(** A character outside digits and unit letters is never accepted. *)
Lemma go_foreign (it : list ascii) (total : Z) (raw : list ascii) (v : Z) :
  existsb is_foreign it = true -> go it total raw <> Ok v.
Proof. apply (go_foreign_aux v (length it)); lia. Qed.

End DurationFacts.

(** ** Properties of the float parser *)

Module FloatFacts.
Import F64 FloatSpec.

Lemma take_digits_spec (l d r : list ascii) :
  take_digits l = (d, r) ->
  l = (d ++ r)%list /\ digit_list d /\
  (forall c r', r = c :: r' -> is_digit c = false).
Proof.
  revert d r; induction l as [|c l IH]; intros d r H; simpl in H.
  - inversion H; subst; repeat split; [constructor | discriminate].
  - destruct (is_digit c) eqn:Hc.
    + destruct (take_digits l) as [d' r'] eqn:Ht; inversion H; subst.
      destruct (IH d' r eq_refl) as (-> & Hd & Hr).
      repeat split; auto; constructor; auto.
    + inversion H; subst; repeat split; [constructor|].
      intros c' r'' [= -> ->]; exact Hc.
Qed.

Lemma take_digits_app (d r : list ascii) :
  digit_list d -> (forall c r', r = c :: r' -> is_digit c = false) ->
  take_digits (d ++ r) = (d, r).
Proof.
  intros Hd Hr; induction Hd as [|c d Hc Hd IH]; simpl.
  - destruct r as [|c r']; [reflexivity|].
    simpl; now rewrite (Hr c r' eq_refl).
  - unfold is_digit; rewrite Hc, IH; reflexivity.
Qed.

Lemma split_sign_spec (l r : list ascii) (neg : bool) :
  split_sign l = (neg, r) -> exists sg, sign_part sg /\ l = (sg ++ r)%list.
Proof.
  unfold split_sign, sign_part; intro H; destruct l as [|c l].
  - inversion H; exists []; auto.
  - destruct (c =? "-")%char eqn:E1; [|destruct (c =? "+")%char eqn:E2].
    + apply Ascii.eqb_eq in E1; inversion H; subst; exists ["-"%char]; auto.
    + apply Ascii.eqb_eq in E2; inversion H; subst; exists ["+"%char]; auto.
    + inversion H; subst; exists []; auto.
Qed.

Lemma split_sign_none (l : list ascii) :
  (forall c r, l = c :: r -> c <> "-"%char /\ c <> "+"%char) ->
  split_sign l = (false, l).
Proof.
  intro H; destruct l as [|c r]; [reflexivity|]; simpl.
  destruct (H c r eq_refl) as [H1 H2].
  apply Ascii.eqb_neq in H1, H2; now rewrite H1, H2.
Qed.

Lemma to_lower_e (c : ascii) :
  to_lower c = "e"%char -> c = "e"%char \/ c = "E"%char.
Proof.
  destruct c as [[] [] [] [] [] [] [] []]; intro H; vm_compute in H;
    first [discriminate H | left; reflexivity | right; reflexivity].
Qed.

Lemma exp_part_head (e : list ascii) :
  exp_part e ->
  forall c r, e = c :: r -> is_digit c = false /\ c <> "."%char.
Proof.
  intros [|c' sg d Hc _ _ _] c r H; [discriminate|].
  inversion H; subst.
  destruct (to_lower_e c Hc) as [-> | ->]; split; (reflexivity || discriminate).
Qed.

Lemma parse_exp_iff (l : list ascii) :
  parse_exp l <> None <-> exp_part l.
Proof.
  split.
  - destruct l as [|c r]; intro H; [constructor|]; simpl in H.
    destruct (to_lower c =? "e")%char eqn:Ec; [|contradiction].
    apply Ascii.eqb_eq in Ec.
    destruct (split_sign r) as [neg r'] eqn:Es.
    destruct (take_digits r') as [d r''] eqn:Et.
    destruct d as [|x d]; [contradiction|]; destruct r'' as [|y r'']; [|contradiction].
    destruct (split_sign_spec _ _ _ Es) as (sg & Hsg & ->).
    destruct (take_digits_spec _ _ _ Et) as (-> & Hd & _).
    rewrite app_nil_r; constructor; auto; discriminate.
  - intros [|c sg d Hc Hsg Hne Hd]; simpl; [discriminate|].
    rewrite Hc; simpl.
    assert (Hs : split_sign (sg ++ d) = (negb (match sg with [] => true | _ => false end)
                                         && (match sg with ["-"%char] => true | _ => false end), d)).
    { destruct Hsg as [-> | [-> | ->]]; [|reflexivity|reflexivity].
      apply split_sign_none; intros c' r Hcr; destruct d as [|x d]; [contradiction|].
      inversion Hcr; subst; inversion Hd; subst.
      split; intros ->; discriminate. }
    assert (Ht : take_digits d = (d, [])).
    { rewrite <- (app_nil_r d) at 1; apply take_digits_app; [exact Hd | discriminate]. }
    rewrite Hs, Ht; destruct d; [contradiction|]; discriminate.
Qed.

Lemma parse_number_iff (l : list ascii) :
  parse_number l <> None <-> number_literal l.
Proof.
  unfold parse_number; split.
  - destruct (take_digits l) as [d1 r1] eqn:E1.
    destruct (take_digits_spec _ _ _ E1) as (-> & Hd1 & Hr1).
    destruct r1 as [|c r].
    + simpl; rewrite !app_nil_r; destruct d1 as [|x d1]; [contradiction|]; intros _.
      rewrite <- (app_nil_r (x :: d1)).
      apply NumInt; [discriminate | exact Hd1 | constructor].
    + destruct (c =? ".")%char eqn:Ec.
      * apply Ascii.eqb_eq in Ec; subst c.
        destruct (take_digits r) as [d2 r2] eqn:E2.
        destruct (take_digits_spec _ _ _ E2) as (-> & Hd2 & _).
        destruct (d1 ++ d2)%list eqn:Ed; [contradiction|].
        destruct (parse_exp r2) eqn:Ee; [|contradiction]; intros _.
        apply NumFrac; auto; [rewrite Ed; discriminate|].
        apply parse_exp_iff; now rewrite Ee.
      * rewrite app_nil_r; destruct d1 as [|x d1]; [contradiction|].
        destruct (parse_exp (c :: r)) eqn:Ee; [|contradiction]; intros _.
        apply NumInt; [discriminate | exact Hd1 |].
        apply parse_exp_iff; now rewrite Ee.
  - intros [d e Hne Hd He | d1 d2 e Hd1 Hd2 Hne He].
    + pose proof (exp_part_head e He) as Hh.
      rewrite take_digits_app; auto; [|intros c r' H; apply (Hh c r' H)].
      assert (Hm : match e with
                   | c :: r => if (c =? ".")%char then take_digits r else ([], e)
                   | [] => ([], [])
                   end = ([], e)).
      { destruct e as [|c r]; [reflexivity|].
        destruct (Hh c r eq_refl) as [_ Hc]; apply Ascii.eqb_neq in Hc; now rewrite Hc. }
      rewrite Hm, app_nil_r; destruct d; [contradiction|].
      apply parse_exp_iff in He; destruct (parse_exp e); [discriminate | contradiction].
    + rewrite take_digits_app; auto; [|intros c r' [= <- _]; reflexivity].
      simpl; rewrite take_digits_app; auto;
        [|intros c r' H; apply (exp_part_head e He c r' H)].
      destruct (d1 ++ d2)%list; [contradiction|].
      apply parse_exp_iff in He; destruct (parse_exp e); [discriminate | contradiction].
Qed.

Lemma number_literal_head (l : list ascii) :
  number_literal l ->
  forall c r, l = c :: r -> c <> "-"%char /\ c <> "+"%char.
Proof.
  intros [d e Hne Hd _ | d1 d2 e Hd1 _ _ _] c r H.
  - destruct d as [|x d]; [contradiction|]; inversion H; subst.
    inversion Hd; subst; split; intros ->; discriminate.
  - destruct d1 as [|x d1]; inversion H; subst; [split; discriminate|].
    inversion Hd1; subst; split; intros ->; discriminate.
Qed.

Lemma from_str_iff (s : string) :
  from_str s <> None <-> float_literal s.
Proof.
  unfold from_str, float_literal; split.
  - destruct (split_sign (list_ascii_of_string s)) as [neg body] eqn:Es.
    destruct (split_sign_spec _ _ _ Es) as (sg & Hsg & Hl).
    intro H; exists sg, body; repeat split; auto.
    unfold lower_is in H.
    destruct (String.eqb_spec (string_of_list_ascii (map to_lower body)) "inf");
      [left; simpl; auto|].
    destruct (String.eqb_spec (string_of_list_ascii (map to_lower body)) "infinity");
      [left; simpl; auto|].
    destruct (String.eqb_spec (string_of_list_ascii (map to_lower body)) "nan");
      [left; simpl; auto|].
    simpl in H; right; apply parse_number_iff.
    destruct (parse_number body); [discriminate | contradiction].
  - intros (sg & body & Hsg & Hl & Hb).
    assert (Hs : exists neg, split_sign (list_ascii_of_string s) = (neg, body)).
    { rewrite Hl; destruct Hsg as [-> | [-> | ->]]; [|eexists; reflexivity..].
      exists false; apply split_sign_none; intros c r Hcr.
      destruct Hb as [Hw | Hn]; [|exact (number_literal_head body Hn c r Hcr)].
      subst body; simpl in Hw.
      split; intros ->; simpl in Hw; decompose sum Hw; discriminate. }
    destruct Hs as [neg ->]; unfold lower_is.
    destruct Hb as [Hw | Hn].
    + simpl in Hw; destruct Hw as [Hw | [Hw | [Hw | []]]]; rewrite <- Hw;
        simpl; discriminate.
    + destruct (String.eqb _ "inf"), (String.eqb _ "infinity"), (String.eqb _ "nan");
        simpl; try discriminate.
      apply parse_number_iff in Hn; destruct (parse_number body); [discriminate | contradiction].
Qed.

End FloatFacts.

(** ** Properties of the build-date parser *)

Module BuildDateFacts.
Import BuildDate BuildDateSpec.

Lemma n_digits_spec (n : nat) (l : list ascii) (acc v : Z) (r : list ascii) :
  n_digits n l acc = Some (v, r) ->
  exists d, digits_of_length n d /\ l = (d ++ r)%list.
Proof.
  revert l acc; induction n as [|n IH]; intros l acc H; simpl in H.
  - inversion H; subst; exists []; repeat split; constructor.
  - destruct l as [|c l]; [discriminate|].
    destruct (PromDuration.is_digit c) eqn:Hc; [|discriminate].
    destruct (IH _ _ H) as (d & [Hlen Hd] & ->).
    exists (c :: d); repeat split; [simpl; now rewrite Hlen | constructor; auto].
Qed.

Lemma literal_spec (c : ascii) (l r : list ascii) :
  literal c l = Some r -> l = c :: r.
Proof.
  destruct l as [|c' l]; simpl; [discriminate|].
  destruct (c =? c')%char eqn:E; [|discriminate].
  apply Ascii.eqb_eq in E; intro H; inversion H; subst; reflexivity.
Qed.

Lemma obind_some {A B} (a : A) (k : A -> option B) : obind (Some a) k = k a.
Proof. reflexivity. Qed.

Ltac step_digits E H :=
  match type of H with
  | obind (n_digits ?n ?l ?a) _ = Some _ =>
      destruct (n_digits n l a) as [[? ?]|] eqn:E;
      [rewrite obind_some in H; cbv beta match in H | discriminate H]
  | obind (literal ?c ?l) _ = Some _ =>
      destruct (literal c l) eqn:E;
      [rewrite obind_some in H; cbv beta match in H | discriminate H]
  end.

Lemma parse_shape (s : string) (dt : primitive_date_time) :
  parse s = Some dt -> build_date_shape (list_ascii_of_string s).
Proof.
  unfold parse; destruct (F64.split_sign (list_ascii_of_string s)) as [neg l] eqn:Es.
  destruct (FloatFacts.split_sign_spec _ _ _ Es) as (sg & Hsg & ->).
  intro H; cbv beta match zeta in H.
  step_digits E1 H; step_digits E2 H; step_digits E3 H; step_digits E4 H;
  step_digits E5 H; step_digits E6 H; step_digits E7 H; step_digits E8 H;
  step_digits E9 H.
  destruct l8 as [|x r]; [|discriminate H].
  apply n_digits_spec in E1, E2, E3, E5, E7, E9.
  apply literal_spec in E4, E6, E8.
  destruct E1 as (y & Hy & ->), E2 as (mo & Hmo & ->), E3 as (d & Hd & ->),
           E5 as (h & Hh & ->), E7 as (mi & Hmi & ->), E9 as (se & Hse & ->).
  subst; rewrite app_nil_r in *.
  exists sg, y, mo, d, h, mi, se; repeat (split; [assumption|]); reflexivity.
Qed.

End BuildDateFacts.

(** ** Properties of the derived decoders: keys they do not know *)

Module KeyFacts.
Import Serde Response Scan.

Lemma is_key_app (l1 l2 : list string) (k : string) :
  is_key (l1 ++ l2) k = is_key l1 k || is_key l2 k.
Proof. unfold is_key; apply existsb_app. Qed.

Lemma is_key_true (l : list string) (k : string) :
  is_key l k = true -> In k l.
Proof.
  unfold is_key; intro H; apply existsb_exists in H as (n & Hn & E).
  apply String.eqb_eq in E; subst; exact Hn.
Qed.

Lemma is_key_false (l : list string) (k : string) :
  is_key l k = false -> ~ In k l.
Proof.
  unfold is_key; intros H Hin.
  assert (existsb (String.eqb k) l = true) as H'
    by (apply existsb_exists; exists k; split; [exact Hin | apply String.eqb_refl]).
  congruence.
Qed.

(** Settles [String.eqb k n] and [is_key names k] to [false] in the goal
    when [H : is_key recognised k = false] and [n], [names] are among the
    recognised keys. *)
Ltac unknown_key H :=
  repeat match goal with
  | |- context [String.eqb ?k ?n] =>
      let E := fresh "E" in
      destruct (String.eqb_spec k n) as [E|E];
      [exfalso; apply (is_key_false _ _ H); rewrite E; simpl; tauto|]
  | |- context [is_key ?names ?k] =>
      let E := fresh "E" in
      destruct (is_key names k) eqn:E;
      [exfalso; apply is_key_true in E; apply (is_key_false _ _ H);
       simpl in E |- *; tauto|]
  end.

Lemma visit_map_skip {St} (step : string -> json -> St -> option (outcome St de_error))
    (k : string) (v : json) :
  (forall s, step k v s = None) ->
  forall pre post s,
    visit_map step (pre ++ (k, v) :: post) s = visit_map step (pre ++ post) s.
Proof.
  intros H pre; induction pre as [|[k' v'] pre IH]; intros post s; simpl.
  - rewrite H; reflexivity.
  - destruct (step k' v' s) as [[a| |]|]; simpl; auto.
Qed.

Lemma de_struct_skip {St R} (step : string -> json -> St -> option (outcome St de_error))
    seqs init (finish : St -> outcome R de_error) expecting (recognised : list string) :
  (forall k v s, is_key recognised k = false -> step k v s = None) ->
  ignores_key recognised (de_struct step seqs init finish expecting).
Proof.
  intros H pre post k v Hk; unfold de_struct.
  rewrite (visit_map_skip step k v (fun s => H k v s Hk)); reflexivity.
Qed.

Lemma field_index_none {A} (tbl : list (field A)) (k : string) :
  is_key (flat_map field_names tbl) k = false -> field_index tbl k = None.
Proof.
  induction tbl as [|f tbl IH]; cbn [flat_map field_index]; [reflexivity|].
  rewrite is_key_app; intro H; apply orb_false_iff in H as [H1 H2].
  rewrite H1, (IH H2); reflexivity.
Qed.

Lemma de_table_ignores {A} (tbl : list (field A)) (expecting : string) :
  ignores_key (flat_map field_names tbl) (de_table tbl expecting).
Proof.
  apply de_struct_skip; intros k v s Hk; unfold table_step.
  rewrite (field_index_none tbl k Hk); reflexivity.
Qed.

Lemma ignores_bind {A B} (recognised : list string) (d : json -> outcome A de_error)
    (f : A -> outcome B de_error) :
  ignores_key recognised d -> ignores_key recognised (fun j => bind (d j) f).
Proof. intros H pre post k v Hk; simpl; rewrite (H pre post k v Hk); reflexivity. Qed.

Lemma take_tag_scan {V} (tag : string) (dec : json -> outcome V de_error) kvs found rest :
  take_tag tag dec kvs found rest
  = bind (tag_scan tag dec kvs found)
         (fun t => Ok (t, (rev rest ++ filter (not_key tag) kvs)%list)).
Proof.
  revert found rest; induction kvs as [|[k v] kvs IH]; intros found rest; simpl.
  - destruct found; simpl; [rewrite app_nil_r|]; reflexivity.
  - unfold not_key; simpl.
    destruct (String.eqb k tag); simpl.
    + destruct found; [reflexivity|]. destruct (dec v); simpl; [apply IH|..]; reflexivity.
    + rewrite IH; simpl; rewrite <- app_assoc; reflexivity.
Qed.

Lemma tag_scan_skip {V} (tag : string) (dec : json -> outcome V de_error) k v :
  String.eqb k tag = false ->
  forall pre post found,
    tag_scan tag dec (pre ++ (k, v) :: post) found = tag_scan tag dec (pre ++ post) found.
Proof.
  intros Hk pre; induction pre as [|[k' v'] pre IH]; intros post found; simpl.
  - rewrite Hk; reflexivity.
  - destruct (String.eqb k' tag); [|apply IH].
    destruct found; [reflexivity|]; destruct (dec v'); simpl; auto.
Qed.

Lemma filter_skip {T} (f : T -> bool) (x : T) (pre post : list T) :
  f x = true ->
  filter f (pre ++ x :: post) = (filter f pre ++ x :: filter f post)%list.
Proof. intro H; rewrite filter_app; simpl; rewrite H; reflexivity. Qed.

Lemma filter_drop {T} (f : T -> bool) (x : T) (pre post : list T) :
  f x = false -> filter f (pre ++ x :: post) = filter f (pre ++ post).
Proof. intro H; rewrite !filter_app; simpl; rewrite H; reflexivity. Qed.

(** An internally tagged enum: an entry that is neither the tag nor
    known to the variant's decoder is left out. *)
Lemma tagged_ignores {V A} (tag : string) (dec : json -> outcome V de_error)
    (recognised : list string) (body : V -> json -> outcome A de_error) :
  In tag recognised ->
  (forall t, ignores_key recognised (body t)) ->
  ignores_key recognised
    (fun j => p <- tagged_content tag dec j ;; body (fst p) (snd p)).
Proof.
  intros Ht Hb pre post k v Hk; simpl; rewrite !take_tag_scan.
  assert (Hne : String.eqb k tag = false).
  { destruct (String.eqb_spec k tag) as [->|]; [|reflexivity].
    exfalso; exact (is_key_false _ _ Hk Ht). }
  rewrite (tag_scan_skip tag dec k v Hne).
  destruct (tag_scan tag dec (pre ++ post) None) as [t| |]; simpl; auto.
  rewrite filter_skip by (unfold not_key; simpl; rewrite Hne; reflexivity).
  rewrite filter_app; apply Hb; exact Hk.
Qed.

(** [PromqlResult]'s map visitor: its own field [stats], then every other
    entry collected in order. *)
Lemma visit_PromqlResult kvs a acc :
  visit_map PromqlResult_step kvs (a, acc)
  = bind (visit_map stats_step kvs a)
         (fun a' => Ok (a', (acc ++ filter (not_key "stats") kvs)%list)).
Proof.
  revert a acc; induction kvs as [|[k v] kvs IH]; intros a acc.
  - simpl; rewrite app_nil_r; reflexivity.
  - assert (Hf : filter (not_key "stats") ((k, v) :: kvs)
                 = if String.eqb k "stats" then filter (not_key "stats") kvs
                   else (k, v) :: filter (not_key "stats") kvs).
    { simpl; unfold not_key; simpl; destruct (String.eqb k "stats"); reflexivity. }
    assert (Hp : PromqlResult_step k v (a, acc)
                 = if String.eqb k "stats"
                   then Some (x <- set_slot "stats" (de_option de_Stats) v a ;; Ok (x, acc))
                   else Some (Ok (a, (acc ++ [(k, v)])%list))) by reflexivity.
    assert (Hs : stats_step k v a
                 = if String.eqb k "stats"
                   then Some (set_slot "stats" (de_option de_Stats) v a) else None)
      by reflexivity.
    cbn [visit_map]; rewrite Hf, Hp, Hs.
    destruct (String.eqb k "stats").
    + destruct (set_slot "stats" (de_option de_Stats) v a); simpl; [apply IH|..]; reflexivity.
    + simpl; rewrite IH; destruct (visit_map stats_step kvs a); simpl; auto.
      rewrite <- app_assoc; reflexivity.
Qed.

End KeyFacts.

Module KeyDecoders.
Import Serde Response Scan KeyFacts.

Lemma ignores_mono {A} (r1 r2 : list string) (d : json -> outcome A de_error) :
  (forall k, In k r1 -> In k r2) -> ignores_key r1 d -> ignores_key r2 d.
Proof.
  intros Hsub H pre post k v Hk; apply H.
  destruct (is_key r1 k) eqn:E; [|reflexivity].
  exfalso; apply (is_key_false _ _ Hk), Hsub, is_key_true, E.
Qed.

Lemma Sample_ignores : ignores_key ["timestamp"; "value"] de_Sample.
Proof.
  apply de_struct_skip; intros k v s H; unfold Sample_step; unknown_key H; reflexivity.
Qed.

Lemma SamplesPerStep_ignores : ignores_key ["timestamp"; "value"] de_SamplesPerStep.
Proof.
  apply de_struct_skip; intros k v s H; unfold SamplesPerStep_step; unknown_key H;
    reflexivity.
Qed.

Lemma InstantVector_ignores :
  ignores_key ["metric"; "sample"; "value"] de_InstantVector.
Proof.
  apply de_struct_skip; intros k v s H; unfold InstantVector_step; unknown_key H;
    reflexivity.
Qed.

Lemma RangeVector_ignores :
  ignores_key ["metric"; "samples"; "values"] de_RangeVector.
Proof.
  apply de_struct_skip; intros k v s H; unfold RangeVector_step; unknown_key H;
    reflexivity.
Qed.

Lemma Stats_ignores : ignores_key ["timings"; "samples"] de_Stats.
Proof.
  apply de_struct_skip; intros k v s H; unfold Stats_step; unknown_key H; reflexivity.
Qed.

Lemma Samples_ignores :
  ignores_key ["total_queryable_samples_per_step"; "totalQueryableSamplesPerStep";
               "total_queryable_samples"; "totalQueryableSamples";
               "peak_samples"; "peakSamples"] de_Samples.
Proof.
  apply de_struct_skip; intros k v [[a b] c] H; unfold Samples_step; unknown_key H;
    reflexivity.
Qed.

Lemma Timings_ignores : ignores_key (record_keys Timings_fields) de_Timings.
Proof. apply de_table_ignores. Qed.

Lemma PrometheusError_ignores :
  ignores_key ["errorType"; "error"] Envelope.de_PrometheusError.
Proof.
  apply de_struct_skip; intros k v s H; unfold Envelope.PrometheusError_step;
    unknown_key H; reflexivity.
Qed.

Lemma PromqlResult_ignores :
  ignores_key ["stats"; "resultType"; "result"] de_PromqlResult.
Proof.
  intros pre post k v H; unfold de_PromqlResult.
  rewrite !visit_PromqlResult.
  assert (Hst : forall s, stats_step k v s = None).
  { intro s; unfold stats_step; unknown_key H; reflexivity. }
  rewrite (visit_map_skip stats_step k v Hst).
  destruct (visit_map stats_step (pre ++ post) None) as [a| |]; simpl; auto.
  assert (Hn : not_key "stats" (k, v) = true).
  { unfold not_key; simpl; unknown_key H; reflexivity. }
  rewrite (filter_skip _ _ _ _ Hn), filter_app; unfold PromqlResult_finish; simpl.
  rewrite filter_drop; [reflexivity|]; simpl; unknown_key H; reflexivity.
Qed.

Lemma ApiResponse_ignores {D} (de_data : json -> outcome D de_error)
    (data_missing : outcome D de_error) :
  ignores_key ["status"; "data"; "errorType"; "error"]
    (Envelope.de_ApiResponse de_data data_missing).
Proof.
  intros pre post k v H.
  refine (tagged_ignores "status" (de_variant Envelope.api_variants) _
            (fun t j => match t with
                        | Envelope.VSuccess =>
                            d <- de_struct (Envelope.Success_step de_data)
                                   (Envelope.Success_seq de_data) None
                                   (Envelope.Success_finish data_missing)
                                   "struct variant ApiResponse::Success with 1 element" j ;;
                            Ok (Envelope.Success d)
                        | Envelope.VError =>
                            e <- Envelope.de_PrometheusError j ;; Ok (Envelope.Error e)
                        end) _ _ pre post k v H); [simpl; tauto|].
  intros [|].
  - apply (ignores_bind _ _ (fun d => Ok (Envelope.Success d))).
    apply de_struct_skip; intros k' v' s H'; unfold Envelope.Success_step;
      unknown_key H'; reflexivity.
  - apply (ignores_bind _ _ (fun e => Ok (Envelope.Error e))).
    apply (ignores_mono ["errorType"; "error"]); [simpl; tauto|].
    exact PrometheusError_ignores.
Qed.

Lemma record_ignores (tbl : list (field Domain.dyn)) (name : string) :
  ignores_key (record_keys tbl) (Domain.de_record tbl name).
Proof.
  unfold Domain.de_record, Domain.lift.
  apply (ignores_bind _ _ (fun a => Ok (Domain.DRecord a))), de_table_ignores.
Qed.

End KeyDecoders.

(** ** Properties of the envelope decoder *)

Module EnvelopeFacts.
Import Serde Scan KeyFacts Envelope.

Lemma bind_ok {A B E} (m : outcome A E) (k : A -> outcome B E) (r : B) :
  bind m k = Ok r -> exists a, m = Ok a /\ k a = Ok r.
Proof. destruct m; simpl; [eauto|discriminate..]. Qed.

Lemma tag_scan_ok {V} (tag : string) (dec : json -> outcome V de_error) :
  forall kvs found t, tag_scan tag dec kvs found = Ok t ->
    (forall v, In (tag, v) kvs -> found = None /\ dec v = Ok t) /\
    (found = None -> exists v, In (tag, v) kvs) /\
    (forall t', found = Some t' -> t = t').
Proof.
  induction kvs as [|[k v] kvs IH]; intros found t H; simpl in H.
  - destruct found as [t'|]; [|discriminate].
    inversion H; subst; refine (conj _ (conj _ _)); [intros ? []|discriminate|congruence].
  - destruct (String.eqb_spec k tag) as [->|Hne].
    + destruct found as [t'|]; [discriminate|].
      destruct (dec v) as [t'| |] eqn:Ed; simpl in H; try discriminate.
      destruct (IH _ _ H) as (H1 & _ & H3).
      specialize (H3 t' eq_refl); subst t'.
      refine (conj _ (conj _ _)); [|intros _; exists v; left; reflexivity|discriminate].
      intros v' [Hv|Hv]; [inversion Hv; subst; auto|].
      destruct (H1 v' Hv); discriminate.
    + destruct (IH _ _ H) as (H1 & H2 & H3).
      refine (conj _ (conj _ H3)).
      * intros v' [Hv|Hv]; [inversion Hv; congruence|auto].
      * intro Hf; destruct (H2 Hf) as [v' Hv']; exists v'; right; exact Hv'.
Qed.

Lemma api_variant_ok (j : json) (t : api_variant) :
  de_variant api_variants j = Ok t ->
  exists s, j = JStr s /\
    match t with
    | VSuccess => In s ["Success"; "success"]
    | VError => In s ["Error"; "error"]
    end.
Proof.
  intro H; destruct j as [| | |s| |]; try discriminate H.
  exists s; split; [reflexivity|].
  unfold de_variant, api_variants in H; cbn [find_variant] in H.
  destruct (is_key ["Success"; "success"] s) eqn:E1;
    [inversion H; subst; exact (is_key_true _ _ E1)|].
  destruct (is_key ["Error"; "error"] s) eqn:E2;
    [inversion H; subst; exact (is_key_true _ _ E2) | discriminate H].
Qed.

(** The envelope, read as: the status, then the body of its variant on
    the entries other than [status]. *)
Lemma de_ApiResponse_obj {D} (de_data : json -> outcome D de_error) data_missing kvs r :
  de_ApiResponse de_data data_missing (JObj kvs) = Ok r ->
  exists t, tag_scan "status" (de_variant api_variants) kvs None = Ok t /\
    match t with
    | VSuccess =>
        exists d, r = Success d /\
          de_struct (Success_step de_data) (Success_seq de_data) None
            (Success_finish data_missing)
            "struct variant ApiResponse::Success with 1 element"
            (JObj (filter (not_key "status") kvs)) = Ok d
    | VError =>
        exists e, r = Error e /\
          de_PrometheusError (JObj (filter (not_key "status") kvs)) = Ok e
    end.
Proof.
  unfold de_ApiResponse, tagged_content; rewrite take_tag_scan.
  intro H; apply bind_ok in H as (p & Hp & H).
  apply bind_ok in Hp as (q & Hq & Hp).
  apply bind_ok in Hq as (t & Ht & Hq).
  inversion Hq; subst; inversion Hp; subst; clear Hp Hq.
  exists t; split; [exact Ht|]; simpl in H.
  destruct t; apply bind_ok in H as (x & Hx & H); inversion H; subst; eauto.
Qed.

Lemma visit_Success {D} (de_data : json -> outcome D de_error) :
  forall l s d, visit_map (Success_step de_data) l s = Ok (Some d) ->
    s = Some d \/ exists v, In ("data", v) l /\ de_data v = Ok d.
Proof.
  induction l as [|[k v] l IH]; intros s d H; simpl in H.
  - inversion H; auto.
  - unfold Success_step in H; destruct (String.eqb_spec k "data") as [->|Hne].
    + destruct s as [d'|]; simpl in H; [discriminate|].
      destruct (de_data v) as [d'| |] eqn:Ed; simpl in H; try discriminate.
      destruct (IH _ _ H) as [Hs|(v' & Hv' & Hd')].
      * inversion Hs; subst; right; exists v; split; [left|]; auto.
      * right; exists v'; split; [right|]; auto.
    + destruct (IH _ _ H) as [Hs|(v' & Hv' & Hd')]; [left; exact Hs|].
      right; exists v'; split; [right|]; auto.
Qed.

Lemma visit_PrometheusError :
  forall l a b a' b',
    visit_map PrometheusError_step l (a, b) = Ok (a', b') ->
    (forall t, a' = Some t -> a = Some t \/
       exists v, In ("errorType", v) l /\ de_error_type v = Ok t) /\
    (forall m, b' = Some m -> b = Some m \/
       exists v, In ("error", v) l /\ de_string v = Ok m).
Proof.
  induction l as [|[k v] l IH]; intros a b a' b' H; simpl in H.
  - inversion H; subst; split; auto.
  - unfold PrometheusError_step in H; simpl in H.
    destruct (String.eqb_spec k "errorType") as [->|Hne1].
    + destruct a as [t0|]; simpl in H; [discriminate|].
      destruct (de_error_type v) as [t0| |] eqn:Ed; simpl in H; try discriminate.
      destruct (IH _ _ _ _ H) as [H1 H2]; split.
      * intros t Ht; destruct (H1 t Ht) as [Hs|(v' & Hv' & Hd')].
        -- inversion Hs; subst; right; exists v; split; [left|]; auto.
        -- right; exists v'; split; [right|]; auto.
      * intros m Hm; destruct (H2 m Hm) as [Hs|(v' & Hv' & Hd')]; [left; exact Hs|].
        right; exists v'; split; [right|]; auto.
    + destruct (String.eqb_spec k "error") as [->|Hne2].
      * destruct b as [m0|]; simpl in H; [discriminate|].
        destruct (de_string v) as [m0| |] eqn:Ed; simpl in H; try discriminate.
        destruct (IH _ _ _ _ H) as [H1 H2]; split.
        -- intros t Ht; destruct (H1 t Ht) as [Hs|(v' & Hv' & Hd')]; [left; exact Hs|].
           right; exists v'; split; [right|]; auto.
        -- intros m Hm; destruct (H2 m Hm) as [Hs|(v' & Hv' & Hd')].
           ++ inversion Hs; subst; right; exists v; split; [left|]; auto.
           ++ right; exists v'; split; [right|]; auto.
      * destruct (IH _ _ _ _ H) as [H1 H2]; split.
        -- intros t Ht; destruct (H1 t Ht) as [Hs|(v' & Hv' & Hd')]; [left; exact Hs|].
           right; exists v'; split; [right|]; auto.
        -- intros m Hm; destruct (H2 m Hm) as [Hs|(v' & Hv' & Hd')]; [left; exact Hs|].
           right; exists v'; split; [right|]; auto.
Qed.

Lemma in_filter_not_key (k : string) (kv : string * json) (l : list (string * json)) :
  In kv (filter (not_key k) l) -> In kv l.
Proof. intro H; apply filter_In in H; tauto. Qed.

Lemma de_string_ok (j : json) (s : string) : de_string j = Ok s -> j = JStr s.
Proof. destruct j; simpl; intro H; try discriminate; inversion H; reflexivity. Qed.

Lemma de_error_type_ok (j : json) t : de_error_type j = Ok t -> exists s, j = JStr s.
Proof. destruct j; simpl; intro H; try discriminate; eexists; reflexivity. Qed.

End EnvelopeFacts.

(** ** The typed decoders never panic *)

Module NoPanic.
Import Serde Response Envelope.

Lemma bind_np {A B E} (m : outcome A E) (k : A -> outcome B E) :
  m <> Panic -> (forall a, k a <> Panic) -> bind m k <> Panic.
Proof. destruct m; simpl; auto; discriminate. Qed.

Lemma Ok_np {A E} (a : A) : @Ok A E a <> Panic. Proof. discriminate. Qed.
Lemma Err_np {A E} (e : E) : @Err A E e <> Panic. Proof. discriminate. Qed.

Create HintDb np.
#[export] Hint Resolve Ok_np Err_np : np.

(** Splits a goal [m <> Panic] along the binds and branches of [m]. *)
Ltac np :=
  repeat match goal with
  | |- bind _ _ <> Panic => apply bind_np; [|intro]
  | |- Ok _ <> Panic => apply Ok_np
  | |- Err _ <> Panic => apply Err_np
  | |- (match ?x with _ => _ end) <> Panic => destruct x
  end; auto with np.

Lemma map_outcome_np {A B E} (f : A -> outcome B E) (l : list A) :
  (forall x, f x <> Panic) -> map_outcome f l <> Panic.
Proof. intro H; induction l; simpl; np. Qed.

Lemma visit_map_np {St} (step : string -> json -> St -> option (outcome St de_error)) :
  (forall k v s r, step k v s = Some r -> r <> Panic) ->
  forall kvs s, visit_map step kvs s <> Panic.
Proof.
  intros H kvs; induction kvs as [|[k v] kvs IH]; intro s; simpl; [np|].
  destruct (step k v s) eqn:E; [apply bind_np; [exact (H _ _ _ _ E)|auto]|auto].
Qed.

Lemma visit_seq_np {St} (steps : list (json -> St -> outcome St de_error)) expecting :
  Forall (fun st => forall x s, st x s <> Panic) steps ->
  forall i l s, visit_seq expecting i steps l s <> Panic.
Proof.
  intro H; induction H as [|st steps Hst H IH]; intros i l s; destruct l; simpl; np.
Qed.

Lemma de_struct_np {St R} (step : string -> json -> St -> option (outcome St de_error))
    seqs init (finish : St -> outcome R de_error) expecting :
  (forall k v s r, step k v s = Some r -> r <> Panic) ->
  Forall (fun st => forall x s, st x s <> Panic) seqs ->
  (forall s, finish s <> Panic) ->
  forall j, de_struct step seqs init finish expecting j <> Panic.
Proof.
  intros H1 H2 H3 j; destruct j; simpl; np;
    [apply visit_seq_np | apply visit_map_np]; auto.
Qed.

Lemma set_slot_np {A} n (d : json -> outcome A de_error) v s :
  (forall j, d j <> Panic) -> set_slot n d v s <> Panic.
Proof. intro H; destruct s; simpl; np. Qed.

Lemma de_option_np {A} (d : json -> outcome A de_error) j :
  (forall j, d j <> Panic) -> de_option d j <> Panic.
Proof. intro H; destruct j; simpl; np. Qed.

Lemma de_vec_np {A} (d : json -> outcome A de_error) j :
  (forall j, d j <> Panic) -> de_vec d j <> Panic.
Proof. intro H; destruct j; simpl; np; apply map_outcome_np; auto. Qed.

Lemma de_string_np j : de_string j <> Panic.
Proof. destruct j; simpl; np. Qed.

Lemma de_labels_np j : de_labels j <> Panic.
Proof.
  destruct j as [| | | | |kvs]; simpl; np.
  generalize (@nil (string * string)); induction kvs as [|[k v] kvs IH]; intro m; simpl;
    np; apply de_string_np.
Qed.

Lemma de_int_np lo hi what j : de_int lo hi what j <> Panic.
Proof. destruct j as [| |[z|q]| | |]; simpl; np. Qed.

Lemma de_f64_number_np j : F64.de_f64_number j <> Panic.
Proof. destruct j as [| |[z|q]| | |]; simpl; np. Qed.

Lemma deserialize_f64_np j : F64.deserialize_f64 j <> Panic.
Proof. unfold F64.deserialize_f64; np; apply de_string_np. Qed.

Lemma de_variant_np {V} (table : list (list string * V)) j : de_variant table j <> Panic.
Proof. destruct j; simpl; np. Qed.

Lemma de_bool_np j : de_bool j <> Panic.
Proof. destruct j; simpl; np. Qed.

#[export] Hint Resolve set_slot_np de_option_np de_vec_np de_string_np de_labels_np
  de_int_np de_f64_number_np deserialize_f64_np de_variant_np : np.

Lemma de_i64_np j : de_i64 j <> Panic. Proof. apply de_int_np. Qed.
Lemma de_usize_np j : de_usize j <> Panic. Proof. apply de_int_np. Qed.
#[export] Hint Resolve de_bool_np de_i64_np de_usize_np : np.

Lemma required_np {A} n (o : option A) : required n o <> Panic.
Proof. destruct o; simpl; np. Qed.
#[export] Hint Resolve required_np : np.

Ltac destr_pairs :=
  repeat match goal with
         | p : ?T |- _ =>
             match eval hnf in T with (_ * _)%type => destruct p end
         end.

(** For a [de_struct] whose step, sequence and finish functions are
    unfolded in the goal. *)
Ltac struct_np :=
  apply de_struct_np;
  [ let Hs := fresh "Hs" in
    intros ? ? ? ? Hs; destr_pairs; cbv beta iota zeta in Hs;
    repeat match type of Hs with
           | context [if ?b then _ else _] => destruct b
           end;
    try discriminate Hs; injection Hs as <-; np
  | repeat constructor; intros; destr_pairs; cbv beta iota zeta; np
  | intros; destr_pairs; cbv beta iota zeta; np ].

Lemma de_Sample_np j : de_Sample j <> Panic.
Proof. unfold de_Sample, Sample_step, Sample_seq, Sample_finish; struct_np. Qed.
#[export] Hint Resolve de_Sample_np : np.

Lemma de_InstantVector_np j : de_InstantVector j <> Panic.
Proof. unfold de_InstantVector, InstantVector_step, InstantVector_seq, InstantVector_finish; struct_np. Qed.

Lemma de_RangeVector_np j : de_RangeVector j <> Panic.
Proof. unfold de_RangeVector, RangeVector_step, RangeVector_seq, RangeVector_finish; struct_np. Qed.

Lemma de_SamplesPerStep_np j : de_SamplesPerStep j <> Panic.
Proof. unfold de_SamplesPerStep, SamplesPerStep_step, SamplesPerStep_seq, SamplesPerStep_finish; struct_np. Qed.
#[export] Hint Resolve de_InstantVector_np de_RangeVector_np de_SamplesPerStep_np : np.

Lemma de_Samples_np j : de_Samples j <> Panic.
Proof. unfold de_Samples, Samples_step, Samples_seq, Samples_finish; struct_np. Qed.

Lemma de_table_np {A} (tbl : list (field A)) expecting j :
  Forall (fun f => forall j, fdec f j <> Panic) tbl ->
  de_table tbl expecting j <> Panic.
Proof.
  intro Htbl; unfold de_table; apply de_struct_np.
  - intros k v s r Hs; unfold table_step in Hs.
    destruct (field_index tbl k) as [i|]; [|discriminate].
    destruct (nth_error tbl i) as [f|] eqn:Ef; inversion Hs; subst; clear Hs.
    apply bind_np; [|intro; np]; apply set_slot_np.
    apply nth_error_In in Ef; rewrite Forall_forall in Htbl; exact (Htbl f Ef).
  - generalize 0%nat; induction Htbl as [|f tbl Hf Htbl IH]; intro i; simpl;
      constructor; auto; intros x s; np.
  - clear j; induction Htbl as [|f tbl Hf Htbl IH]; intro s; destruct s; simpl; np.
Qed.

Lemma de_Timings_np j : de_Timings j <> Panic.
Proof.
  apply de_table_np; repeat constructor; intros; simpl; apply de_f64_number_np.
Qed.
#[export] Hint Resolve de_Samples_np de_Timings_np : np.

Lemma de_Stats_np j : de_Stats j <> Panic.
Proof. unfold de_Stats, Stats_step, Stats_seq, Stats_finish; struct_np. Qed.
#[export] Hint Resolve de_Stats_np : np.

Lemma de_data_variant_np j : de_data_variant j <> Panic.
Proof.
  unfold de_data_variant; np; apply de_variant_np.
Qed.

Lemma de_Data_content_np v j : de_Data_content v j <> Panic.
Proof. destruct v; simpl; np. Qed.

Lemma remaining_keys_np d kvs : remaining_keys d kvs <> Panic.
Proof. unfold remaining_keys; np. Qed.
#[export] Hint Resolve de_data_variant_np de_Data_content_np remaining_keys_np : np.

Lemma de_Data_map_np kvs : de_Data_map kvs <> Panic.
Proof. unfold de_Data_map; np. Qed.
#[export] Hint Resolve de_Data_map_np : np.

Lemma de_PromqlResult_np j : de_PromqlResult j <> Panic.
Proof.
  destruct j; simpl; np.
  - apply visit_map_np; intros k v s r Hs; unfold PromqlResult_step in Hs.
    destruct (String.eqb k "stats"); inversion Hs; subst; np.
  - unfold PromqlResult_finish; np.
Qed.

Lemma de_error_type_np j : de_error_type j <> Panic.
Proof. unfold de_error_type; np. Qed.
#[export] Hint Resolve de_error_type_np : np.

Lemma de_PrometheusError_np j : de_PrometheusError j <> Panic.
Proof.
  unfold de_PrometheusError, PrometheusError_step, PrometheusError_seq,
    PrometheusError_finish; struct_np.
Qed.

Lemma tagged_content_np {V} tag (dec : json -> outcome V de_error) j :
  (forall j, dec j <> Panic) -> tagged_content tag dec j <> Panic.
Proof.
  intro H; destruct j as [| | | |l|kvs]; simpl; np.
  generalize (@None V) (@nil (string * json)).
  induction kvs as [|[k v] kvs IH]; intros found rest; simpl; np.
Qed.

Lemma de_ApiResponse_np {D} (de_data : json -> outcome D de_error) data_missing j :
  (forall j, de_data j <> Panic) -> data_missing <> Panic ->
  de_ApiResponse de_data data_missing j <> Panic.
Proof.
  intros H1 H2; unfold de_ApiResponse; np.
  - apply tagged_content_np; auto with np.
  - unfold Success_step, Success_seq, Success_finish; struct_np.
  - apply de_PrometheusError_np.
Qed.

End NoPanic.

Module DurationPanic.
Import PromDuration DurationSpec.

Lemma go_unit (item : ascii) (r : list ascii) (total : Z) (raw : list ascii) :
  is_digit item = false ->
  go (item :: r) total raw =
  match parse_i64 raw with
  | Err k => Err (CustomInt k)
  | Panic => Panic
  | Ok num => match unit_of item r with
              | Some (fs, r') => t <- add_unit total num fs ;; go r' t []
              | None => Err (Custom "invalid time duration")
              end
  end.
Proof.
  intro Hd; cbn [go]; rewrite Hd.
  destruct (parse_i64 raw); [|reflexivity|reflexivity].
  unfold unit_of.
  destruct (item =? "y")%char; [reflexivity|].
  destruct (item =? "w")%char; [reflexivity|].
  destruct (item =? "d")%char; [reflexivity|].
  destruct (item =? "h")%char; [reflexivity|].
  destruct (item =? "m")%char; [destruct r as [|c r]; [reflexivity|destruct (c =? "s")%char; reflexivity]|].
  destruct (item =? "s")%char; reflexivity.
Qed.

Lemma go_unbounded_unit (item : ascii) (r : list ascii) (total : Z) (raw : list ascii) :
  is_digit item = false ->
  go_unbounded (item :: r) total raw =
  match parse_i64 raw with
  | Err k => Err (CustomInt k)
  | Panic => Panic
  | Ok num => match unit_of item r with
              | Some (fs, r') => go_unbounded r' (total + fold_left Z.mul fs num)%Z []
              | None => Err (Custom "invalid time duration")
              end
  end.
Proof.
  intro Hd; cbn [go_unbounded]; rewrite Hd.
  destruct (parse_i64 raw); [|reflexivity|reflexivity].
  unfold unit_of.
  destruct (item =? "y")%char; [reflexivity|].
  destruct (item =? "w")%char; [reflexivity|].
  destruct (item =? "d")%char; [reflexivity|].
  destruct (item =? "h")%char; [reflexivity|].
  destruct (item =? "m")%char; [destruct r as [|c r]; [reflexivity|destruct (c =? "s")%char; reflexivity]|].
  destruct (item =? "s")%char; reflexivity.
Qed.

Lemma fold_mul_ge (fs : list Z) (a : Z) :
  (0 <= a)%Z -> Forall (fun f => 1 <= f)%Z fs -> (a <= fold_left Z.mul fs a)%Z.
Proof.
  revert a; induction fs as [|f fs IH]; intros a Ha Hf; simpl; [lia|].
  inversion Hf as [|? ? Hf0 Hfs]; subst.
  specialize (IH (a * f)%Z ltac:(nia) Hfs). nia.
Qed.

Lemma mul_chain_eq (fs : list Z) (acc : Z) :
  (0 <= acc <= I64.max)%Z -> Forall (fun f => 1 <= f)%Z fs ->
  mul_chain acc fs =
  if (fold_left Z.mul fs acc <=? I64.max)%Z then Ok (fold_left Z.mul fs acc) else Panic.
Proof.
  revert acc; induction fs as [|f fs IH]; intros acc Ha Hf; simpl.
  - replace (acc <=? I64.max)%Z with true by (symmetry; apply Z.leb_le; lia). reflexivity.
  - inversion Hf as [|? ? Hf0 Hfs]; subst.
    unfold I64.checked, I64.in_range.
    destruct ((I64.min <=? acc * f)%Z && (acc * f <=? I64.max)%Z) eqn:E.
    + apply andb_true_iff in E as [_ E]; apply Z.leb_le in E.
      simpl. apply IH; [nia|exact Hfs].
    + simpl. pose proof (fold_mul_ge fs (acc * f) ltac:(nia) Hfs).
      destruct (fold_left Z.mul fs (acc * f) <=? I64.max)%Z eqn:E2; [|reflexivity].
      unfold I64.min, I64.max in *.
      apply andb_false_iff in E as [E|E]; apply Z.leb_gt in E; apply Z.leb_le in E2; nia.
Qed.

Lemma add_unit_eq (total num : Z) (fs : list Z) :
  (0 <= total <= I64.max)%Z -> (0 <= num <= I64.max)%Z -> Forall (fun f => 1 <= f)%Z fs ->
  add_unit total num fs =
  if (total + fold_left Z.mul fs num <=? I64.max)%Z
  then Ok (total + fold_left Z.mul fs num)%Z else Panic.
Proof.
  intros Ht Hn Hf; unfold add_unit; rewrite mul_chain_eq by assumption.
  pose proof (fold_mul_ge fs num ltac:(lia) Hf).
  destruct (fold_left Z.mul fs num <=? I64.max)%Z eqn:E1; simpl.
  - unfold I64.checked, I64.in_range.
    destruct (total + fold_left Z.mul fs num <=? I64.max)%Z eqn:E2;
      rewrite andb_comm; simpl; [|reflexivity].
    replace (I64.min <=? total + fold_left Z.mul fs num)%Z with true
      by (symmetry; apply Z.leb_le; unfold I64.min; lia). reflexivity.
  - destruct (total + fold_left Z.mul fs num <=? I64.max)%Z eqn:E2; [|reflexivity].
    apply Z.leb_gt in E1; apply Z.leb_le in E2; lia.
Qed.

Lemma parse_i64_cases (raw : list ascii) :
  forallb is_digit raw = true ->
  parse_i64 raw <> Panic /\ forall num, parse_i64 raw = Ok num -> (0 <= num <= I64.max)%Z.
Proof.
  intro Hd; unfold parse_i64; destruct raw as [|c raw]; [split; [discriminate|intros ? H; discriminate H]|].
  pose proof (DurationFacts.digits_value_nonneg _ Hd) as Hnn.
  destruct (digits_value (c :: raw) <=? I64.max)%Z eqn:E;
    (split; [discriminate|intros num H; inversion H; subst]); apply Z.leb_le in E; lia.
Qed.

Lemma unit_of_cases (item : ascii) (r : list ascii) fs r' :
  unit_of item r = Some (fs, r') ->
  Forall (fun f => 1 <= f)%Z fs /\
  exists q, r = (q ++ r')%list /\
    forall p' rest, r' = (p' ++ rest)%list -> unit_of item (q ++ p') = Some (fs, p').
Proof.
  unfold unit_of.
  destruct (item =? "y")%char; [intro H; inversion H; subst; split; [repeat constructor; lia|exists []; split; [reflexivity|reflexivity]]|].
  destruct (item =? "w")%char; [intro H; inversion H; subst; split; [repeat constructor; lia|exists []; split; [reflexivity|reflexivity]]|].
  destruct (item =? "d")%char; [intro H; inversion H; subst; split; [repeat constructor; lia|exists []; split; [reflexivity|reflexivity]]|].
  destruct (item =? "h")%char; [intro H; inversion H; subst; split; [repeat constructor; lia|exists []; split; [reflexivity|reflexivity]]|].
  destruct (item =? "m")%char.
  - destruct r as [|c r].
    + intro H; inversion H; subst; split; [repeat constructor; lia|].
      exists []; split; [reflexivity|]. intros p' rest E.
      destruct p'; [reflexivity|discriminate].
    + destruct (c =? "s")%char eqn:Ec; intro H; inversion H; subst;
        (split; [repeat constructor; lia|]).
      * exists [c]; split; [reflexivity|]. intros p' rest _. simpl. rewrite Ec. reflexivity.
      * exists []; split; [reflexivity|]. intros p' rest E. simpl.
        destruct p' as [|c' p']; [reflexivity|].
        inversion E; subst c'. rewrite Ec. reflexivity.
  - destruct (item =? "s")%char; [|discriminate].
    intro H; inversion H; subst; split; [repeat constructor; lia|exists []; split; [reflexivity|reflexivity]].
Qed.

Lemma unit_of_prefix (item : ascii) (p0 rest : list ascii) fs r' fs0 p0' :
  unit_of item (p0 ++ rest) = Some (fs, r') -> unit_of item p0 = Some (fs0, p0') ->
  (fs0 = fs /\ r' = (p0' ++ rest)%list) \/
  (p0 = [] /\ p0' = [] /\ fs0 = [1000; 60]%Z /\ fs = [1000; 60; 60]%Z).
Proof.
  unfold unit_of.
  destruct (item =? "y")%char; [intros H1 H2; inversion H1; inversion H2; subst; left; auto|].
  destruct (item =? "w")%char; [intros H1 H2; inversion H1; inversion H2; subst; left; auto|].
  destruct (item =? "d")%char; [intros H1 H2; inversion H1; inversion H2; subst; left; auto|].
  destruct (item =? "h")%char; [intros H1 H2; inversion H1; inversion H2; subst; left; auto|].
  destruct (item =? "m")%char.
  - destruct p0 as [|c p0]; simpl.
    + intros H1 H2; inversion H2; subst.
      destruct rest as [|c rest]; [inversion H1; subst; left; auto|].
      destruct (c =? "s")%char; inversion H1; subst; [right; auto|left; auto].
    + destruct (c =? "s")%char; intros H1 H2; inversion H1; inversion H2; subst; left; auto.
  - destruct (item =? "s")%char; [|discriminate].
    intros H1 H2; inversion H1; inversion H2; subst; left; auto.
Qed.

Lemma unit_of_none (item : ascii) (r r' : list ascii) :
  unit_of item r = None -> unit_of item r' = None.
Proof.
  unfold unit_of.
  destruct (item =? "y")%char; [discriminate|].
  destruct (item =? "w")%char; [discriminate|].
  destruct (item =? "d")%char; [discriminate|].
  destruct (item =? "h")%char; [discriminate|].
  destruct (item =? "m")%char; [destruct r as [|c r]; [|destruct (c =? "s")%char]; discriminate|].
  destruct (item =? "s")%char; [discriminate|reflexivity].
Qed.

Lemma go_panic_iff (l : list ascii) : forall total raw,
  (0 <= total <= I64.max)%Z -> forallb is_digit raw = true ->
  (go l total raw = Panic <->
   exists p rest t, l = (p ++ rest)%list /\ go_unbounded p total raw = Ok t /\ (I64.max < t)%Z).
Proof.
  induction l as [l IH] using (induction_ltof1 _ (@length _)); unfold ltof in IH.
  intros total raw Ht Hraw.
  destruct l as [|item r].
  - split; [discriminate|].
    intros (p & rest & t & E & Hg & Hm).
    destruct p; [|discriminate]. simpl in Hg. inversion Hg; subst; lia.
  - destruct (is_digit item) eqn:Hd.
    + assert (Hraw' : forallb is_digit (raw ++ [item])%list = true)
        by (rewrite forallb_app; simpl; rewrite Hraw, Hd; reflexivity).
      cbn [go]; rewrite Hd.
      rewrite (IH r ltac:(simpl; lia) total (raw ++ [item])%list Ht Hraw').
      split.
      * intros (p & rest & t & E & Hg & Hm).
        exists (item :: p), rest, t. split; [rewrite E; reflexivity|].
        split; [cbn [go_unbounded]; rewrite Hd; exact Hg|exact Hm].
      * intros (p & rest & t & E & Hg & Hm).
        destruct p as [|i p]; [simpl in Hg; inversion Hg; subst; lia|].
        inversion E; subst i.
        exists p, rest, t. split; [reflexivity|].
        split; [cbn [go_unbounded] in Hg; rewrite Hd in Hg; exact Hg|exact Hm].
    + rewrite (go_unit item r total raw Hd).
      assert (Hwide : forall p, go_unbounded (item :: p) total raw =
        match parse_i64 raw with
        | Err k => Err (CustomInt k)
        | Panic => Panic
        | Ok num => match unit_of item p with
                    | Some (fs, r') => go_unbounded r' (total + fold_left Z.mul fs num)%Z []
                    | None => Err (Custom "invalid time duration")
                    end
        end) by (intro p; apply go_unbounded_unit, Hd).
      assert (Hnil : forall p rest t, (item :: r)%list = (p ++ rest)%list ->
                go_unbounded p total raw = Ok t -> (I64.max < t)%Z ->
                exists p0, p = item :: p0 /\ r = (p0 ++ rest)%list).
      { intros p rest t E Hg Hm. destruct p as [|i p0]; [simpl in Hg; inversion Hg; subst; lia|].
        inversion E; subst i. exists p0; split; reflexivity. }
      destruct (parse_i64_cases raw Hraw) as [Hnp Hrange].
      destruct (parse_i64 raw) as [num|k|] eqn:Hp; [|split; [discriminate|]|contradiction].
      2:{ intros (p & rest & t & E & Hg & Hm).
          destruct (Hnil p rest t E Hg Hm) as (p0 & -> & _).
          rewrite Hwide in Hg; discriminate Hg. }
      specialize (Hrange num eq_refl).
      destruct (unit_of item r) as [[fs r']|] eqn:Hu.
      2:{ split; [discriminate|].
          intros (p & rest & t & E & Hg & Hm).
          destruct (Hnil p rest t E Hg Hm) as (p0 & -> & _).
          rewrite Hwide, (unit_of_none item r p0 Hu) in Hg; discriminate Hg. }
      destruct (unit_of_cases item r fs r' Hu) as [Hfs (q & Eq & Hq)].
      pose proof (fold_mul_ge fs num ltac:(lia) Hfs) as Hge.
      rewrite add_unit_eq by assumption.
      destruct (total + fold_left Z.mul fs num <=? I64.max)%Z eqn:Hm.
      * apply Z.leb_le in Hm. cbn [bind].
        assert (Hlen : (length r' < length (item :: r))%nat)
          by (rewrite Eq; simpl; rewrite length_app; lia).
        rewrite (IH r' Hlen (total + fold_left Z.mul fs num)%Z [] ltac:(lia) eq_refl).
        split.
        -- intros (p' & rest & t & E & Hg & Hmax).
           exists (item :: q ++ p')%list, rest, t.
           split; [rewrite Eq, E, app_assoc; reflexivity|].
           split; [rewrite Hwide, (Hq p' rest E); exact Hg|exact Hmax].
        -- intros (p & rest & t & E & Hg & Hmax).
           destruct (Hnil p rest t E Hg Hmax) as (p0 & -> & Er).
           rewrite Hwide in Hg.
           destruct (unit_of item p0) as [[fs0 p0']|] eqn:Hu0; [|discriminate Hg].
           rewrite Er in Hu.
           destruct (unit_of_prefix item p0 rest fs r' fs0 p0' Hu Hu0)
             as [[-> ->]|(-> & -> & -> & ->)].
           ++ exists p0', rest, t. split; [reflexivity|]. split; [exact Hg|exact Hmax].
           ++ simpl in Hg, Hm. inversion Hg; subst t. lia.
      * apply Z.leb_gt in Hm. cbn [bind]. split; [intros _|intros _; reflexivity].
        exists (item :: q), r', (total + fold_left Z.mul fs num)%Z.
        split; [rewrite Eq; reflexivity|].
        split; [|exact Hm].
        rewrite Hwide, <- (app_nil_r q), (Hq [] r' eq_refl). reflexivity.
Qed.

Lemma parse_panic_iff (s : string) : parse s = Panic <-> overflows s.
Proof.
  unfold parse, overflows.
  apply (go_panic_iff (list_ascii_of_string s) 0%Z []); [unfold I64.max; lia|reflexivity].
Qed.

End DurationPanic.

Module EntityNoPanic.
Import Serde Response Domain DurationSpec NoPanic.

Lemma duration_safe_obj kvs k v :
  duration_safe (JObj kvs) -> In (k, v) kvs -> duration_safe v.
Proof.
  intros H Hin s Hs; apply H; clear H; simpl.
  induction kvs as [|[k' v'] kvs IH]; [destruct Hin|].
  apply in_or_app. destruct Hin as [E|Hin]; [inversion E; subst; left; exact Hs|right; auto].
Qed.

Lemma duration_safe_arr l x :
  duration_safe (JArr l) -> In x l -> duration_safe x.
Proof.
  intros H Hin s Hs; apply H; clear H; simpl.
  induction l as [|y l IH]; [destruct Hin|].
  apply in_or_app. destruct Hin as [<-|Hin]; [left; exact Hs|right; auto].
Qed.

Definition rnp {A} (d : json -> outcome A de_error) : Prop :=
  forall j, duration_safe j -> d j <> Panic.

Lemma np_rnp {A} (d : json -> outcome A de_error) : (forall j, d j <> Panic) -> rnp d.
Proof. intros H j _; apply H. Qed.

Lemma map_outcome_rnp {A B E} (f : A -> outcome B E) (l : list A) :
  (forall x, In x l -> f x <> Panic) -> map_outcome f l <> Panic.
Proof.
  induction l as [|x l IH]; intro H; simpl; [discriminate|].
  apply bind_np; [apply H; left; reflexivity|intro].
  apply bind_np; [apply IH; intros; apply H; right; assumption|intro; discriminate].
Qed.

Lemma de_vec_rnp {A} (d : json -> outcome A de_error) : rnp d -> rnp (de_vec d).
Proof.
  intros H j Hj; destruct j as [| | | |l|]; simpl; try discriminate.
  apply map_outcome_rnp; intros x Hx; apply H, (duration_safe_arr l x Hj Hx).
Qed.

Lemma lift_rnp {A} (f : A -> dyn) (d : json -> outcome A de_error) : rnp d -> rnp (lift f d).
Proof. intros H j Hj; unfold lift; apply bind_np; [apply H, Hj|intro; discriminate]. Qed.

Lemma lift_np {A} (f : A -> dyn) (d : json -> outcome A de_error) :
  (forall j, d j <> Panic) -> forall j, lift f d j <> Panic.
Proof. intros H j; unfold lift; apply bind_np; [apply H|intro; discriminate]. Qed.

Lemma visit_map_rnp {St} (step : string -> json -> St -> option (outcome St de_error)) :
  (forall k v s r, duration_safe v -> step k v s = Some r -> r <> Panic) ->
  forall kvs s, (forall k v, In (k, v) kvs -> duration_safe v) ->
  visit_map step kvs s <> Panic.
Proof.
  intros H kvs; induction kvs as [|[k v] kvs IH]; intros s Hk; simpl; [discriminate|].
  destruct (step k v s) eqn:E.
  - apply bind_np; [exact (H _ _ _ _ (Hk k v (or_introl eq_refl)) E)|].
    intro; apply IH; intros; apply (Hk k0); right; assumption.
  - apply IH; intros; apply (Hk k0); right; assumption.
Qed.

Lemma visit_seq_rnp {St} (steps : list (json -> St -> outcome St de_error)) expecting :
  Forall (fun st => forall x s, duration_safe x -> st x s <> Panic) steps ->
  forall i l s, (forall x, In x l -> duration_safe x) ->
  visit_seq expecting i steps l s <> Panic.
Proof.
  intro H; induction H as [|st steps Hst H IH]; intros i l s Hl;
    destruct l as [|x l]; simpl; try discriminate.
  apply bind_np; [apply Hst, Hl; left; reflexivity|].
  intro; apply IH; intros; apply Hl; right; assumption.
Qed.

Lemma de_struct_rnp {St R} (step : string -> json -> St -> option (outcome St de_error))
    seqs init (finish : St -> outcome R de_error) expecting :
  (forall k v s r, duration_safe v -> step k v s = Some r -> r <> Panic) ->
  Forall (fun st => forall x s, duration_safe x -> st x s <> Panic) seqs ->
  (forall s, finish s <> Panic) ->
  rnp (de_struct step seqs init finish expecting).
Proof.
  intros H1 H2 H3 j Hj; destruct j as [| | | |l|kvs]; simpl; try discriminate;
    apply bind_np; auto.
  - apply visit_seq_rnp; auto. intros; apply (duration_safe_arr l); assumption.
  - apply visit_map_rnp; auto. intros; apply (duration_safe_obj kvs k); assumption.
Qed.

Lemma de_table_rnp {A} (tbl : list (field A)) expecting :
  Forall (fun f => rnp (fdec f)) tbl -> rnp (de_table tbl expecting).
Proof.
  intro Htbl; unfold de_table; apply de_struct_rnp.
  - intros k v s r Hv Hs; unfold table_step in Hs.
    destruct (field_index tbl k) as [i|]; [|discriminate].
    destruct (nth_error tbl i) as [f|] eqn:Ef; inversion Hs; subst; clear Hs.
    apply bind_np; [|intro; discriminate].
    destruct (nth i s None); simpl; [discriminate|].
    apply bind_np; [|intro; discriminate].
    apply nth_error_In in Ef; rewrite Forall_forall in Htbl; exact (Htbl f Ef v Hv).
  - generalize 0%nat; induction Htbl as [|f tbl Hf Htbl IH]; intro i; simpl;
      constructor; auto; intros x s Hx.
    apply bind_np; [apply Hf, Hx|intro; discriminate].
  - clear. induction tbl as [|f tbl IH]; intro s; destruct s; simpl; np.
Qed.

Lemma de_record_rnp tbl name : Forall (fun f => rnp (fdec f)) tbl -> rnp (de_record tbl name).
Proof. intro H; apply lift_rnp, de_table_rnp, H. Qed.

Lemma de_record_np tbl name :
  Forall (fun f => forall j, fdec f j <> Panic) tbl -> forall j, de_record tbl name j <> Panic.
Proof. intro H; apply lift_np; intro j; apply de_table_np, H. Qed.

Lemma d_duration_rnp : rnp d_duration.
Proof.
  intros j Hj; unfold d_duration, lift; apply bind_np; [|intro; discriminate].
  unfold PromDuration.deserialize_prometheus_duration.
  destruct j as [| | |s| |]; simpl; try discriminate.
  rewrite DurationPanic.parse_panic_iff. apply Hj. left; reflexivity.
Qed.

Lemma build_date_np j : BuildDate.deserialize_build_info_date j <> Panic.
Proof.
  unfold BuildDate.deserialize_build_info_date; apply bind_np; [apply de_string_np|].
  intro s; destruct (BuildDate.parse s); discriminate.
Qed.

Lemma de_unit_enum_np table j : de_unit_enum table j <> Panic.
Proof.
  unfold de_unit_enum; destruct j as [| | | | |kvs]; try discriminate.
  - apply bind_np; [apply de_variant_np|intro; discriminate].
  - destruct kvs as [|[k v] [|kv kvs]]; try discriminate.
    apply bind_np; [apply de_variant_np|intro; destruct v; discriminate].
Qed.

Lemma d_string_np j : d_string j <> Panic.
Proof. apply lift_np, de_string_np. Qed.
Lemma d_f64_np j : d_f64 j <> Panic.
Proof. apply lift_np, de_f64_number_np. Qed.
Lemma d_f64_str_np j : d_f64_str j <> Panic.
Proof. apply lift_np, deserialize_f64_np. Qed.
Lemma d_i64_np j : d_i64 j <> Panic.
Proof. apply lift_np, de_i64_np. Qed.
Lemma d_usize_np j : d_usize j <> Panic.
Proof. apply lift_np, de_usize_np. Qed.
Lemma d_bool_np j : d_bool j <> Panic.
Proof. apply lift_np, de_bool_np. Qed.
Lemma d_labels_np j : d_labels j <> Panic.
Proof. apply lift_np, de_labels_np. Qed.
Lemma d_build_date_np j : d_build_date j <> Panic.
Proof. apply lift_np, build_date_np. Qed.

Lemma d_vec_np (d : json -> outcome dyn de_error) :
  (forall j, d j <> Panic) -> forall j, d_vec d j <> Panic.
Proof. intros H; apply lift_np; intro j; apply de_vec_np, H. Qed.

Lemma opt_fld_np n a (d : json -> outcome dyn de_error) :
  (forall j, d j <> Panic) -> forall j, fdec (opt_fld n a d) j <> Panic.
Proof. intros H; simpl; apply lift_np; intro j; apply de_option_np, H. Qed.

Lemma d_vec_rnp (d : json -> outcome dyn de_error) : rnp d -> rnp (d_vec d).
Proof. intro H; apply lift_rnp, de_vec_rnp, H. Qed.

Create HintDb entnp.
#[export] Hint Resolve d_string_np d_f64_np d_f64_str_np d_i64_np d_usize_np d_bool_np
  d_labels_np d_build_date_np d_vec_np opt_fld_np de_unit_enum_np : entnp.

Ltac record_np :=
  apply de_record_np; repeat constructor; cbn [fdec fld]; auto with entnp.

Section Entities.
Variables de_url de_rfc3339 de_target_health de_rule_health de_alert_state
  : json -> outcome dyn de_error.
Hypothesis url_np : forall j, de_url j <> Panic.
Hypothesis rfc3339_np : forall j, de_rfc3339 j <> Panic.
Hypothesis target_health_np : forall j, de_target_health j <> Panic.
Hypothesis rule_health_np : forall j, de_rule_health j <> Panic.
Hypothesis alert_state_np : forall j, de_alert_state j <> Panic.

Lemma de_DroppedTarget_np j : de_DroppedTarget j <> Panic.
Proof. revert j; record_np. Qed.
Lemma de_Alert_np j : de_Alert de_rfc3339 de_alert_state j <> Panic.
Proof. revert j; record_np. Qed.
#[local] Hint Resolve de_Alert_np : entnp.
Lemma de_Alerts_np j : de_Alerts de_rfc3339 de_alert_state j <> Panic.
Proof. revert j; record_np. Qed.
Lemma de_AlertingRule_np j : de_AlertingRule de_rfc3339 de_rule_health de_alert_state j <> Panic.
Proof. revert j; record_np. Qed.
Lemma de_RecordingRule_np j : de_RecordingRule de_rfc3339 de_rule_health j <> Panic.
Proof. revert j; record_np. Qed.
Lemma de_Rule_np j : de_Rule de_rfc3339 de_rule_health de_alert_state j <> Panic.
Proof.
  unfold de_Rule; apply bind_np; [apply tagged_content_np, de_variant_np|].
  intros [[|n] x]; cbn [fst snd]; (apply bind_np; [|intro; discriminate]);
    auto using de_RecordingRule_np, de_AlertingRule_np.
Qed.
#[local] Hint Resolve de_Rule_np : entnp.
Lemma de_RuleGroup_np j : de_RuleGroup de_rfc3339 de_rule_health de_alert_state j <> Panic.
Proof. revert j; record_np. Qed.
#[local] Hint Resolve de_RuleGroup_np : entnp.
Lemma de_RuleGroups_np j : de_RuleGroups de_rfc3339 de_rule_health de_alert_state j <> Panic.
Proof. revert j; record_np. Qed.
Lemma de_Alertmanager_np j : de_Alertmanager de_url j <> Panic.
Proof. revert j; record_np. Qed.
#[local] Hint Resolve de_Alertmanager_np : entnp.
Lemma de_Alertmanagers_np j : de_Alertmanagers de_url j <> Panic.
Proof. revert j; record_np. Qed.
Lemma de_TargetMetadata_np j : de_TargetMetadata j <> Panic.
Proof. revert j; record_np. Qed.
Lemma de_MetricMetadata_np j : de_MetricMetadata j <> Panic.
Proof. revert j; record_np. Qed.
Lemma de_BuildInformation_np j : de_BuildInformation j <> Panic.
Proof. revert j; record_np. Qed.
Lemma de_HeadStatistics_np j : de_HeadStatistics j <> Panic.
Proof. revert j; record_np. Qed.
#[local] Hint Resolve de_HeadStatistics_np : entnp.
Lemma de_TsdbItemCount_np j : de_TsdbItemCount j <> Panic.
Proof. revert j; record_np. Qed.
#[local] Hint Resolve de_TsdbItemCount_np : entnp.
Lemma de_TsdbStatistics_np j : de_TsdbStatistics j <> Panic.
Proof. revert j; record_np. Qed.
Lemma de_WalReplayStatistics_np j : de_WalReplayStatistics j <> Panic.
Proof. revert j; record_np. Qed.

Ltac record_rnp :=
  apply de_record_rnp; repeat constructor; cbn [fdec fld];
  first [ apply d_duration_rnp | apply np_rnp; auto with entnp ].

Lemma de_ActiveTarget_rnp : rnp (de_ActiveTarget de_url de_rfc3339 de_target_health).
Proof. record_rnp. Qed.
Lemma de_Targets_rnp : rnp (de_Targets de_url de_rfc3339 de_target_health).
Proof.
  apply de_record_rnp; repeat constructor; cbn [fdec fld].
  - apply d_vec_rnp, de_ActiveTarget_rnp.
  - apply np_rnp; auto using de_DroppedTarget_np with entnp.
Qed.
Lemma de_RuntimeInformation_rnp : rnp (de_RuntimeInformation de_rfc3339).
Proof. record_rnp. Qed.
End Entities.

End EntityNoPanic.

(** ** When the shell panics *)

Module ShellFacts.
Import Client ShellSpec.

(** [m] is [Ok] when [b] holds and [Panic] when it does not; never [Err]. *)
Definition sound {A E} (m : outcome A E) (b : bool) : Prop :=
  match m with
  | Ok _ => b = true
  | Err _ => False
  | Panic => b = false
  end.

Lemma sound_bind {A B E} (m : outcome A E) (k : A -> outcome B E) b c :
  sound m b -> (forall a, sound (k a) c) -> sound (bind m k) (b && c).
Proof. destruct m; simpl; intros H1 H2; try contradiction; subst; simpl; auto. Qed.

Lemma sound_bind_true {A B E} (m : outcome A E) (k : A -> outcome B E) b :
  sound m b -> (forall a, sound (k a) true) -> sound (bind m k) b.
Proof. destruct m; simpl; intros H1 H2; try contradiction; subst; auto. Qed.

Lemma sound_panic {A E} (m : outcome A E) b : sound m b -> (m = Panic <-> b = false).
Proof.
  destruct m; simpl; intro H; try contradiction; subst;
    split; intro; first [reflexivity | discriminate].
Qed.

Lemma map_outcome_sound {A B E} (f : A -> outcome B E) ok l :
  (forall x, sound (f x) (ok x)) -> sound (Serde.map_outcome f l) (forallb ok l).
Proof.
  intro H; induction l as [|x l IH]; simpl; [reflexivity|].
  apply sound_bind; [apply H | intro y].
  apply sound_bind_true; [exact IH | intros; reflexivity].
Qed.

Ltac json_cases j :=
  destruct j as [| |[]| | |].

Lemma collect_labels_sound kvs m :
  sound (collect_labels kvs m) (forallb (fun kv => str_ok (snd kv)) kvs).
Proof.
  revert m; induction kvs as [|[k v] kvs IH]; intro m; simpl; [reflexivity|].
  json_cases v; simpl; auto.
Qed.

Lemma labels_of_sound datum : sound (labels_of datum) (labels_ok datum).
Proof.
  unfold labels_of, labels_ok.
  destruct (as_object (index_key datum "metric")); simpl;
    [apply collect_labels_sound | reflexivity].
Qed.

Lemma value_of_vec_sound l :
  sound (value_of_vec l)
        (match l with v0 :: v1 :: _ => f64_ok v0 && str_ok v1 | _ => false end).
Proof.
  unfold value_of_vec; destruct l as [|v0 [|v1 l]]; simpl; [reflexivity| |];
    json_cases v0; simpl; try reflexivity; json_cases v1; simpl; reflexivity.
Qed.

Lemma value_of_sound v :
  sound (value_of v) (f64_ok (index_nat v 0) && str_ok (index_nat v 1)).
Proof.
  unfold value_of; generalize (index_nat v 0) (index_nat v 1); intros v0 v1.
  json_cases v0; simpl; try reflexivity; json_cases v1; simpl; reflexivity.
Qed.

Lemma vector_sample_sound datum : sound (vector_sample datum) (vector_datum_ok datum).
Proof.
  unfold vector_sample, vector_datum_ok.
  apply sound_bind; [apply labels_of_sound | intro lbl].
  destruct (as_array (index_key datum "value")) as [raw|]; simpl; [|reflexivity].
  apply sound_bind_true; [apply value_of_vec_sound | intros; reflexivity].
Qed.

Lemma matrix_sample_sound datum : sound (matrix_sample datum) (matrix_datum_ok datum).
Proof.
  unfold matrix_sample, matrix_datum_ok.
  apply sound_bind; [apply labels_of_sound | intro lbl].
  destruct (as_array (index_key datum "values")) as [raws|]; simpl; [|reflexivity].
  apply sound_bind_true; [|intros; reflexivity].
  apply map_outcome_sound; intro v; apply value_of_sound.
Qed.

Ltac no_panic := split; intro; first [reflexivity | discriminate].

Lemma parse_response_panic r : parse_response r = Panic <-> shell_ok r = false.
Proof.
  unfold parse_response, shell_ok, index_map.
  destruct (lookup r "status") as [st|]; simpl; [|no_panic].
  json_cases st; simpl; try no_panic.
  destruct (String.eqb s "success").
  - destruct (lookup r "data") as [d|]; simpl; [|no_panic].
    json_cases d; simpl; try no_panic.
    destruct (lookup (dedup kvs) "resultType") as [rt|];
      destruct (lookup (dedup kvs) "result") as [res|]; simpl; try no_panic;
      json_cases rt; simpl; try no_panic; json_cases res; simpl; try no_panic.
    destruct (String.eqb s0 "vector").
    + apply sound_panic, sound_bind_true; [|intros; reflexivity].
      apply map_outcome_sound, vector_sample_sound.
    + destruct (String.eqb s0 "matrix"); [|no_panic].
      apply sound_panic, sound_bind_true; [|intros; reflexivity].
      apply map_outcome_sound, matrix_sample_sound.
  - destruct (String.eqb s "error"); [|no_panic].
    destruct (lookup r "errorType") as [et|]; destruct (lookup r "error") as [e|];
      simpl; try no_panic; json_cases et; simpl; try no_panic;
      json_cases e; simpl; no_panic.
Qed.

End ShellFacts.

(** * The claims *)

(** ** Duration grammar *)

(** Claim C1: after a numeral, [m] followed by [s] is the millisecond
    unit, so ["1ms"] is one millisecond.  The parser does take the [s]
    after [m] together with it, but adds [num * 1000 * 60 * 60]: ["1ms"]
    is 3,600,000 ms, an hour. *)
Theorem C1_one_ms_parses_as_one_hour :
  PromDuration.parse "1ms" = Ok 3600000%Z /\
  PromDuration.deserialize_prometheus_duration (JStr "1ms") = Ok 3600000%Z.
Proof. split; reflexivity. Qed.

(** Claim C2 fails at the empty string: it is not rejected, the parser
    returns a zero duration. *)
Lemma C2_empty_string_is_zero :
  PromDuration.parse "" = Ok 0%Z /\ (forall e, PromDuration.parse "" <> Err e).
Proof. split; [reflexivity|discriminate]. Qed.

(** Claim C2 (amended): a string containing a character that is neither a
    decimal digit nor one of the unit letters y, w, d, h, m, s never
    yields a duration (it is an error, or an [i64] overflow panic met
    before that character); ["5x"] fails with the grammar error
    [invalid time duration]; the empty string, excluded by the parser's
    documented precondition, yields zero. *)
Theorem C2_foreign_character_fails :
  (forall (s : string) (v : Z),
      existsb DurationSpec.is_foreign (list_ascii_of_string s) = true ->
      PromDuration.parse s <> Ok v) /\
  PromDuration.parse "5x" = Err (Custom "invalid time duration") /\
  PromDuration.parse "" = Ok 0%Z.
Proof.
  split; [|split; reflexivity].
  intros s v H; apply DurationFacts.go_foreign; exact H.
Qed.

Lemma C2_foreign_character_fails_witness :
  existsb DurationSpec.is_foreign (list_ascii_of_string "5x") = true /\
  PromDuration.parse "5x" <> Ok 0%Z.
Proof.
  split; [vm_compute; reflexivity|].
  apply (proj1 C2_foreign_character_fails "5x" 0%Z).
  vm_compute; reflexivity.
Defined.

(** Claim C6: a string of [<integer><unit>] pairs with units among
    y, w, d, h, m, s parses to the sum of integer times multiplier
    (y=365d, w=7d, d=24h, h=60m, m=60s, s=1000ms) over all pairs, repeated
    units adding up, as long as that total fits in [i64] (the documented
    precondition); ["1h"] is 3,600,000 ms and ["1d"] 86,400,000 ms. *)
Theorem C6_pairs_sum_to_milliseconds
    (ps : list (list ascii * DurationSpec.dunit))
    (Hwf : DurationSpec.well_formed_pairs ps)
    (Hmax : (DurationSpec.expected_ms ps <= I64.max)%Z) :
  PromDuration.parse (string_of_list_ascii (DurationSpec.render ps))
  = Ok (DurationSpec.expected_ms ps) /\
  PromDuration.parse "1h" = Ok 3600000%Z /\
  PromDuration.parse "1d" = Ok 86400000%Z.
Proof.
  split; [|split; reflexivity].
  unfold PromDuration.parse; rewrite list_ascii_of_string_of_list_ascii.
  rewrite (DurationFacts.go_render ps 0%Z Hwf (Z.le_refl 0)); [reflexivity | lia].
Qed.

Lemma C6_pairs_sum_to_milliseconds_witness :
  PromDuration.parse "1d12h10m1h1h" = Ok 137400000%Z.
Proof.
  pose proof (C6_pairs_sum_to_milliseconds
    [(["1"%char], DurationSpec.UD); (["1"; "2"]%char, DurationSpec.UH);
     (["1"; "0"]%char, DurationSpec.UM); (["1"%char], DurationSpec.UH);
     (["1"%char], DurationSpec.UH)]) as H.
  destruct H as [H _];
    [ repeat constructor; discriminate
    | vm_compute; discriminate
    | exact H ].
Defined.

(** ** Emptiness of a query result *)

(** Claim C9: [Data::is_empty] holds exactly for a [Vector] or a [Matrix]
    with no series; a [Scalar] is never empty. *)
Theorem C9_is_empty_iff_no_series :
  (forall d : Response.Data,
      Response.is_empty d = true <-> d = Response.Vector [] \/ d = Response.Matrix []) /\
  (forall s : Response.Sample, Response.is_empty (Response.Scalar s) = false).
Proof.
  split; [|reflexivity].
  intros [[|x v]|[|x m]|s]; simpl; split; intro H;
    try discriminate; try (destruct H as [H|H]; discriminate); auto.
Qed.

(** ** Numeric coercion *)

(** Claim C7: a JSON string decodes to an [f64] exactly when it is a
    floating-point literal (optional sign, then a decimal number with an
    optional exponent, or [inf], [infinity], [nan] in any case); any other
    string is rejected with an invalid-value error that carries the
    string; ["1"] decodes to 1.0, ["0.0"] to 0.0, and ["NaN"], ["inf"],
    ["-inf"] to not-a-number and the two infinities. *)
Theorem C7_f64_string_coercion :
  (forall s : string,
      (exists v, F64.deserialize_f64 (JStr s) = Ok v) <-> FloatSpec.float_literal s) /\
  (forall s : string, ~ FloatSpec.float_literal s ->
      F64.deserialize_f64 (JStr s) = Err (InvalidValue (UStr s) F64.float_expected)) /\
  F64.deserialize_f64 (JStr "1") = Ok (F64.FFinite 1) /\
  (exists q, F64.deserialize_f64 (JStr "0.0") = Ok (F64.FFinite q) /\ (q == 0)%Q) /\
  F64.deserialize_f64 (JStr "NaN") = Ok F64.FNaN /\
  F64.deserialize_f64 (JStr "inf") = Ok (F64.FInf false) /\
  F64.deserialize_f64 (JStr "-inf") = Ok (F64.FInf true).
Proof.
  split; [|split; [|split; [reflexivity|split; [|repeat split]]]].
  - intro s; rewrite <- FloatFacts.from_str_iff; unfold F64.deserialize_f64; simpl.
    destruct (F64.from_str s); split.
    + discriminate.
    + intros _; eexists; reflexivity.
    + intros [v H]; discriminate.
    + intro H; contradiction.
  - intros s Hs; rewrite <- FloatFacts.from_str_iff in Hs.
    unfold F64.deserialize_f64; simpl.
    destruct (F64.from_str s); [exfalso; apply Hs; discriminate | reflexivity].
  - eexists; split; [reflexivity | reflexivity].
Qed.

Lemma C7_f64_string_coercion_witness :
  ~ FloatSpec.float_literal "abc" /\
  F64.deserialize_f64 (JStr "abc") = Err (InvalidValue (UStr "abc") F64.float_expected).
Proof.
  assert (H : ~ FloatSpec.float_literal "abc").
  { rewrite <- FloatFacts.from_str_iff; vm_compute; intro H; apply H; reflexivity. }
  split; [exact H|].
  apply (proj1 (proj2 C7_f64_string_coercion) "abc"); exact H.
Defined.

(** ** Build date *)

(** Claim C8 fails at a signed year: [[year repr:full]] of the time crate
    takes an optional sign before the four year digits, so
    ["+20191102-16:19:51"], eighteen characters long and not of the form
    [YYYYMMDD-HH:MM:SS], decodes to 2019-11-02 16:19:51. *)
Lemma C8_signed_year_accepted :
  String.length "+20191102-16:19:51" = 18%nat /\
  BuildDate.deserialize_build_info_date (JStr "+20191102-16:19:51")
  = Ok {| BuildDate.year := 2019; BuildDate.month := 11; BuildDate.day := 2;
          BuildDate.hour := 16; BuildDate.minute := 19; BuildDate.second := 51 |}.
Proof. split; reflexivity. Qed.

(** Claim C8 (amended): ["20191102-16:19:51"] decodes to the naive
    date-time 2019-11-02 16:19:51; every string that decodes has the
    shape [YYYYMMDD-HH:MM:SS], optionally preceded by a [+] or [-] sign
    on the year; every string that does not decode is rejected with an
    invalid-value error carrying the string and naming the expected
    pattern [<yyyymmdd-hh:mm:ss>]. *)
Theorem C8_build_date_format :
  BuildDate.deserialize_build_info_date (JStr "20191102-16:19:51")
  = Ok {| BuildDate.year := 2019; BuildDate.month := 11; BuildDate.day := 2;
          BuildDate.hour := 16; BuildDate.minute := 19; BuildDate.second := 51 |} /\
  (forall s dt, BuildDate.deserialize_build_info_date (JStr s) = Ok dt ->
      BuildDateSpec.build_date_shape (list_ascii_of_string s)) /\
  (forall s, (forall dt, BuildDate.deserialize_build_info_date (JStr s) <> Ok dt) ->
      BuildDate.deserialize_build_info_date (JStr s)
      = Err (InvalidValue (UStr s) BuildDate.date_expected)).
Proof.
  split; [reflexivity | split].
  - intros s dt; unfold BuildDate.deserialize_build_info_date; simpl.
    destruct (BuildDate.parse s) eqn:E; [|discriminate].
    intros _; exact (BuildDateFacts.parse_shape s _ E).
  - intros s H; unfold BuildDate.deserialize_build_info_date in *; simpl in *.
    destruct (BuildDate.parse s); [exfalso; exact (H _ eq_refl) | reflexivity].
Qed.

Lemma C8_build_date_format_witness :
  BuildDateSpec.build_date_shape (list_ascii_of_string "20191102-16:19:51") /\
  BuildDate.deserialize_build_info_date (JStr "2019-11-02")
  = Err (InvalidValue (UStr "2019-11-02") BuildDate.date_expected).
Proof.
  split.
  - apply (proj1 (proj2 C8_build_date_format) "20191102-16:19:51"
             {| BuildDate.year := 2019; BuildDate.month := 11; BuildDate.day := 2;
                BuildDate.hour := 16; BuildDate.minute := 19; BuildDate.second := 51 |}).
    reflexivity.
  - apply (proj2 (proj2 C8_build_date_format) "2019-11-02").
    intro dt; vm_compute; discriminate.
Defined.

(** ** Scalar results *)

(** Claim C4 fails in the query-execution shell: [parse_response] has a
    branch for ["vector"] and one for ["matrix"] only, so the document
    [{"status": "success", "data": {"resultType": "scalar",
    "result": [0, "0.0"]}}] is answered with an unsupported-data-type
    error, though the typed decoder reads it as a scalar sample. *)
Lemma C4_shell_rejects_scalar :
  Client.parse_response (Documents.scalar_fields (NInt 0) "0.0")
  = Err (Client.UnsupportedResponseDataType "scalar") /\
  exists q,
    Envelope.de_query_response (Documents.scalar_doc (NInt 0) "0.0")
    = Ok (Envelope.Success {| Response.data := Response.Scalar
                                {| Response.timestamp := F64.FFinite 0;
                                   Response.value := F64.FFinite q |};
                              Response.stats := None |}) /\ (q == 0)%Q.
Proof. split; [reflexivity | eexists; split; reflexivity]. Qed.

(** Claim C4 (amended): the typed envelope decoder reads a success
    document whose [data] has [resultType] ["scalar"] and [result]
    [[ts, "v"]] as the scalar sample with timestamp [ts] and value the
    float that ["v"] denotes, and no statistics; the query-execution
    shell does not decode scalar results and answers such a document
    with the error [UnsupportedResponseDataType("scalar")]; for
    [[0, "0.0"]] the sample is 0.0 at 0.0. *)
Theorem C4_scalar_dispatch (ts : number) (sv : string) (x : F64.f64)
    (Hx : F64.from_str sv = Some x) :
  Envelope.de_query_response (Documents.scalar_doc ts sv)
  = Ok (Envelope.Success {| Response.data := Response.Scalar
                              {| Response.timestamp := Documents.number_f64 ts;
                                 Response.value := x |};
                            Response.stats := None |}) /\
  Client.parse_response (Documents.scalar_fields ts sv)
  = Err (Client.UnsupportedResponseDataType "scalar").
Proof.
  split.
  - destruct ts; cbn -[F64.from_str];
      unfold Response.PromqlResult_finish, Response.de_Data_map,
        Response.de_Data_content, Response.de_Sample, Serde.de_struct,
        F64.deserialize_f64;
      cbn -[F64.from_str]; rewrite Hx; reflexivity.
  - reflexivity.
Qed.

Lemma C4_scalar_dispatch_witness :
  F64.from_str "0.0" = Some (F64.FFinite (0 # 10)) /\
  Envelope.de_query_response (Documents.scalar_doc (NInt 0) "0.0")
  = Ok (Envelope.Success {| Response.data := Response.Scalar
                              {| Response.timestamp := F64.FFinite (inject_Z 0);
                                 Response.value := F64.FFinite (0 # 10) |};
                            Response.stats := None |}).
Proof.
  split; [reflexivity|].
  apply (proj1 (C4_scalar_dispatch (NInt 0) "0.0" (F64.FFinite (0 # 10)) eq_refl)).
Defined.

(** ** Unknown keys *)

(** Claim C10: the decoders of the response model skip the entries of a
    JSON object whose key they do not know: inserting such an entry (for
    instance ["warnings"]) anywhere in an object leaves the outcome
    unchanged, for every object.  This holds for the envelope (for any
    payload type), the query result and its parts, the error body, and
    every domain entity decoder (for any decoders of the types declared
    outside [response.rs]); each decoder knows its fields' names and
    aliases, an internally tagged enum also its tag. *)
Theorem C10_unknown_keys_ignored :
  (forall D (de_data : json -> outcome D de_error) (data_missing : outcome D de_error),
      Scan.ignores_key ["status"; "data"; "errorType"; "error"]
        (Envelope.de_ApiResponse de_data data_missing)) /\
  Scan.ignores_key ["status"; "data"; "errorType"; "error"] Envelope.de_query_response /\
  Scan.ignores_key ["errorType"; "error"] Envelope.de_PrometheusError /\
  Scan.ignores_key ["stats"; "resultType"; "result"] Response.de_PromqlResult /\
  Scan.ignores_key ["timestamp"; "value"] Response.de_Sample /\
  Scan.ignores_key ["metric"; "sample"; "value"] Response.de_InstantVector /\
  Scan.ignores_key ["metric"; "samples"; "values"] Response.de_RangeVector /\
  Scan.ignores_key ["timings"; "samples"] Response.de_Stats /\
  Scan.ignores_key (Scan.record_keys Response.Timings_fields) Response.de_Timings /\
  Scan.ignores_key ["total_queryable_samples_per_step"; "totalQueryableSamplesPerStep";
                    "total_queryable_samples"; "totalQueryableSamples";
                    "peak_samples"; "peakSamples"] Response.de_Samples /\
  Scan.ignores_key ["timestamp"; "value"] Response.de_SamplesPerStep /\
  (forall de_url de_rfc3339 de_target_health de_rule_health de_alert_state,
    let keys := @Scan.record_keys Domain.dyn in
    Scan.ignores_key (keys (Domain.ActiveTarget_fields de_url de_rfc3339 de_target_health))
      (Domain.de_ActiveTarget de_url de_rfc3339 de_target_health) /\
    Scan.ignores_key (keys Domain.DroppedTarget_fields) Domain.de_DroppedTarget /\
    Scan.ignores_key (keys (Domain.Targets_fields de_url de_rfc3339 de_target_health))
      (Domain.de_Targets de_url de_rfc3339 de_target_health) /\
    Scan.ignores_key (keys (Domain.Alert_fields de_rfc3339 de_alert_state))
      (Domain.de_Alert de_rfc3339 de_alert_state) /\
    Scan.ignores_key (keys (Domain.Alerts_fields de_rfc3339 de_alert_state))
      (Domain.de_Alerts de_rfc3339 de_alert_state) /\
    Scan.ignores_key (keys (Domain.AlertingRule_fields de_rfc3339 de_rule_health de_alert_state))
      (Domain.de_AlertingRule de_rfc3339 de_rule_health de_alert_state) /\
    Scan.ignores_key (keys (Domain.RecordingRule_fields de_rfc3339 de_rule_health))
      (Domain.de_RecordingRule de_rfc3339 de_rule_health) /\
    Scan.ignores_key
      ("type" :: keys (Domain.RecordingRule_fields de_rfc3339 de_rule_health)
         ++ keys (Domain.AlertingRule_fields de_rfc3339 de_rule_health de_alert_state))
      (Domain.de_Rule de_rfc3339 de_rule_health de_alert_state) /\
    Scan.ignores_key (keys (Domain.RuleGroup_fields de_rfc3339 de_rule_health de_alert_state))
      (Domain.de_RuleGroup de_rfc3339 de_rule_health de_alert_state) /\
    Scan.ignores_key (keys (Domain.RuleGroups_fields de_rfc3339 de_rule_health de_alert_state))
      (Domain.de_RuleGroups de_rfc3339 de_rule_health de_alert_state) /\
    Scan.ignores_key (keys (Domain.Alertmanager_fields de_url)) (Domain.de_Alertmanager de_url) /\
    Scan.ignores_key (keys (Domain.Alertmanagers_fields de_url))
      (Domain.de_Alertmanagers de_url) /\
    Scan.ignores_key (keys Domain.TargetMetadata_fields) Domain.de_TargetMetadata /\
    Scan.ignores_key (keys Domain.MetricMetadata_fields) Domain.de_MetricMetadata /\
    Scan.ignores_key (keys Domain.BuildInformation_fields) Domain.de_BuildInformation /\
    Scan.ignores_key (keys (Domain.RuntimeInformation_fields de_rfc3339))
      (Domain.de_RuntimeInformation de_rfc3339) /\
    Scan.ignores_key (keys Domain.HeadStatistics_fields) Domain.de_HeadStatistics /\
    Scan.ignores_key (keys Domain.TsdbItemCount_fields) Domain.de_TsdbItemCount /\
    Scan.ignores_key (keys Domain.TsdbStatistics_fields) Domain.de_TsdbStatistics /\
    Scan.ignores_key (keys Domain.WalReplayStatistics_fields) Domain.de_WalReplayStatistics).
Proof.
  split; [intros; apply KeyDecoders.ApiResponse_ignores|].
  split; [apply KeyDecoders.ApiResponse_ignores|].
  split; [exact KeyDecoders.PrometheusError_ignores|].
  split; [exact KeyDecoders.PromqlResult_ignores|].
  split; [exact KeyDecoders.Sample_ignores|].
  split; [exact KeyDecoders.InstantVector_ignores|].
  split; [exact KeyDecoders.RangeVector_ignores|].
  split; [exact KeyDecoders.Stats_ignores|].
  split; [exact KeyDecoders.Timings_ignores|].
  split; [exact KeyDecoders.Samples_ignores|].
  split; [exact KeyDecoders.SamplesPerStep_ignores|].
  intros u r th rh st keys; subst keys.
  repeat split; try apply KeyDecoders.record_ignores.
  (* the internally tagged [Rule] *)
  intros pre post k v H.
  refine (KeyFacts.tagged_ignores "type" (Serde.de_variant Domain.Rule_variants) _
            (fun t j => match t with
                        | O => x <- Domain.de_RecordingRule r rh j ;; Ok (Domain.DVariant 0 x)
                        | _ => x <- Domain.de_AlertingRule r rh st j ;;
                               Ok (Domain.DVariant 1 x)
                        end) _ _ pre post k v H); [simpl; tauto|].
  intros [|t].
  - apply (KeyFacts.ignores_bind _ _ (fun x => Ok (Domain.DVariant 0 x))).
    eapply KeyDecoders.ignores_mono; [|apply KeyDecoders.record_ignores].
    intros k' Hk'; right; apply in_or_app; left; exact Hk'.
  - apply (KeyFacts.ignores_bind _ _ (fun x => Ok (Domain.DVariant 1 x))).
    eapply KeyDecoders.ignores_mono; [|apply KeyDecoders.record_ignores].
    intros k' Hk'; right; apply in_or_app; right; exact Hk'.
Qed.

Lemma C10_unknown_keys_ignored_witness :
  Envelope.de_query_response
    (JObj ([("status", JStr "success")] ++ ("warnings", JArr [JStr "w"])
           :: [("data", JObj [("resultType", JStr "vector"); ("result", JArr [])])]))
  = Envelope.de_query_response
      (JObj ([("status", JStr "success")]
             ++ [("data", JObj [("resultType", JStr "vector"); ("result", JArr [])])])).
Proof.
  apply (proj1 (proj2 C10_unknown_keys_ignored)); vm_compute; reflexivity.
Defined.

(** ** Envelope status *)

(** Claim C3 fails at the variant names: [Success] and [Error] are each
    matched by their Rust name and by their alias, so the status
    ["Success"] is accepted like ["success"]. *)
Lemma C3_capitalised_status_accepted :
  Envelope.de_query_response
    (JObj [("status", JStr "Success");
           ("data", JObj [("resultType", JStr "vector"); ("result", JArr [])])])
  = Ok (Envelope.Success {| Response.data := Response.Vector [];
                            Response.stats := None |}).
Proof. reflexivity. Qed.

(** Claim C3 (amended): for a payload type whose absent [data] is an
    error, an envelope object decodes to a success only when it has a
    [status] entry ["success"] or ["Success"] and a [data] entry whose
    value decodes to the payload; to a protocol error only when it has a
    [status] entry ["error"] or ["Error"] and string [errorType] and
    [error] entries; any [status] entry whose value is not one of these
    four strings, or a missing [status], makes the decode fail.  In
    particular a ["success"] document with the error fields and no
    [data] does not decode. *)
Theorem C3_envelope_status {D} (de_data : json -> outcome D de_error)
    (data_missing : outcome D de_error)
    (Hmissing : forall d, data_missing <> Ok d) (kvs : list (string * json)) :
  (forall d, Envelope.de_ApiResponse de_data data_missing (JObj kvs) = Ok (Envelope.Success d) ->
     (exists s, In ("status", JStr s) kvs /\ In s ["success"; "Success"]) /\
     exists v, In ("data", v) kvs /\ de_data v = Ok d) /\
  (forall e, Envelope.de_ApiResponse de_data data_missing (JObj kvs) = Ok (Envelope.Error e) ->
     (exists s, In ("status", JStr s) kvs /\ In s ["error"; "Error"]) /\
     exists t m, In ("errorType", JStr t) kvs /\ In ("error", JStr m) kvs) /\
  (forall v, In ("status", v) kvs ->
     (forall s, v = JStr s -> ~ In s ["success"; "Success"; "error"; "Error"]) ->
     forall r, Envelope.de_ApiResponse de_data data_missing (JObj kvs) <> Ok r) /\
  ((forall v, ~ In ("status", v) kvs) ->
     forall r, Envelope.de_ApiResponse de_data data_missing (JObj kvs) <> Ok r).
Proof.
  split; [|split; [|split]].
  - intros d H; apply EnvelopeFacts.de_ApiResponse_obj in H as (t & Ht & Hb).
    destruct (EnvelopeFacts.tag_scan_ok _ _ _ _ _ Ht) as (H1 & H2 & _).
    destruct (H2 eq_refl) as [v Hv]; destruct (H1 v Hv) as [_ Hdv].
    destruct (EnvelopeFacts.api_variant_ok _ _ Hdv) as (s & -> & Hs).
    destruct t; [|destruct Hb as (e & He & _); discriminate He].
    destruct Hb as (d' & Hd' & Hb); inversion Hd'; subst d'.
    split; [exists s; split; [exact Hv | simpl in *; tauto]|].
    unfold Serde.de_struct in Hb; apply EnvelopeFacts.bind_ok in Hb as (st & Hst & Hf).
    destruct st as [d0|]; [|exfalso; exact (Hmissing d Hf)].
    simpl in Hf; inversion Hf; subst d0.
    destruct (EnvelopeFacts.visit_Success de_data _ _ _ Hst) as [Hn|(v' & Hv' & Hd)];
      [discriminate Hn|].
    exists v'; split; [exact (EnvelopeFacts.in_filter_not_key _ _ _ Hv') | exact Hd].
  - intros e H; apply EnvelopeFacts.de_ApiResponse_obj in H as (t & Ht & Hb).
    destruct (EnvelopeFacts.tag_scan_ok _ _ _ _ _ Ht) as (H1 & H2 & _).
    destruct (H2 eq_refl) as [v Hv]; destruct (H1 v Hv) as [_ Hdv].
    destruct (EnvelopeFacts.api_variant_ok _ _ Hdv) as (s & -> & Hs).
    destruct t; [destruct Hb as (d & Hd & _); discriminate Hd|].
    destruct Hb as (e' & He' & Hb); inversion He'; subst e'.
    split; [exists s; split; [exact Hv | simpl in *; tauto]|].
    unfold Envelope.de_PrometheusError, Serde.de_struct in Hb.
    apply EnvelopeFacts.bind_ok in Hb as ([a b] & Hst & Hf).
    destruct a as [t|]; [|discriminate Hf]; destruct b as [m|]; [|discriminate Hf].
    destruct (EnvelopeFacts.visit_PrometheusError _ _ _ _ _ Hst) as [Ha Hb].
    destruct (Ha t eq_refl) as [Hn|(va & Hva & Hta)]; [discriminate Hn|].
    destruct (Hb m eq_refl) as [Hn|(vb & Hvb & Hmb)]; [discriminate Hn|].
    destruct (EnvelopeFacts.de_error_type_ok _ _ Hta) as [ts ->].
    apply EnvelopeFacts.de_string_ok in Hmb; subst vb.
    exists ts, m; split; eapply EnvelopeFacts.in_filter_not_key; eassumption.
  - intros v Hv Hns r H; apply EnvelopeFacts.de_ApiResponse_obj in H as (t & Ht & _).
    destruct (EnvelopeFacts.tag_scan_ok _ _ _ _ _ Ht) as (H1 & _ & _).
    destruct (H1 v Hv) as [_ Hdv].
    destruct (EnvelopeFacts.api_variant_ok _ _ Hdv) as (s & -> & Hs).
    apply (Hns s eq_refl); destruct t; simpl in *; tauto.
  - intros Hno r H; apply EnvelopeFacts.de_ApiResponse_obj in H as (t & Ht & _).
    destruct (EnvelopeFacts.tag_scan_ok _ _ _ _ _ Ht) as (_ & H2 & _).
    destruct (H2 eq_refl) as [v Hv]; exact (Hno v Hv).
Qed.

Lemma C3_envelope_status_witness :
  Envelope.de_query_response
    (JObj [("status", JStr "success"); ("errorType", JStr "bad_data");
           ("error", JStr "parse error")]) = Err (MissingField "data") /\
  match Envelope.de_query_response (Documents.scalar_doc (NInt 0) "0.0") with
  | Ok (Envelope.Success d) =>
      exists v, In ("data", v) (Documents.scalar_fields (NInt 0) "0.0") /\
                Response.de_PromqlResult v = Ok d
  | _ => False
  end.
Proof.
  split; [vm_compute; reflexivity|].
  case_eq (Envelope.de_query_response (Documents.scalar_doc (NInt 0) "0.0"));
    [intros [d|e] E | intros e E | intros E];
    try (vm_compute in E; discriminate E).
  exact (proj2 (proj1 (C3_envelope_status Response.de_PromqlResult
                         (Err (MissingField "data"))
                         (fun d H => ltac:(discriminate H))
                         (Documents.scalar_fields (NInt 0) "0.0")) d E)).
Defined.

(** C5 (counterexample): not every input reaches a result.  The shell
    [parse_response] panics on an empty map (indexing the missing
    [status] key); the duration decoder panics on an [i64] overflow (a
    debug build) for "9999999999y", and so does the decoder of
    [RuntimeInformation] on a [storageRetention] holding that string. *)
Lemma C5_shell_panics :
  Client.parse_response [] = Panic /\
  PromDuration.deserialize_prometheus_duration (JStr "9999999999y") = Panic /\
  Domain.de_RuntimeInformation (fun _ => Ok Domain.DNone)
    (JObj [("storageRetention", JStr "9999999999y")]) = Panic.
Proof. refine (conj _ (conj _ _)); vm_compute; reflexivity. Qed.

(** C5: the typed decoder of a query envelope never panics: on every
    document it returns [Ok] with a fully built value or [Err] with one
    serde error.  The shell [parse_response] panics exactly on the
    documents that lack the shape [shell_ok] describes (a string
    [status]; for "success" an object [data] with a string [resultType]
    and an array [result] whose vector or matrix series carry string
    labels and [number, string] samples; for "error" string [errorType]
    and [error]); on all other documents it returns [Ok] or one
    classified [Error].  The duration decoder panics (a debug build)
    exactly on the strings that [overflows] describes: some prefix,
    run with unbounded integers, reaches a total above [i64::MAX].
    Given decoders for the types declared outside [response.rs] that
    never panic, every domain entity decoder without a duration field
    never panics, and [ActiveTarget], [Targets] and
    [RuntimeInformation] never panic on a document none of whose
    strings overflows as a duration. *)
Theorem C5_no_panic :
  (forall j, Envelope.de_query_response j <> Panic) /\
  (forall r, Client.parse_response r = Panic <-> ShellSpec.shell_ok r = false) /\
  (forall s, PromDuration.deserialize_prometheus_duration (JStr s) = Panic <->
             DurationSpec.overflows s) /\
  (forall de_url de_rfc3339 de_target_health de_rule_health de_alert_state,
    (forall j, de_url j <> Panic) -> (forall j, de_rfc3339 j <> Panic) ->
    (forall j, de_target_health j <> Panic) -> (forall j, de_rule_health j <> Panic) ->
    (forall j, de_alert_state j <> Panic) ->
    (forall j,
      Domain.de_DroppedTarget j <> Panic /\
      Domain.de_Alert de_rfc3339 de_alert_state j <> Panic /\
      Domain.de_Alerts de_rfc3339 de_alert_state j <> Panic /\
      Domain.de_AlertingRule de_rfc3339 de_rule_health de_alert_state j <> Panic /\
      Domain.de_RecordingRule de_rfc3339 de_rule_health j <> Panic /\
      Domain.de_Rule de_rfc3339 de_rule_health de_alert_state j <> Panic /\
      Domain.de_RuleGroup de_rfc3339 de_rule_health de_alert_state j <> Panic /\
      Domain.de_RuleGroups de_rfc3339 de_rule_health de_alert_state j <> Panic /\
      Domain.de_Alertmanager de_url j <> Panic /\
      Domain.de_Alertmanagers de_url j <> Panic /\
      Domain.de_TargetMetadata j <> Panic /\
      Domain.de_MetricMetadata j <> Panic /\
      Domain.de_BuildInformation j <> Panic /\
      Domain.de_HeadStatistics j <> Panic /\
      Domain.de_TsdbItemCount j <> Panic /\
      Domain.de_TsdbStatistics j <> Panic /\
      Domain.de_WalReplayStatistics j <> Panic) /\
    (forall j, DurationSpec.duration_safe j ->
      Domain.de_ActiveTarget de_url de_rfc3339 de_target_health j <> Panic /\
      Domain.de_Targets de_url de_rfc3339 de_target_health j <> Panic /\
      Domain.de_RuntimeInformation de_rfc3339 j <> Panic)).
Proof.
  refine (conj _ (conj _ (conj _ _))).
  - intro j; apply NoPanic.de_ApiResponse_np;
      [apply NoPanic.de_PromqlResult_np | discriminate].
  - exact ShellFacts.parse_response_panic.
  - intro s; exact (DurationPanic.parse_panic_iff s).
  - intros u r th rh st Hu Hr Hth Hrh Hst; split.
    + intro j; repeat split; revert j.
      all: first [ apply EntityNoPanic.de_DroppedTarget_np
                 | apply EntityNoPanic.de_Alert_np
                 | apply EntityNoPanic.de_Alerts_np
                 | apply EntityNoPanic.de_AlertingRule_np
                 | apply EntityNoPanic.de_RecordingRule_np
                 | apply EntityNoPanic.de_Rule_np
                 | apply EntityNoPanic.de_RuleGroup_np
                 | apply EntityNoPanic.de_RuleGroups_np
                 | apply EntityNoPanic.de_Alertmanager_np
                 | apply EntityNoPanic.de_Alertmanagers_np
                 | apply EntityNoPanic.de_TargetMetadata_np
                 | apply EntityNoPanic.de_MetricMetadata_np
                 | apply EntityNoPanic.de_BuildInformation_np
                 | apply EntityNoPanic.de_HeadStatistics_np
                 | apply EntityNoPanic.de_TsdbItemCount_np
                 | apply EntityNoPanic.de_TsdbStatistics_np
                 | apply EntityNoPanic.de_WalReplayStatistics_np ]; assumption.
    + intros j Hj; refine (conj _ (conj _ _)).
      * apply EntityNoPanic.de_ActiveTarget_rnp; assumption.
      * apply EntityNoPanic.de_Targets_rnp; assumption.
      * apply EntityNoPanic.de_RuntimeInformation_rnp; assumption.
Qed.

(** * Further properties of the code *)

Module DurationMore.
Import PromDuration.

Lemma bind_ext {A B E} (m : outcome A E) (k1 k2 : A -> outcome B E) :
  (forall a, k1 a = k2 a) -> bind m k1 = bind m k2.
Proof. intro H; destruct m; simpl; auto. Qed.

Lemma digit_not_s (d : ascii) : is_digit d = true -> (d =? "s")%char = false.
Proof.
  intro H; destruct (d =? "s")%char eqn:E; [|reflexivity].
  apply Ascii.eqb_eq in E; subst; discriminate H.
Qed.

Lemma go_app_digits (ds : list ascii) (Hds : forallb is_digit ds = true) :
  forall l total raw, go (l ++ ds) total raw = go l total raw.
Proof.
  assert (Hend : forall t r, go ds t r = Ok t).
  { intros t r; rewrite <- (app_nil_r ds), DurationFacts.go_digits by exact Hds.
    reflexivity. }
  intro l; induction l as [l IH] using (induction_ltof1 _ (@length _)).
  unfold ltof in IH; intros total raw.
  destruct l as [|item rest]; [apply Hend|].
  cbn [app go].
  destruct (is_digit item); [apply IH; simpl; lia|].
  destruct (parse_i64 raw) as [num|k|]; [|reflexivity|reflexivity].
  destruct (item =? "y")%char; [apply bind_ext; intro; apply IH; simpl; lia|].
  destruct (item =? "w")%char; [apply bind_ext; intro; apply IH; simpl; lia|].
  destruct (item =? "d")%char; [apply bind_ext; intro; apply IH; simpl; lia|].
  destruct (item =? "h")%char; [apply bind_ext; intro; apply IH; simpl; lia|].
  destruct (item =? "m")%char.
  - destruct rest as [|c rest0].
    + destruct ds as [|d ds']; [reflexivity|].
      simpl in Hds; apply andb_prop in Hds as [Hd _].
      cbn [app]; rewrite (digit_not_s d Hd).
      apply bind_ext; intro; rewrite Hend; reflexivity.
    + cbn [app]; destruct (c =? "s")%char.
      * apply bind_ext; intro; apply IH; simpl; lia.
      * apply bind_ext; intro; exact (IH (c :: rest0) ltac:(simpl; lia) _ _).
  - destruct (item =? "s")%char; [apply bind_ext; intro; apply IH; simpl; lia|].
    reflexivity.
Qed.

Lemma list_ascii_app (s t : string) :
  list_ascii_of_string (s ++ t) = (list_ascii_of_string s ++ list_ascii_of_string t)%list.
Proof. induction s; simpl; [reflexivity|]; now rewrite IHs. Qed.

(** X1: the duration parser of [deserialize_prometheus_duration] ignores
    a run of ASCII digits at the end of its input that no unit follows:
    appending such digits to any string never changes the result. *)
Theorem trailing_number_ignored (s : string) (ds : list ascii) :
  forallb is_digit ds = true ->
  parse (s ++ string_of_list_ascii ds) = parse s.
Proof.
  intro H; unfold parse; rewrite list_ascii_app, list_ascii_of_string_of_list_ascii.
  apply go_app_digits, H.
Qed.

(** X3: a duration string whose first character is not an ASCII digit is
    rejected with the empty-integer error of [str::parse::<i64>]. *)
Theorem leading_non_digit (c : ascii) (s : string) :
  is_digit c = false -> parse (String c s) = Err (CustomInt IntEmpty).
Proof. intro H; unfold parse; simpl; rewrite H; reflexivity. Qed.

Lemma trailing_number_ignored_witness :
  forallb is_digit ["1"; "2"]%char = true /\
  parse ("5m" ++ string_of_list_ascii ["1"; "2"]%char) = parse "5m".
Proof. split; [reflexivity|apply trailing_number_ignored; reflexivity]. Defined.

Lemma leading_non_digit_witness :
  is_digit "x"%char = false /\ parse (String "x"%char "5m") = Err (CustomInt IntEmpty).
Proof. split; [reflexivity|apply leading_non_digit; reflexivity]. Defined.

End DurationMore.

Module BuildDateMore.
Import BuildDate.

Lemma n_digits_bounds (n : nat) :
  forall l acc v r, (0 <= acc)%Z -> n_digits n l acc = Some (v, r) ->
  (acc * 10 ^ Z.of_nat n <= v < (acc + 1) * 10 ^ Z.of_nat n)%Z.
Proof.
  induction n as [|n IH]; intros l acc v r Hacc H; simpl in H.
  - inversion H; subst; simpl; lia.
  - destruct l as [|c l]; [discriminate H|].
    destruct (PromDuration.is_digit c) eqn:Hc; [|discriminate H].
    pose proof (DurationFacts.digit_value_range c Hc).
    apply IH in H; [|lia].
    rewrite Nat2Z.inj_succ, Z.pow_succ_r by lia.
    assert (0 < 10 ^ Z.of_nat n)%Z by (apply Z.pow_pos_nonneg; lia).
    nia.
Qed.

(** X4: every date [deserialize_build_info_date] accepts is a valid
    calendar date and time: a year of at most four digits, a month in
    1..12, a day within the month (leap years included), an hour in 0..23
    and minutes and seconds in 0..59. *)
Theorem parse_valid (s : string) (dt : primitive_date_time) :
  parse s = Some dt ->
  (Z.abs (year dt) <= 9999 /\ 1 <= month dt <= 12 /\
   1 <= day dt <= days_in_month (year dt) (month dt) /\
   0 <= hour dt <= 23 /\ 0 <= minute dt <= 59 /\ 0 <= second dt <= 59)%Z.
Proof.
  unfold parse; destruct (F64.split_sign (list_ascii_of_string s)) as [neg l].
  intro H; cbv beta match zeta in H.
  BuildDateFacts.step_digits E1 H; BuildDateFacts.step_digits E2 H;
  BuildDateFacts.step_digits E3 H; BuildDateFacts.step_digits E4 H;
  BuildDateFacts.step_digits E5 H; BuildDateFacts.step_digits E6 H;
  BuildDateFacts.step_digits E7 H; BuildDateFacts.step_digits E8 H;
  BuildDateFacts.step_digits E9 H.
  apply n_digits_bounds in E1, E2, E3, E5, E7, E9; try lia.
  simpl in E1, E2, E3, E5, E7, E9.
  destruct l8; [|discriminate H].
  match type of H with (if ?c then _ else _) = _ => destruct c eqn:C end;
    [|discriminate H].
  inversion H; subst; simpl.
  repeat rewrite andb_true_iff in C; repeat rewrite Z.leb_le in C.
  destruct neg; lia.
Qed.

Lemma parse_valid_witness :
  exists dt, parse "20240229-10:20:30" = Some dt /\
  (Z.abs (year dt) <= 9999 /\ 1 <= month dt <= 12 /\
   1 <= day dt <= days_in_month (year dt) (month dt) /\
   0 <= hour dt <= 23 /\ 0 <= minute dt <= 59 /\ 0 <= second dt <= 59)%Z.
Proof.
  eexists; split; [reflexivity|].
  apply (parse_valid "20240229-10:20:30"); reflexivity.
Defined.

End BuildDateMore.

Module LabelFacts.
Import Serde LabelMaps.

Lemma find_filter {A} (p q : A -> bool) (l : list A) :
  (forall x, p x = true -> q x = true) -> find p (filter q l) = find p l.
Proof.
  intro H; induction l as [|x l IH]; simpl; [reflexivity|].
  destruct (q x) eqn:Hq; simpl; destruct (p x) eqn:Hp; auto.
  rewrite (H x Hp) in Hq; discriminate Hq.
Qed.

Lemma get_insert (k v : string) (m : labels) (k' : string) :
  get (label_insert k v m) k' = if String.eqb k k' then Some v else get m k'.
Proof.
  unfold get, label_insert; simpl.
  destruct (String.eqb k k') eqn:E; [reflexivity|].
  rewrite find_filter; [reflexivity|].
  intros [a b] Hp; simpl in *; apply String.eqb_eq in Hp; subst a.
  rewrite String.eqb_sym, E; reflexivity.
Qed.

Lemma nodup_insert (k v : string) (m : labels) :
  NoDup (map fst m) -> NoDup (map fst (label_insert k v m)).
Proof.
  intro H; unfold label_insert; simpl; constructor.
  - intro Hin; apply in_map_iff in Hin as ([a b] & Ha & Hin); simpl in Ha; subst a.
    apply filter_In in Hin as [_ Hk]; simpl in Hk.
    rewrite String.eqb_refl in Hk; discriminate Hk.
  - induction m as [|[a b] m IH]; simpl; [constructor|].
    inversion H as [|? ? Hn Hd]; subst.
    destruct (negb (String.eqb a k)); simpl; [constructor|]; auto.
    intro Hin; apply Hn; apply in_map_iff in Hin as ([a' b'] & Ha & Hin); simpl in Ha; subst a'.
    apply filter_In in Hin as [Hin _]; apply (in_map fst) in Hin; exact Hin.
Qed.

Lemma lookup_fold (kvs : list (string * json)) (k : string) :
  Client.lookup kvs k = fold_left (lookup_step k) kvs None.
Proof. reflexivity. Qed.

Lemma fold_step (kvs : list (string * json)) (k : string) (acc : option json) :
  fold_left (lookup_step k) kvs acc =
  match fold_left (lookup_step k) kvs None with Some v => Some v | None => acc end.
Proof.
  revert acc; induction kvs as [|[a v] kvs IH]; intro acc; [reflexivity|].
  cbn [fold_left]; rewrite (IH (lookup_step k acc (a, v))), (IH (lookup_step k None (a, v))).
  destruct (fold_left (lookup_step k) kvs None); [reflexivity|].
  unfold lookup_step; simpl; destruct (String.eqb a k); reflexivity.
Qed.

Lemma entries_spec (kvs : list (string * json)) :
  forall m0 m, de_labels_entries kvs m0 = Ok m ->
  (NoDup (map fst m0) -> NoDup (map fst m)) /\
  forall k, option_map JStr (get m k) = fold_left (lookup_step k) kvs (option_map JStr (get m0 k)).
Proof.
  induction kvs as [|[a v] kvs IH]; intros m0 m H; simpl in H.
  - inversion H; subst; split; auto.
  - destruct v as [| | |s| |]; simpl in H; try discriminate H.
    destruct (IH _ _ H) as [Hn Hg]; split.
    + intro; apply Hn, nodup_insert; assumption.
    + intro k; rewrite Hg; simpl; f_equal; unfold lookup_step; simpl.
      rewrite get_insert; destruct (String.eqb a k); reflexivity.
Qed.

Lemma entries_ok (kvs : list (string * json)) (m0 : labels) :
  (exists m, de_labels_entries kvs m0 = Ok m) <->
  Forall (fun kv => exists s, snd kv = JStr s) kvs.
Proof.
  revert m0; induction kvs as [|[a v] kvs IH]; intro m0; simpl.
  - split; [constructor|eauto].
  - destruct v as [| | |s| |]; simpl;
      try (split; [intros [m Hm]; discriminate Hm
                  |intro Hf; apply Forall_inv in Hf; destruct Hf as [s' Hs]; discriminate Hs]).
    split; intro Hf.
    + constructor; [eexists; reflexivity|apply (IH (label_insert a s m0)), Hf].
    + apply (IH (label_insert a s m0)), (Forall_inv_tail Hf).
Qed.

(** X5: a [HashMap<String, String>] field decodes exactly when every value
    of the JSON object is a string; the map then has no duplicate key and
    [get] on it finds, for each key, the last string the object gives
    it. *)
Theorem de_labels_map (kvs : list (string * json)) :
  ((exists m, de_labels (JObj kvs) = Ok m) <->
   Forall (fun kv => exists s, snd kv = JStr s) kvs) /\
  (forall m, de_labels (JObj kvs) = Ok m ->
   NoDup (map fst m) /\ forall k, option_map JStr (get m k) = Client.lookup kvs k).
Proof.
  split; [apply entries_ok|].
  intros m H; destruct (entries_spec _ _ _ H) as [Hn Hg]; split.
  - apply Hn; constructor.
  - intro k; rewrite Hg; reflexivity.
Qed.

Lemma lookup_cons (x : string * json) (kvs : list (string * json)) (k : string) :
  Client.lookup (x :: kvs) k =
  match Client.lookup kvs k with
  | Some v => Some v
  | None => if String.eqb (fst x) k then Some (snd x) else None
  end.
Proof. rewrite !lookup_fold; cbn [fold_left]; rewrite fold_step; reflexivity. Qed.

Lemma lookup_some (kvs : list (string * json)) (k : string) :
  existsb (fun kv => String.eqb (fst kv) k) kvs = true -> Client.lookup kvs k <> None.
Proof.
  induction kvs as [|x kvs IH]; simpl; [discriminate|].
  rewrite lookup_cons; intro H; apply orb_true_iff in H as [H|H].
  - destruct (Client.lookup kvs k); [discriminate|]; rewrite H; discriminate.
  - apply IH in H; destruct (Client.lookup kvs k); [discriminate|contradiction].
Qed.

Lemma lookup_dedup (kvs : list (string * json)) (k : string) :
  Client.lookup (Client.dedup kvs) k = Client.lookup kvs k.
Proof.
  induction kvs as [|[a v] kvs IH]; simpl; [reflexivity|].
  destruct (existsb (fun kv => String.eqb (fst kv) a) kvs) eqn:E.
  - rewrite IH, lookup_cons; simpl.
    destruct (Client.lookup kvs k) eqn:L; [reflexivity|].
    destruct (String.eqb a k) eqn:Ea; [|reflexivity].
    apply String.eqb_eq in Ea; subst a; exfalso; exact (lookup_some _ _ E L).
  - rewrite !lookup_cons, IH; reflexivity.
Qed.

Lemma collect_spec (kvs : list (string * json)) :
  forall m0 m, Client.collect_labels kvs m0 = Ok m ->
  (NoDup (map fst m0) -> NoDup (map fst m)) /\
  forall k, option_map JStr (get m k) = fold_left (lookup_step k) kvs (option_map JStr (get m0 k)).
Proof.
  induction kvs as [|[a v] kvs IH]; intros m0 m H; simpl in H.
  - inversion H; subst; split; auto.
  - destruct v as [| | |s| |]; simpl in H; try discriminate H.
    destruct (IH _ _ H) as [Hn Hg]; split.
    + intro; apply Hn, nodup_insert; assumption.
    + intro k; rewrite Hg; simpl; f_equal; unfold lookup_step; simpl.
      rewrite get_insert; destruct (String.eqb a k); reflexivity.
Qed.

Lemma labels_of_spec (datum : json) (m : labels) :
  Client.labels_of datum = Ok m ->
  NoDup (map fst m) /\
  forall k, option_map JStr (get m k) =
            match Client.index_key datum "metric" with
            | JObj kvs => Client.lookup kvs k
            | _ => None
            end.
Proof.
  unfold Client.labels_of; destruct (Client.index_key datum "metric") as [| | | | |kvs];
    simpl; try discriminate.
  intro H; destruct (collect_spec _ _ _ H) as [Hn Hg]; split; [apply Hn; constructor|].
  intro k; rewrite Hg; simpl; rewrite <- lookup_fold; apply lookup_dedup.
Qed.

(** X6: the label map [parse_response] builds for a vector or matrix
    sample has no duplicate key, and [get] on it finds, for each key, the
    last value the [metric] object gives it. *)
Theorem shell_labels (datum : json) :
  (forall vs, Client.vector_sample datum = Ok vs ->
     NoDup (map fst (Client.vs_labels vs)) /\
     forall k, option_map JStr (get (Client.vs_labels vs) k) =
               match Client.index_key datum "metric" with
               | JObj kvs => Client.lookup kvs k
               | _ => None
               end) /\
  (forall ms, Client.matrix_sample datum = Ok ms ->
     NoDup (map fst (Client.ms_labels ms)) /\
     forall k, option_map JStr (get (Client.ms_labels ms) k) =
               match Client.index_key datum "metric" with
               | JObj kvs => Client.lookup kvs k
               | _ => None
               end).
Proof.
  split; intros r H.
  - unfold Client.vector_sample in H.
    destruct (Client.labels_of datum) as [m| |] eqn:E; try discriminate H; simpl in H.
    destruct (Client.as_array (Client.index_key datum "value")); try discriminate H; simpl in H.
    destruct (Client.value_of_vec l); try discriminate H; simpl in H.
    inversion H; subst; simpl; apply labels_of_spec, E.
  - unfold Client.matrix_sample in H.
    destruct (Client.labels_of datum) as [m| |] eqn:E; try discriminate H; simpl in H.
    destruct (Client.as_array (Client.index_key datum "values")); try discriminate H; simpl in H.
    destruct (Serde.map_outcome Client.value_of l); try discriminate H; simpl in H.
    inversion H; subst; simpl; apply labels_of_spec, E.
Qed.

End LabelFacts.

Module ResponseMore.
Import Serde Response.

Lemma visit_PromqlResult_acc (kvs : list (string * json)) :
  forall s l, visit_map PromqlResult_step kvs (s, l) =
              bind (visit_map PromqlResult_step kvs (s, [])) (fun st => Ok (fst st, (l ++ snd st)%list)).
Proof.
  induction kvs as [|[k v] kvs IH]; intros s l; cbn [visit_map].
  - simpl; rewrite app_nil_r; reflexivity.
  - assert (Hs : forall s l, PromqlResult_step k v (s, l) =
      if String.eqb k "stats"
      then Some (x <- set_slot "stats" (de_option de_Stats) v s ;; Ok (x, l))
      else Some (Ok (s, (l ++ [(k, v)])%list))) by reflexivity.
    rewrite !Hs; destruct (String.eqb k "stats"); cbn [bind app].
    + destruct (set_slot "stats" (de_option de_Stats) v s) as [x| |]; simpl; [|reflexivity|reflexivity].
      rewrite (IH x l), (IH x []); destruct (visit_map PromqlResult_step kvs (x, [])); reflexivity.
    + rewrite (IH s (l ++ [(k, v)])%list), (IH s [(k, v)]).
      destruct (visit_map PromqlResult_step kvs (s, [])) as [[s' l']| |]; simpl; [|reflexivity|reflexivity].
      rewrite <- app_assoc; reflexivity.
Qed.

Lemma data_map_swap (t c : json) (F : list (string * json)) :
  de_Data_map (("resultType", t) :: ("result", c) :: F) =
  de_Data_map (("result", c) :: ("resultType", t) :: F).
Proof.
  unfold de_Data_map.
  replace (next_relevant (("resultType", t) :: ("result", c) :: F))
    with (Some (true, t, ("result", c) :: F)) by reflexivity.
  replace (next_relevant (("result", c) :: ("resultType", t) :: F))
    with (Some (false, c, ("resultType", t) :: F)) by reflexivity.
  replace (next_relevant (("result", c) :: F)) with (Some (false, c, F)) by reflexivity.
  replace (next_relevant (("resultType", t) :: F)) with (Some (true, t, F)) by reflexivity.
  reflexivity.
Qed.
(** X7: the order of the [resultType] and [result] keys at the head of a
    query result does not matter to its decoding. *)
Theorem data_tag_order (t c : json) (rest : list (string * json)) :
  de_PromqlResult (JObj (("resultType", t) :: ("result", c) :: rest)) =
  de_PromqlResult (JObj (("result", c) :: ("resultType", t) :: rest)).
Proof.
  assert (H1 : forall a b, a <> "stats" -> b <> "stats" -> forall va vb,
    visit_map PromqlResult_step ((a, va) :: (b, vb) :: rest) (None, []) =
    visit_map PromqlResult_step rest (None, [(a, va); (b, vb)])).
  { intros a b Ha Hb va vb; cbn [visit_map].
    assert (Hs : forall k v s l, k <> "stats" ->
              PromqlResult_step k v (s, l) = Some (Ok (s, (l ++ [(k, v)])%list))).
    { intros k v s l Hk; unfold PromqlResult_step; cbn [fst snd].
      apply String.eqb_neq in Hk; rewrite Hk; reflexivity. }
    rewrite (Hs a va _ _ Ha); cbn [bind app]; rewrite (Hs b vb _ _ Hb); reflexivity. }
  unfold de_PromqlResult.
  rewrite !H1 by discriminate.
  rewrite (visit_PromqlResult_acc rest None [("resultType", t); ("result", c)]),
    (visit_PromqlResult_acc rest None [("result", c); ("resultType", t)]).
  destruct (visit_map PromqlResult_step rest (None, [])) as [[s l]| |]; [|reflexivity|reflexivity].
  cbn [bind fst snd]; unfold PromqlResult_finish; cbn [fst snd].
  change (filter (fun kv => is_key ["resultType"; "result"] (fst kv))
                  ([("resultType", t); ("result", c)] ++ l)%list) with
    (("resultType", t) :: ("result", c) ::
       filter (fun kv => is_key ["resultType"; "result"] (fst kv)) l).
  change (filter (fun kv => is_key ["resultType"; "result"] (fst kv))
                  ([("result", c); ("resultType", t)] ++ l)%list) with
    (("result", c) :: ("resultType", t) ::
       filter (fun kv => is_key ["resultType"; "result"] (fst kv)) l).
  rewrite data_map_swap; reflexivity.
Qed.

Lemma stats_null_visit kvs : forall s l st,
  visit_map PromqlResult_step kvs (s, l) = Ok st ->
  (forall v, In ("stats", v) kvs -> v = JNull) ->
  optional s = None -> optional (fst st) = None.
Proof.
  induction kvs as [|[k v] kvs IH]; intros s l st H Hn Hs; cbn [visit_map] in H.
  - inversion H; subst; exact Hs.
  - unfold PromqlResult_step in H; cbn [fst snd] in H.
    destruct (String.eqb k "stats") eqn:Ek.
    + apply String.eqb_eq in Ek; subst k.
      rewrite (Hn v (or_introl eq_refl)) in H.
      destruct s as [x|]; simpl in H; [discriminate|].
      exact (IH _ _ _ H (fun v' Hv => Hn v' (or_intror Hv)) eq_refl).
    + exact (IH _ _ _ H (fun v' Hv => Hn v' (or_intror Hv)) Hs).
Qed.

(** X9: a query result whose [stats] entries are all [null], or that has
    none, decodes with [stats] set to [None]. *)
Theorem stats_absent_or_null kvs r :
  de_PromqlResult (JObj kvs) = Ok r ->
  (forall v, In ("stats", v) kvs -> v = JNull) ->
  stats r = None.
Proof.
  intros H Hn; unfold de_PromqlResult in H.
  destruct (visit_map PromqlResult_step kvs (None, [])) as [st| |] eqn:Hv; try discriminate.
  simpl in H; unfold PromqlResult_finish in H.
  destruct (de_Data_map _); simpl in H; try discriminate.
  inversion H; subst r; simpl.
  exact (stats_null_visit kvs None [] st Hv Hn eq_refl).
Qed.
Lemma stats_absent_or_null_witness :
  exists r, de_PromqlResult (JObj [("resultType", JStr "vector"); ("result", JArr []);
                                   ("stats", JNull)]) = Ok r /\ stats r = None.
Proof.
  eexists; split; [reflexivity|].
  apply (stats_absent_or_null [("resultType", JStr "vector"); ("result", JArr []);
                               ("stats", JNull)]); [reflexivity|].
  intros v Hv; simpl in Hv; intuition congruence.
Defined.

End ResponseMore.

Module StructMore.
Import Serde Response F64.

Lemma set_slot_ok {A} n (d : json -> outcome A de_error) v slot slot' :
  set_slot n d v slot = Ok slot' -> slot = None /\ exists a, d v = Ok a /\ slot' = Some a.
Proof.
  destruct slot; simpl; [discriminate|].
  destruct (d v) eqn:Hd; simpl; intro H; inversion H; subst; eauto.
Qed.

Lemma Sample_step_eq k v st :
  Sample_step k v st =
  if String.eqb k "timestamp" then
    Some (t <- set_slot "timestamp" de_f64_number v (fst st) ;; Ok (t, snd st))
  else if String.eqb k "value" then
    Some (x <- set_slot "value" deserialize_f64 v (snd st) ;; Ok (fst st, x))
  else None.
Proof. reflexivity. Qed.

Lemma Sample_mono kvs st st' :
  visit_map Sample_step kvs st = Ok st' ->
  (fst st <> None -> fst st' = fst st) /\ (snd st <> None -> snd st' = snd st).
Proof.
  revert st; induction kvs as [|[k v] kvs IH]; intros st H; simpl in H.
  - inversion H; subst; tauto.
  - rewrite Sample_step_eq in H.
    destruct (String.eqb k "timestamp").
    + apply EnvelopeFacts.bind_ok in H as [s1 [H1 H2]]. apply EnvelopeFacts.bind_ok in H1 as [t [Ht Hk]].
      inversion Hk; subst. apply set_slot_ok in Ht as [Hn _].
      apply IH in H2. simpl in H2. rewrite Hn. split; [congruence|tauto].
    + destruct (String.eqb k "value").
      * apply EnvelopeFacts.bind_ok in H as [s1 [H1 H2]]. apply EnvelopeFacts.bind_ok in H1 as [t [Ht Hk]].
        inversion Hk; subst. apply set_slot_ok in Ht as [Hn _].
        apply IH in H2. simpl in H2. rewrite Hn. split; [tauto|congruence].
      * exact (IH _ H).
Qed.

Lemma de_f64_number_ok v x :
  de_f64_number v = Ok x -> exists n, v = JNum n /\ x = Documents.number_f64 n.
Proof.
  destruct v as [| |[z|q]| | |]; simpl; intro H; inversion H; subst; eauto.
Qed.

Lemma deserialize_f64_ok v x :
  deserialize_f64 v = Ok x -> exists s, v = JStr s /\ F64.from_str s = Some x.
Proof.
  unfold deserialize_f64; destruct v; simpl; try discriminate.
  destruct (F64.from_str s) eqn:Hs; simpl; intro H; inversion H; subst; eauto.
Qed.

Lemma Sample_fields kvs st st' :
  visit_map Sample_step kvs st = Ok st' ->
  (forall v, In ("timestamp", v) kvs -> fst st = None /\
     exists n, v = JNum n /\ fst st' = Some (Documents.number_f64 n)) /\
  (forall v, In ("value", v) kvs -> snd st = None /\
     exists s x, v = JStr s /\ F64.from_str s = Some x /\ snd st' = Some x).
Proof.
  revert st; induction kvs as [|[k v0] kvs IH]; intros st H; simpl in H.
  - split; intros v [].
  - pose proof H as Hm. simpl in Hm. rewrite Sample_step_eq in H.
    destruct (String.eqb k "timestamp") eqn:Ek.
    + apply String.eqb_eq in Ek; subst k.
      apply EnvelopeFacts.bind_ok in H as [s1 [H1 H2]]. apply EnvelopeFacts.bind_ok in H1 as [t [Ht Hk]].
      inversion Hk; subst s1. apply set_slot_ok in Ht as [Hn [a [Ha Ht]]]. subst t.
      destruct (IH _ H2) as [IH1 IH2]. simpl in IH1, IH2.
      pose proof (Sample_mono _ _ _ H2) as [M1 _]. simpl in M1.
      split; intros v Hin; simpl in Hin.
      * destruct Hin as [Hin|Hin].
        -- inversion Hin; subst v0. split; [exact Hn|].
           apply de_f64_number_ok in Ha as [n [-> ->]]. exists n. split; [reflexivity|].
           apply M1; discriminate.
        -- destruct (IH1 v Hin) as [C _]; discriminate.
      * destruct Hin as [Hin|Hin]; [discriminate|]. exact (IH2 v Hin).
    + destruct (String.eqb k "value") eqn:Ev.
      * apply String.eqb_eq in Ev; subst k.
        apply EnvelopeFacts.bind_ok in H as [s1 [H1 H2]]. apply EnvelopeFacts.bind_ok in H1 as [t [Ht Hk]].
        inversion Hk; subst s1. apply set_slot_ok in Ht as [Hn [a [Ha Ht]]]. subst t.
        destruct (IH _ H2) as [IH1 IH2]. simpl in IH1, IH2.
        pose proof (Sample_mono _ _ _ H2) as [_ M2]. simpl in M2.
        split; intros v Hin; simpl in Hin.
        -- destruct Hin as [Hin|Hin]; [discriminate|]. exact (IH1 v Hin).
        -- destruct Hin as [Hin|Hin].
           ++ inversion Hin; subst v0. split; [exact Hn|].
              apply deserialize_f64_ok in Ha as [s [-> Hs]]. exists s, a.
              split; [reflexivity|]. split; [exact Hs|]. apply M2; discriminate.
           ++ destruct (IH2 v Hin) as [C _]; discriminate.
      * destruct (IH _ H) as [IH1 IH2].
        split; intros v Hin; simpl in Hin; destruct Hin as [Hin|Hin].
        -- inversion Hin; subst k. discriminate.
        -- exact (IH1 v Hin).
        -- inversion Hin; subst k. discriminate.
        -- exact (IH2 v Hin).
Qed.

(** X10: a sample object decodes only if each of its [timestamp] entries
    is a JSON number and each of its [value] entries a string holding a
    float literal; the sample then carries exactly those numbers. *)
Theorem sample_object_fields kvs r :
  de_Sample (JObj kvs) = Ok r ->
  (forall v, In ("timestamp", v) kvs ->
     exists n, v = JNum n /\ timestamp r = Documents.number_f64 n) /\
  (forall v, In ("value", v) kvs ->
     exists s, v = JStr s /\ F64.from_str s = Some (value r)).
Proof.
  unfold de_Sample, de_struct. intro H.
  apply EnvelopeFacts.bind_ok in H as [st [Hv Hf]].
  destruct (Sample_fields _ _ _ Hv) as [F1 F2].
  destruct st as [[t|] [x|]]; simpl in Hf; try discriminate.
  inversion Hf; subst r. simpl in F1, F2. simpl.
  split; intros v Hin.
  - destruct (F1 v Hin) as [_ [n [-> E]]]. inversion E. eauto.
  - destruct (F2 v Hin) as [_ [s [y [-> [Hs E]]]]]. inversion E; subst. eauto.
Qed.

Section Alias.
Context {S1 S2 : Type}.
Variable names : list string.
Variable nm : string.
Variable d : json -> outcome S2 de_error.
Variable step : string -> json -> S1 * option S2 -> option (outcome (S1 * option S2) de_error).
Hypothesis Hkey : forall k v st, is_key names k = true ->
  step k v st = Some (x <- set_slot nm d v (snd st) ;; Ok (fst st, x)).
Hypothesis Hother : forall k v st r st', is_key names k = false ->
  step k v st = Some r -> r = Ok st' -> snd st' = snd st.

Definition alias_count (kvs : list (string * json)) : nat :=
  length (filter (fun kv => is_key names (fst kv)) kvs).

Lemma alias_count_le kvs st st' :
  visit_map step kvs st = Ok st' ->
  (alias_count kvs + (match snd st with Some _ => 1 | None => 0 end) <= 1)%nat.
Proof.
  unfold alias_count.
  revert st; induction kvs as [|[k v] kvs IH]; intros st H; simpl in H |- *.
  - destruct (snd st); lia.
  - destruct (is_key names k) eqn:Ek.
    + rewrite (Hkey k v st Ek) in H.
      apply EnvelopeFacts.bind_ok in H as [s1 [H1 H2]]. apply EnvelopeFacts.bind_ok in H1 as [t [Ht Hk]].
      inversion Hk; subst s1. apply set_slot_ok in Ht as [Hn [a [_ ->]]].
      specialize (IH _ H2). simpl in IH. rewrite Hn. simpl. lia.
    + destruct (step k v st) as [r|] eqn:Hs.
      * apply EnvelopeFacts.bind_ok in H as [s1 [H1 H2]].
        rewrite <- (Hother k v st r s1 Ek Hs H1). exact (IH _ H2).
      * exact (IH _ H).
Qed.
End Alias.

Lemma two_in_filter {A} (p : A -> bool) (l : list A) x y :
  In x l -> In y l -> x <> y -> p x = true -> p y = true ->
  (2 <= length (filter p l))%nat.
Proof.
  induction l as [|a l IH]; simpl; [tauto|].
  intros Hx Hy Hxy Px Py.
  assert (Hlen : forall z, In z l -> p z = true -> (1 <= length (filter p l))%nat).
  { intros z Hz Pz. destruct (filter p l) eqn:F; simpl; [|lia].
    assert (In z (filter p l)) by (apply filter_In; auto). rewrite F in H; destruct H. }
  destruct Hx as [<-|Hx], Hy as [<-|Hy].
  - congruence.
  - rewrite Px. simpl. pose proof (Hlen y Hy Py). lia.
  - rewrite Py. simpl. pose proof (Hlen x Hx Px). lia.
  - pose proof (IH Hx Hy Hxy Px Py). destruct (p a); simpl; lia.
Qed.

(** X11: an instant vector object with both a [sample] and a [value]
    entry, or a range vector object with both [samples] and [values],
    never decodes: the alias and the field name fill the same slot. *)
Theorem alias_collision :
  (forall kvs a b r, In ("sample", a) kvs -> In ("value", b) kvs ->
     de_InstantVector (JObj kvs) <> Ok r) /\
  (forall kvs a b r, In ("samples", a) kvs -> In ("values", b) kvs ->
     de_RangeVector (JObj kvs) <> Ok r).
Proof.
  split; intros kvs a b r Ha Hb H; simpl in H;
    apply EnvelopeFacts.bind_ok in H as [st [Hv _]].
  - refine (_ (alias_count_le ["sample"; "value"] "sample" de_Sample
             InstantVector_step _ _ kvs _ _ Hv)).
    + intro Hle. unfold alias_count in Hle. cbn [snd] in Hle.
      pose proof (two_in_filter (fun kv => is_key ["sample"; "value"] (fst kv)) kvs
                    _ _ Ha Hb ltac:(intro E; inversion E) eq_refl eq_refl). lia.
    + intros k v st0 Ek. unfold InstantVector_step. rewrite Ek.
      destruct (String.eqb k "metric") eqn:Em; [|reflexivity].
      apply String.eqb_eq in Em; subst k; discriminate.
    + intros k v st0 r0 st' Ek. unfold InstantVector_step. rewrite Ek.
      destruct (String.eqb k "metric"); [|discriminate].
      intros E; inversion E; subst r0; intro H.
      apply EnvelopeFacts.bind_ok in H as [m [_ Hm]]. inversion Hm; reflexivity.
  - refine (_ (alias_count_le ["samples"; "values"] "samples" (de_vec de_Sample)
             RangeVector_step _ _ kvs _ _ Hv)).
    + intro Hle. unfold alias_count in Hle. cbn [snd] in Hle.
      pose proof (two_in_filter (fun kv => is_key ["samples"; "values"] (fst kv)) kvs
                    _ _ Ha Hb ltac:(intro E; inversion E) eq_refl eq_refl). lia.
    + intros k v st0 Ek. unfold RangeVector_step. rewrite Ek.
      destruct (String.eqb k "metric") eqn:Em; [|reflexivity].
      apply String.eqb_eq in Em; subst k; discriminate.
    + intros k v st0 r0 st' Ek. unfold RangeVector_step. rewrite Ek.
      destruct (String.eqb k "metric"); [|discriminate].
      intros E; inversion E; subst r0; intro H.
      apply EnvelopeFacts.bind_ok in H as [m [_ Hm]]. inversion Hm; reflexivity.
Qed.

Lemma sample_object_fields_witness :
  exists r, de_Sample (JObj [("timestamp", JNum (NInt 1)); ("value", JStr "2.5")]) = Ok r /\
  (forall v, In ("timestamp", v) [("timestamp", JNum (NInt 1)); ("value", JStr "2.5")] ->
     exists n, v = JNum n /\ timestamp r = Documents.number_f64 n) /\
  (forall v, In ("value", v) [("timestamp", JNum (NInt 1)); ("value", JStr "2.5")] ->
     exists s, v = JStr s /\ F64.from_str s = Some (value r)).
Proof.
  eexists; split; [reflexivity|].
  apply sample_object_fields; reflexivity.
Defined.

End StructMore.

Module EnumMore.
Import Serde Domain.

(** X13: the text [Display] writes for a [MetricType] decodes back to the
    same variant. *)
Theorem metric_type_display_roundtrip (m : MetricTypes.MetricType) :
  de_unit_enum MetricType_variants (JStr (MetricTypes.display m)) =
  Ok (DVariant (MetricTypes.index m) (DRecord [])).
Proof. destruct m; reflexivity. Qed.

End EnumMore.

Module ClientMore.
Import Client.

(** X14: [parse_response] on a response whose status is [error] and whose
    [errorType] and [error] are strings returns that kind and message as
    [ResponseError]; any status other than [success] and [error] gives
    [UnknownResponseStatus]. *)
Theorem parse_response_status (response : list (string * json)) :
  (forall kind msg,
     lookup response "status" = Some (JStr "error") ->
     lookup response "errorType" = Some (JStr kind) ->
     lookup response "error" = Some (JStr msg) ->
     parse_response response = Err (ResponseError kind msg)) /\
  (forall s,
     lookup response "status" = Some (JStr s) ->
     s <> "success" -> s <> "error" ->
     parse_response response = Err (UnknownResponseStatus s)).
Proof.
  split.
  - intros kind msg Hs Ht He. unfold parse_response, index_map.
    rewrite Hs, Ht, He. reflexivity.
  - intros s Hs N1 N2. unfold parse_response, index_map. rewrite Hs. simpl.
    apply String.eqb_neq in N1, N2. rewrite N1, N2. reflexivity.
Qed.

End ClientMore.

Module RequestsMore.
Import Client Requests.

Lemma digit_char (r : N) : (r < 10)%N ->
  PromDuration.is_digit (ascii_of_N (48 + r)) = true /\
  PromDuration.digit_value (ascii_of_N (48 + r)) = Z.of_N r /\
  (r <> 0%N -> ascii_of_N (48 + r) <> "0"%char).
Proof.
  intro H.
  assert (r = 0 \/ r = 1 \/ r = 2 \/ r = 3 \/ r = 4 \/ r = 5 \/ r = 6 \/ r = 7
          \/ r = 8 \/ r = 9)%N as Hr by lia.
  repeat destruct Hr as [->|Hr]; [..|subst r];
    (split; [reflexivity|split; [reflexivity|]]);
    (intros Hn; try (exfalso; apply Hn; reflexivity)); discriminate.
Qed.

Lemma digits_N_spec (f : nat) : forall (n : N) (acc : list ascii),
  (n < 10 ^ N.of_nat (S f))%N ->
  exists ds, digits_N (S f) n acc = (ds ++ acc)%list /\ ds <> [] /\
    forallb PromDuration.is_digit ds = true /\
    PromDuration.digits_value ds = Z.of_N n /\
    (n = 0%N -> ds = ["0"%char]) /\ (n <> 0%N -> hd "0"%char ds <> "0"%char).
Proof.
  induction f as [|f IH]; intros n acc Hn.
  - rewrite Nat2N.inj_succ, N.pow_succ_r', N.pow_0_r in Hn.
    cbn [digits_N]. replace ((n <? 10)%N) with true by (symmetry; apply N.ltb_lt; lia).
    rewrite N.mod_small by lia.
    destruct (digit_char n ltac:(lia)) as [D1 [D2 D3]].
    exists [ascii_of_N (48 + n)]. split; [reflexivity|].
    split; [discriminate|]. split; [cbn [forallb]; rewrite D1; reflexivity|].
    split; [unfold PromDuration.digits_value; cbn [fold_left]; rewrite D2; lia|].
    split; [intros ->; reflexivity|exact D3].
  - remember (S f) as f' eqn:Ef.
    cbn [digits_N].
    destruct (n <? 10)%N eqn:Hlt.
    + apply N.ltb_lt in Hlt. rewrite N.mod_small by lia.
      destruct (digit_char n Hlt) as [D1 [D2 D3]].
      exists [ascii_of_N (48 + n)]. split; [reflexivity|].
      split; [discriminate|]. split; [cbn [forallb]; rewrite D1; reflexivity|].
      split; [unfold PromDuration.digits_value; cbn [fold_left]; rewrite D2; lia|].
      split; [intros ->; reflexivity|exact D3].
    + apply N.ltb_ge in Hlt.
      assert (Hq : (n / 10 < 10 ^ N.of_nat f')%N).
      { apply N.Div0.div_lt_upper_bound. rewrite Nat2N.inj_succ, N.pow_succ_r' in Hn. lia. }
      subst f'.
      destruct (IH (n / 10)%N (ascii_of_N (48 + n mod 10) :: acc) Hq)
        as [ds [E [Hne [Hd [Hv [_ Hh]]]]]].
      destruct (digit_char (n mod 10) (N.mod_lt n 10 ltac:(discriminate))) as [D1 [D2 _]].
      exists (ds ++ [ascii_of_N (48 + n mod 10)])%list.
      split; [rewrite E, <- app_assoc; reflexivity|].
      split; [destruct ds; [contradiction|discriminate]|].
      split; [rewrite forallb_app, Hd; cbn [forallb]; rewrite D1; reflexivity|].
      split.
      { unfold PromDuration.digits_value in *. rewrite fold_left_app. cbn [fold_left].
        rewrite Hv, D2. pose proof (N.div_mod n 10 ltac:(discriminate)). lia. }
      split; [lia|].
      intros _. destruct ds as [|c ds]; [contradiction|]. simpl.
      apply Hh. intro H0. apply N.div_small_iff in H0; lia.
Qed.

Lemma string_of_N_spec (n : N) :
  exists ds, list_ascii_of_string (string_of_N n) = ds /\ ds <> [] /\
    forallb PromDuration.is_digit ds = true /\
    PromDuration.digits_value ds = Z.of_N n /\
    (n = 0%N -> ds = ["0"%char]) /\ (n <> 0%N -> hd "0"%char ds <> "0"%char).
Proof.
  unfold string_of_N. rewrite list_ascii_of_string_of_list_ascii.
  assert (Hb : (n < 10 ^ N.of_nat (S (N.to_nat (N.size n))))%N).
  { rewrite Nat2N.inj_succ, N2Nat.id.
    apply N.lt_le_trans with (2 ^ N.size n)%N; [apply N.size_gt|].
    apply N.le_trans with (10 ^ N.size n)%N.
    - apply N.pow_le_mono_l; lia.
    - apply N.pow_le_mono_r; lia. }
  destruct (digits_N_spec _ n [] Hb) as [ds [E H]].
  rewrite app_nil_r in E. rewrite E. eauto.
Qed.

(** X15: the [to_string] of an [i64] used for the [time], [start] and
    [end] parameters is its canonical decimal form: an optional minus
    sign, then a non-empty run of digits without a leading zero (the
    single digit 0 for zero) whose value is the absolute value. *)
Theorem string_of_Z_decimal (z : Z) :
  exists ds,
    list_ascii_of_string (string_of_Z z) =
      ((if (z <? 0)%Z then ["-"%char] else []) ++ ds)%list /\
    ds <> [] /\ forallb PromDuration.is_digit ds = true /\
    PromDuration.digits_value ds = Z.abs z /\
    (z = 0%Z -> ds = ["0"%char]) /\ (z <> 0%Z -> hd "0"%char ds <> "0"%char).
Proof.
  unfold string_of_Z. destruct (z <? 0)%Z eqn:Hz.
  - apply Z.ltb_lt in Hz.
    destruct (string_of_N_spec (Z.abs_N z)) as [ds [E [H1 [H2 [H3 [H4 H5]]]]]].
    exists ds. simpl. rewrite E. rewrite Z_of_N_abs in H3.
    repeat split; auto; intros; [lia|apply H5; lia].
  - apply Z.ltb_ge in Hz.
    destruct (string_of_N_spec (Z.to_N z)) as [ds [E [H1 [H2 [H3 [H4 H5]]]]]].
    exists ds. simpl. rewrite E. rewrite Z2N.id in H3 by lia.
    repeat split; auto; [lia|intros; apply H4; lia|intros; apply H5; lia].
Qed.

Lemma str_app_assoc (a b c : string) : ((a ++ b) ++ c) = (a ++ (b ++ c)).
Proof. induction a as [|x a IH]; simpl; congruence. Qed.

Section RequestFacts.
Context {Er : Type}.
Variable validate_duration : string -> outcome unit Er.
Variable send : string -> list (string * string) -> outcome (list (string * json)) Er.
Variable of_error : Client.Error -> Er.

(** X16: with a valid step and no timeout, [query] and [query_range] on
    [Client::new(scheme, host, port)] both send their parameters to
    [<scheme>://<host>:<port>/api/v1/query]: the range query uses the
    instant-query endpoint. *)
Theorem query_endpoints (scheme : Scheme) (host : string) (port : Z)
    (q : string) (start end_ : Z) (step : string) :
  validate_duration step = Ok tt ->
  let url := (scheme_as_str scheme ++ "://" ++ host ++ ":" ++ string_of_Z port
              ++ "/api/v1/query") in
  query validate_duration send of_error (new scheme host port) q None None =
    (r <- send url [("query", q)] ;; map_err of_error (parse_response r)) /\
  query_range validate_duration send of_error (new scheme host port) q start end_ step None =
    (r <- send url [("query", q); ("start", string_of_Z start);
                     ("end", string_of_Z end_); ("step", step)] ;;
     map_err of_error (parse_response r)).
Proof.
  intros Hv url.
  assert (Hu : base_url (new scheme host port) ++ "/query" = url).
  { unfold url, new; cbn [base_url]. rewrite !str_app_assoc. reflexivity. }
  unfold query, query_range. rewrite Hu, Hv. split; reflexivity.
Qed.

(** X17: [query_range] validates its step and then its timeout, and
    [query] its timeout, before any request is sent: an invalid duration
    returns its error whatever the server would answer. *)
Theorem query_validation (c : ClientT) (q : string) (time : option Z)
    (start end_ : Z) (step : string) (timeout : option string) :
  (forall e, validate_duration step = Err e ->
     query_range validate_duration send of_error c q start end_ step timeout = Err e) /\
  (forall t e, validate_duration step = Ok tt -> validate_duration t = Err e ->
     query_range validate_duration send of_error c q start end_ step (Some t) = Err e) /\
  (forall t e, validate_duration t = Err e ->
     query validate_duration send of_error c q time (Some t) = Err e).
Proof.
  refine (conj _ (conj _ _)).
  - intros e He. unfold query_range. rewrite He. reflexivity.
  - intros t e Hs Ht. unfold query_range, add_timeout. rewrite Hs. simpl. rewrite Ht. reflexivity.
  - intros t e Ht. unfold query, add_timeout. rewrite Ht. reflexivity.
Qed.
End RequestFacts.

Lemma query_endpoints_witness :
  (fun _ : string => @Ok unit nat tt) "1m" = Ok tt /\
  query (fun _ => Ok tt) (fun _ _ => @Err (list (string * json)) nat 0%nat)
    (fun _ => 1%nat) (new Http "localhost" 9090) "up" None None = Err 0%nat.
Proof.
  split; [reflexivity|].
  destruct (query_endpoints (fun _ : string => @Ok unit nat tt)
              (fun _ _ => @Err (list (string * json)) nat 0%nat) (fun _ => 1%nat)
              Http "localhost" 9090 "up" 0 60 "1m" eq_refl) as [H _].
  rewrite H; reflexivity.
Defined.

End RequestsMore.
